(** * go-winacl: security identifiers, generic-rights mapping, integrity
      policy, the access-check engine and the ACL / descriptor decoders.

    The Go sources are embedded shallowly: unsigned machine integers are
    [Z] values (the 32-bit complement [^x] is written out as [not32]),
    byte buffers are [list byte], Go maps are [gmap], a nil map or nil
    pointer argument is [None], a run-time panic (index out of range) is
    the [None] of the option monad, and a Go [(value, error)] result is a
    pair whose second component is [option error]. *)

From Stdlib Require Import ZArith Lia String Ascii Bool.
From Stdlib.Strings Require Import Byte.
From stdpp Require Import base numbers list strings gmap pretty.

Open Scope Z_scope.

(** ** Formatting helpers ([fmt] verbs used by the sources) *)

(** [%v] / [%d] of an integer. *)
Definition fmt_d (n : Z) : string := pretty n.

(** [%v] of a bool. *)
Definition fmt_bool (b : bool) : string := if b then "true" else "false".

Definition hex_digit (d : Z) : ascii :=
  nth (Z.to_nat d) (list_ascii_of_string "0123456789ABCDEF") "0"%char.

(** [%08X] of a uint32: eight upper-case nibbles, most significant first. *)
Definition fmt_08X (v : Z) : string :=
  string_of_list_ascii
    (map (fun sh => hex_digit (Z.land (Z.shiftr v sh) 15)) [28; 24; 20; 16; 12; 8; 4; 0]).

(** ** 32-bit words *)

Definition is_uint32 (x : Z) : Prop := 0 <= x < 2 ^ 32.

(** Go's unary [^x] on a uint32. *)
Definition not32 (x : Z) : Z := Z.lxor x 0xFFFFFFFF.

(** ** Access-mask and ACE-type constants *)

(** The const blocks that declare the [AccessMask*] rights, the [AceType]
    enumeration and the flags of the advanced ACE body are not among the
    sources.  The specification names the rights and the ACE types; they
    carry their Windows values here (one bit per right, the ACE type
    codes 0..16). *)

(** Modelled from the spec: the missing constant GENERIC_READ. *)
Definition AccessMaskGenericRead : Z := 0x80000000.
(** Modelled from the spec: the missing constant GENERIC_WRITE. *)
Definition AccessMaskGenericWrite : Z := 0x40000000.
(** Modelled from the spec: the missing constant GENERIC_EXECUTE. *)
Definition AccessMaskGenericExecute : Z := 0x20000000.
(** Modelled from the spec: the missing constant GENERIC_ALL. *)
Definition AccessMaskGenericAll : Z := 0x10000000.
(** Modelled from the spec: the missing constant SYNCHRONIZE. *)
Definition AccessMaskSynchronize : Z := 0x00100000.
(** Modelled from the spec: the missing constant WRITE_OWNER. *)
Definition AccessMaskWriteOwner : Z := 0x00080000.
(** Modelled from the spec: the missing constant WRITE_DAC. *)
Definition AccessMaskWriteDACL : Z := 0x00040000.
(** Modelled from the spec: the missing constant READ_CONTROL. *)
Definition AccessMaskReadControl : Z := 0x00020000.
(** Modelled from the spec: the missing constant DELETE. *)
Definition AccessMaskDelete : Z := 0x00010000.

(** Modelled from the spec: the missing ACE type access-allowed. *)
Definition AceTypeAccessAllowed : Z := 0.
(** Modelled from the spec: the missing ACE type access-denied. *)
Definition AceTypeAccessDenied : Z := 1.
(** Modelled from the spec: the missing ACE type system-audit. *)
Definition AceTypeSystemAudit : Z := 2.
(** Modelled from the spec: the missing ACE type system-alarm. *)
Definition AceTypeSystemAlarm : Z := 3.
(** Modelled from the spec: the missing ACE type access-allowed-compound
    (no decoder case handles it). *)
Definition AceTypeAccessAllowedCompound : Z := 4.
(** Modelled from the spec: the missing ACE type access-allowed-object. *)
Definition AceTypeAccessAllowedObject : Z := 5.
(** Modelled from the spec: the missing ACE type access-denied-object. *)
Definition AceTypeAccessDeniedObject : Z := 6.
(** Modelled from the spec: the missing ACE type system-audit-object. *)
Definition AceTypeSystemAuditObject : Z := 7.
(** Modelled from the spec: the missing ACE type system-alarm-object. *)
Definition AceTypeSystemAlarmObject : Z := 8.
(** Modelled from the spec: the missing ACE type access-allowed-callback. *)
Definition AceTypeAccessAllowedCallback : Z := 9.
(** Modelled from the spec: the missing ACE type access-denied-callback. *)
Definition AceTypeAccessDeniedCallback : Z := 10.
(** Modelled from the spec: the missing ACE type access-allowed-callback-object. *)
Definition AceTypeAccessAllowedCallbackObject : Z := 11.
(** Modelled from the spec: the missing ACE type access-denied-callback-object. *)
Definition AceTypeAccessDeniedCallbackObject : Z := 12.
(** Modelled from the spec: the missing ACE type system-audit-callback. *)
Definition AceTypeSystemAuditCallback : Z := 13.
(** Modelled from the spec: the missing ACE type system-alarm-callback. *)
Definition AceTypeSystemAlarmCallback : Z := 14.
(** Modelled from the spec: the missing ACE type system-audit-callback-object. *)
Definition AceTypeSystemAuditCallbackObject : Z := 15.
(** Modelled from the spec: the missing ACE type system-alarm-callback-object. *)
Definition AceTypeSystemAlarmCallbackObject : Z := 16.

(** Modelled from the spec: the missing flag bit of an advanced ACE body
    that announces the object-type GUID. *)
Definition ACEInheritanceFlagsObjectTypePresent : Z := 0x01.
(** Modelled from the spec: the missing flag bit of an advanced ACE body
    that announces the inherited-object-type GUID. *)
Definition ACEInheritanceFlagsInheritedObjectTypePresent : Z := 0x02.

(** ** sid.go *)

Record SID := mkSID {
  Revision : Z;             (* byte *)
  NumAuthorities : Z;       (* byte *)
  Authority : list byte;    (* []byte *)
  SubAuthorities : list Z   (* []uint32 *)
}.

(** The zero value [SID{}]. *)
Definition SID_zero : SID := mkSID 0 0 [] [].

Definition byte_to_Z (b : byte) : Z := Z.of_N (Byte.to_N b).

(** The loop [for i := 0; i < int(s.NumAuthorities); i++] of [String]:
    [n] iterations are left, [i] is the index, [sb] the builder.
    [s.SubAuthorities[i]] panics when [i] is out of range. *)
Fixpoint String_loop (subs : list Z) (n i : nat) (sb : string) : option string :=
  match n with
  | O => Some sb
  | S n' =>
      match subs !! i with
      | None => None
      | Some v => String_loop subs n' (S i) (sb +:+ "-" +:+ fmt_d v)
      end
  end.

(** [func (s SID) String() string] *)
Definition SID_String (s : SID) : option string :=
  if (length (Authority s) <? 6)%nat then Some ""
  else
    match Authority s !! 5%nat with
    | None => None
    | Some a5 =>
        String_loop (SubAuthorities s) (Z.to_nat (NumAuthorities s)) 0
          ("S-" +:+ fmt_d (Revision s) +:+ "-" +:+ fmt_d (byte_to_Z a5))
    end.

(** ** integrity.go *)

Definition IntegrityLevelUntrusted : Z := 0x0000.
Definition IntegrityLevelLow : Z := 0x1000.
Definition IntegrityLevelMedium : Z := 0x2000.
Definition IntegrityLevelMediumPlus : Z := 0x2100.
Definition IntegrityLevelHigh : Z := 0x3000.
Definition IntegrityLevelSystem : Z := 0x4000.
Definition IntegrityLevelProtected : Z := 0x5000.
Definition IntegrityLevelSecureProcess : Z := 0x6000.

Definition IntegrityLevelNameMap : gmap Z string :=
  list_to_map
    [ (IntegrityLevelUntrusted, "Untrusted");
      (IntegrityLevelLow, "Low");
      (IntegrityLevelMedium, "Medium");
      (IntegrityLevelMediumPlus, "Medium Plus");
      (IntegrityLevelHigh, "High");
      (IntegrityLevelSystem, "System");
      (IntegrityLevelProtected, "Protected Process");
      (IntegrityLevelSecureProcess, "Secure Process") ].

(** [func (il IntegrityLevel) String() string] *)
Definition IntegrityLevel_String (il : Z) : string :=
  match IntegrityLevelNameMap !! il with
  | Some name => name
  | None => "Unknown (" +:+ fmt_d il +:+ ")"
  end.

Definition PolicyNoWriteUp : Z := 0x1.
Definition PolicyNoReadUp : Z := 0x2.
Definition PolicyNoExecuteUp : Z := 0x4.

(** [func (il IntegrityLevel) CheckAccess(objectLevel, policy, requestedAccess) bool] *)
Definition CheckAccess (il objectLevel policy requestedAccess : Z) : bool :=
  if objectLevel <=? il then true
  else if negb (Z.land policy PolicyNoWriteUp =? 0)
          && negb (Z.land requestedAccess
                     (Z.lor (Z.lor AccessMaskGenericWrite AccessMaskWriteDACL)
                        AccessMaskWriteOwner) =? 0)
  then false
  else if negb (Z.land policy PolicyNoReadUp =? 0)
          && negb (Z.land requestedAccess
                     (Z.lor AccessMaskGenericRead AccessMaskReadControl) =? 0)
  then false
  else if negb (Z.land policy PolicyNoExecuteUp =? 0)
          && negb (Z.land requestedAccess AccessMaskGenericExecute =? 0)
  then false
  else true.

(** ** Generic-rights mapping ([MapGenericAccess]) *)

Definition genericRights : list Z :=
  [ AccessMaskGenericRead; AccessMaskGenericWrite;
    AccessMaskGenericExecute; AccessMaskGenericAll ].

(** One iteration of [for _, genericRight := range genericRights]; the
    state is the pair of the mutable locals [(result, access)]. *)
Definition mapStep (mapping : gmap Z Z) (st : Z * Z) (genericRight : Z) : Z * Z :=
  let '(result, access) := st in
  if negb (Z.land access genericRight =? 0) then
    match mapping !! genericRight with
    | Some specificRights =>
        (Z.lor result specificRights, Z.land access (not32 genericRight))
    | None => (result, access)
    end
  else (result, access).

(** [func MapGenericAccess(access uint32, mapping map[uint32]uint32) uint32];
    a nil map is [None]. *)
Definition MapGenericAccess (access : Z) (mapping : option (gmap Z Z)) : Z :=
  match mapping with
  | None => access
  | Some m =>
      let '(result, access') := foldl (mapStep m) (0, access) genericRights in
      let result := Z.lor result access' in
      if (result =? 0) && negb (access' =? 0) then access' else result
  end.

(** ** ACE, ACL and descriptor records *)

(** The record declarations of the ACE codec are not among the sources;
    field names are those the decoders and the tests use. *)

(** Modelled from the spec: the missing ACE header record, a type tag,
    a flag byte and the declared total record size (1 + 1 + 2 bytes). *)
Record ACEHeader := mkACEHeader {
  Type_ : Z;        (* AceType, one byte *)
  ace_Flags : Z;    (* ACEHeaderFlags, one byte *)
  ace_Size : Z      (* uint16 *)
}.

(** Modelled from the spec: the missing access-mask record, a 32-bit
    rights bitmask. *)
Record ACEAccessMask := mkACEAccessMask { Value : Z }.

(** Modelled from the spec: the missing accessor
    [func (am ACEAccessMask) Raw() uint32], the mask itself. *)
Definition Raw (am : ACEAccessMask) : Z := Value am.

(** src/pkg/guid.go [type GUID struct]. *)
Record GUID := mkGUID {
  Data1 : Z;           (* uint32 *)
  Data2 : Z;           (* uint16 *)
  Data3 : Z;           (* uint16 *)
  Data4 : list byte    (* [8]byte *)
}.

Definition GUID_zero : GUID := mkGUID 0 0 0 (replicate 8 x00).

(** Modelled from the spec: the missing basic ACE body, which carries
    only the trailing SID. *)
Record BasicAce := mkBasicAce { basic_SecurityIdentifier : SID }.

(** Modelled from the spec: the missing advanced (object) ACE body: the
    32-bit flags, the two optional GUIDs and the trailing SID. *)
Record AdvancedAce := mkAdvancedAce {
  adv_Flags : Z;                 (* ACEInheritanceFlags, uint32 *)
  ObjectType : GUID;
  InheritedObjectType : GUID;
  adv_SecurityIdentifier : SID
}.

(** Modelled from the spec: the missing interface type of the field
    [ObjectAce]: one of the two body records, or the nil interface of a
    zero-valued ACE. *)
Inductive ObjectAceI :=
  | IsBasicAce (oa : BasicAce)
  | IsAdvancedAce (oa : AdvancedAce)
  | NilObjectAce.

(** Modelled from the spec: the missing ACE record: header, access mask
    and body. *)
Record ACE := mkACE {
  Header : ACEHeader;
  AccessMask : ACEAccessMask;
  ObjectAce : ObjectAceI
}.

(** Modelled from the spec: the missing capability
    [ObjectAce.GetPrincipal()], "yield the principal SID this ACE
    concerns"; calling it on the nil interface panics. *)
Definition GetPrincipal (oa : ObjectAceI) : option SID :=
  match oa with
  | IsBasicAce b => Some (basic_SecurityIdentifier b)
  | IsAdvancedAce a => Some (adv_SecurityIdentifier a)
  | NilObjectAce => None
  end.

Record ACLHeader := mkACLHeader {
  acl_Revision : Z;   (* byte *)
  acl_Sbz1 : Z;       (* byte *)
  acl_Size : Z;       (* uint16 *)
  AceCount : Z;       (* uint16 *)
  acl_Sbz2 : Z        (* uint16 *)
}.

Definition ACLHeader_zero : ACLHeader := mkACLHeader 0 0 0 0 0.

Record ACL := mkACL {
  acl_Header : ACLHeader;
  Aces : list ACE
}.

Definition ACL_zero : ACL := mkACL ACLHeader_zero [].

Record NtSecurityDescriptorHeader := mkNTSDHeader {
  sd_Revision : Z;    (* byte *)
  sd_Sbz1 : Z;        (* byte *)
  Control : Z;        (* uint16 *)
  OffsetOwner : Z;    (* uint32 *)
  OffsetGroup : Z;    (* uint32 *)
  OffsetSacl : Z;     (* uint32 *)
  OffsetDacl : Z      (* uint32 *)
}.

Definition NTSDHeader_zero : NtSecurityDescriptorHeader :=
  mkNTSDHeader 0 0 0 0 0 0 0.

Record NtSecurityDescriptor := mkNTSD {
  sd_Header : NtSecurityDescriptorHeader;
  DACL : ACL;
  SACL : ACL;
  Owner : SID;
  Group : SID
}.

(** ** The access-check engine *)

Record CheckDetails := mkCheckDetails {
  Step : string;
  Description : string;
  Outcome : bool
}.

Record AccessCheckResult := mkResult {
  Granted : bool;
  Reason : string;
  Ace : option ACE;
  Access : Z;
  Details : list CheckDetails
}.

Record TokenUser := mkTokenUser {
  UserSID : SID;
  Groups : list SID;
  token_Flags : Z
}.

(** [func NewTokenUser(userSID SID, groups []SID) *TokenUser] *)
Definition NewTokenUser (userSID : SID) (groups : list SID) : TokenUser :=
  mkTokenUser userSID groups 0.

Record AccessCheckOptions := mkOptions {
  IgnoreObjectType : bool;
  CheckIntegrity : bool;
  IntegrityPolicy : Z;
  SubjectIntegrity : Z;
  ObjectIntegrity : Z;
  GenericMapping : option (gmap Z Z)
}.

(** [func DefaultAccessCheckOptions() *AccessCheckOptions] *)
Definition DefaultAccessCheckOptions : AccessCheckOptions :=
  mkOptions true false PolicyNoWriteUp 0 0
    (Some (list_to_map
       [ (AccessMaskGenericRead, AccessMaskReadControl);
         (AccessMaskGenericWrite, Z.lor AccessMaskWriteDACL AccessMaskWriteOwner);
         (AccessMaskGenericExecute, AccessMaskSynchronize);
         (AccessMaskGenericAll, 0xFFFFFFFF) ])).

(** Field updates of the result under construction. *)
Definition addDetail (r : AccessCheckResult) (d : CheckDetails) : AccessCheckResult :=
  mkResult (Granted r) (Reason r) (Ace r) (Access r) (Details r ++ [d]).
Definition setReason (r : AccessCheckResult) (s : string) : AccessCheckResult :=
  mkResult (Granted r) s (Ace r) (Access r) (Details r).
Definition setGranted (r : AccessCheckResult) (b : bool) : AccessCheckResult :=
  mkResult b (Reason r) (Ace r) (Access r) (Details r).
Definition setAccess (r : AccessCheckResult) (a : Z) : AccessCheckResult :=
  mkResult (Granted r) (Reason r) (Ace r) a (Details r).
Definition setAce (r : AccessCheckResult) (a : ACE) : AccessCheckResult :=
  mkResult (Granted r) (Reason r) (Some a) (Access r) (Details r).

(** The loop [for _, group := range token.Groups] of [aceAppliesToToken]. *)
Fixpoint matchesGroup (aceSIDStr : string) (groups : list SID) : option bool :=
  match groups with
  | [] => Some false
  | group :: rest =>
      groupStr ← SID_String group;
      if String.eqb aceSIDStr groupStr then Some true
      else matchesGroup aceSIDStr rest
  end.

(** The part of [aceAppliesToToken] after the type switch. *)
Definition sidAppliesToToken (aceSID : SID) (token : TokenUser) : option (bool * string) :=
  aceSIDStr ← SID_String aceSID;
  if String.eqb aceSIDStr "S-1-1-0" then Some (true, "Everyone SID matches all tokens")
  else
    userStr ← SID_String (UserSID token);
    if String.eqb aceSIDStr userStr then Some (true, "Directly matches user SID")
    else
      inGroup ← matchesGroup aceSIDStr (Groups token);
      if inGroup : bool then Some (true, "Matches a group SID")
      else Some (false, "No SID match found").

(** [func aceAppliesToToken(ace ACE, token *TokenUser, options *AccessCheckOptions) (bool, string)];
    the body guarded by [!options.IgnoreObjectType] is empty in the source. *)
Definition aceAppliesToToken (ace : ACE) (token : TokenUser)
    (options : AccessCheckOptions) : option (bool * string) :=
  match ObjectAce ace with
  | IsBasicAce oa => sidAppliesToToken (basic_SecurityIdentifier oa) token
  | IsAdvancedAce oa => sidAppliesToToken (adv_SecurityIdentifier oa) token
  | NilObjectAce => Some (false, "Unknown ACE object type")
  end.

(** How a pass over the ACEs ends: the function returned from inside the
    loop, or the loop ended and control continues with the locals. *)
Inductive passOutcome :=
  | Returned (result : AccessCheckResult)
  | FellThrough (result : AccessCheckResult) (deniedAccess : Z).

Definition fmt_index (i : nat) : string := fmt_d (Z.of_nat i).

(** First loop of [AccessCheck]: [for i, ace := range securityDescriptor.DACL.Aces]
    over the deny ACEs; [i] is the index of the head of [aces]. *)
Fixpoint denyPass (aces : list ACE) (i : nat) (token : TokenUser)
    (options : AccessCheckOptions) (mappedAccess : Z)
    (result : AccessCheckResult) (deniedAccess : Z) : option passOutcome :=
  match aces with
  | [] => Some (FellThrough result deniedAccess)
  | ace :: rest =>
      if negb (Type_ (Header ace) =? AceTypeAccessDenied) then
        denyPass rest (S i) token options mappedAccess result deniedAccess
      else
        '(applies, reason) ← aceAppliesToToken ace token options;
        let result :=
          addDetail result
            (mkCheckDetails ("DenyACE[" +:+ fmt_index i +:+ "]")
               ("Checking if deny ACE applies: " +:+ fmt_bool applies +:+ " - " +:+ reason)
               applies) in
        if applies : bool then
          let aceMappedAccess :=
            MapGenericAccess (Raw (AccessMask ace)) (GenericMapping options) in
          if negb (Z.land aceMappedAccess mappedAccess =? 0) then
            let result :=
              setReason result ("Access explicitly denied by ACE " +:+ fmt_index i) in
            let deniedAccess := Z.lor deniedAccess (Z.land aceMappedAccess mappedAccess) in
            let result :=
              addDetail result
                (mkCheckDetails ("DenyACE[" +:+ fmt_index i +:+ "]Match")
                   ("Access denied by ACE - access mask 0x"
                      +:+ fmt_08X (Z.land aceMappedAccess mappedAccess))
                   false) in
            if deniedAccess =? mappedAccess then Some (Returned (setAce result ace))
            else denyPass rest (S i) token options mappedAccess result deniedAccess
          else denyPass rest (S i) token options mappedAccess result deniedAccess
        else denyPass rest (S i) token options mappedAccess result deniedAccess
  end.

(** Second loop of [AccessCheck], over the allow ACEs, with its [break];
    it yields the result under construction and [grantedAccess]. *)
Fixpoint allowPass (aces : list ACE) (i : nat) (token : TokenUser)
    (options : AccessCheckOptions) (mappedAccess deniedAccess : Z)
    (result : AccessCheckResult) (grantedAccess : Z)
    : option (AccessCheckResult * Z) :=
  match aces with
  | [] => Some (result, grantedAccess)
  | ace :: rest =>
      if negb (Type_ (Header ace) =? AceTypeAccessAllowed) then
        allowPass rest (S i) token options mappedAccess deniedAccess result grantedAccess
      else
        '(applies, reason) ← aceAppliesToToken ace token options;
        let result :=
          addDetail result
            (mkCheckDetails ("AllowACE[" +:+ fmt_index i +:+ "]")
               ("Checking if allow ACE applies: " +:+ fmt_bool applies +:+ " - " +:+ reason)
               applies) in
        if applies : bool then
          let aceMappedAccess :=
            MapGenericAccess (Raw (AccessMask ace)) (GenericMapping options) in
          let allowedByThisAce :=
            Z.land (Z.land aceMappedAccess mappedAccess) (not32 deniedAccess) in
          if negb (allowedByThisAce =? 0) then
            let grantedAccess := Z.lor grantedAccess allowedByThisAce in
            let result :=
              addDetail result
                (mkCheckDetails ("AllowACE[" +:+ fmt_index i +:+ "]Match")
                   ("Access allowed by ACE - access mask 0x" +:+ fmt_08X allowedByThisAce)
                   true) in
            if Z.lor grantedAccess deniedAccess =? mappedAccess then
              Some (result, grantedAccess)
            else
              allowPass rest (S i) token options mappedAccess deniedAccess result grantedAccess
          else
            allowPass rest (S i) token options mappedAccess deniedAccess result grantedAccess
        else
          allowPass rest (S i) token options mappedAccess deniedAccess result grantedAccess
  end.

(** The block "Determine final access" that ends [AccessCheck]. *)
Definition finalDecision (mappedAccess grantedAccess deniedAccess : Z)
    (result : AccessCheckResult) : AccessCheckResult :=
  let remainingAccess :=
    Z.land mappedAccess (not32 (Z.lor grantedAccess deniedAccess)) in
  if (remainingAccess =? 0) && (grantedAccess =? mappedAccess) then
    let result := setGranted result true in
    let result := setReason result "Access granted by ACL" in
    let result := setAccess result grantedAccess in
    addDetail result
      (mkCheckDetails "FinalDecision" "All requested access rights were granted" true)
  else
    let result := setGranted result false in
    let result :=
      if negb (deniedAccess =? 0) then
        setReason result "Some requested access was explicitly denied"
      else setReason result "Some requested access was not granted by any ACE" in
    let result := setAccess result grantedAccess in
    addDetail result
      (mkCheckDetails "FinalDecision"
         ("Access partially granted: requested=" +:+ fmt_08X mappedAccess
            +:+ ", granted=" +:+ fmt_08X grantedAccess
            +:+ ", denied=" +:+ fmt_08X deniedAccess
            +:+ ", unmatched=" +:+ fmt_08X remainingAccess)
         false).

Definition ownerRights : Z := Z.lor AccessMaskReadControl AccessMaskWriteDACL.

(** [AccessCheck] from the owner check on (the DACL is not empty). *)
Definition checkOwnerAndAces (securityDescriptor : NtSecurityDescriptor)
    (token : TokenUser) (options : AccessCheckOptions) (mappedAccess : Z)
    (result : AccessCheckResult) : option AccessCheckResult :=
  userStr ← SID_String (UserSID token);
  ownerStr ← SID_String (Owner securityDescriptor);
  let isOwner := String.eqb userStr ownerStr in
  let result :=
    addDetail result
      (mkCheckDetails "OwnerCheck"
         ("Checking if user is owner: " +:+ fmt_bool isOwner) isOwner) in
  if isOwner && (Z.land mappedAccess (not32 ownerRights) =? 0) then
    let result := setGranted result true in
    let result := setReason result "Access granted to owner" in
    let result := setAccess result (Z.land mappedAccess ownerRights) in
    Some (addDetail result
            (mkCheckDetails "OwnerRights" "Access granted based on ownership" true))
  else
    outcome ← denyPass (Aces (DACL securityDescriptor)) 0 token options mappedAccess result 0;
    match outcome with
    | Returned result => Some result
    | FellThrough result deniedAccess =>
        '(result, grantedAccess) ←
          allowPass (Aces (DACL securityDescriptor)) 0 token options
            mappedAccess deniedAccess result 0;
        Some (finalDecision mappedAccess grantedAccess deniedAccess result)
    end.

(** [if options == nil { options = DefaultAccessCheckOptions() }] *)
Definition optionsOrDefault (options : option AccessCheckOptions) : AccessCheckOptions :=
  match options with
  | None => DefaultAccessCheckOptions
  | Some o => o
  end.

(** [AccessCheck] after the integrity check: the empty-DACL test and the rest. *)
Definition checkDacl (securityDescriptor : NtSecurityDescriptor)
    (token : TokenUser) (options : AccessCheckOptions) (mappedAccess : Z)
    (result : AccessCheckResult) : option AccessCheckResult :=
  if (length (Aces (DACL securityDescriptor)) =? 0)%nat then
    let result := setGranted result true in
    let result := setReason result "No DACL present (full access)" in
    let result := setAccess result mappedAccess in
    Some (addDetail result
            (mkCheckDetails "EmptyDACL" "No DACL present; full access granted" true))
  else checkOwnerAndAces securityDescriptor token options mappedAccess result.

(** [func AccessCheck(securityDescriptor *NtSecurityDescriptor, token *TokenUser,
      desiredAccess uint32, options *AccessCheckOptions) *AccessCheckResult];
    [options = None] is the nil pointer; [None] as result is a panic. *)
Definition AccessCheck (securityDescriptor : NtSecurityDescriptor)
    (token : TokenUser) (desiredAccess : Z)
    (options : option AccessCheckOptions) : option AccessCheckResult :=
  let result := mkResult false "" None 0 [] in
  let options := optionsOrDefault options in
  let mappedAccess := MapGenericAccess desiredAccess (GenericMapping options) in
  if CheckIntegrity options then
    let integrityCheck :=
      CheckAccess (SubjectIntegrity options) (ObjectIntegrity options)
        (IntegrityPolicy options) mappedAccess in
    let result :=
      addDetail result
        (mkCheckDetails "IntegrityLevel"
           ("Checking if integrity level "
              +:+ IntegrityLevel_String (SubjectIntegrity options)
              +:+ " can access " +:+ IntegrityLevel_String (ObjectIntegrity options)
              +:+ " with policy " +:+ fmt_d (IntegrityPolicy options))
           integrityCheck) in
    if negb integrityCheck then
      Some (setReason result "Access denied by integrity level policy")
    else checkDacl securityDescriptor token options mappedAccess result
  else checkDacl securityDescriptor token options mappedAccess result.

(** ** Errors and byte buffers *)

(** Go error values met by the decoders: the two [io] sentinels returned
    by [binary.Read], [SIDInvalidError], and [fmt.Errorf] without and
    with a wrapped cause ([%w]). *)
Inductive error :=
  | EOF
  | ErrUnexpectedEOF
  | SIDInvalidError (msg : string)
  | Errorf (msg : string)
  | Errorw (prefix : string) (cause : error).

(** [err.Error()] *)
Fixpoint Error (e : error) : string :=
  match e with
  | EOF => "EOF"
  | ErrUnexpectedEOF => "unexpected EOF"
  | SIDInvalidError msg => "NewSID: " +:+ msg
  | Errorf msg => msg
  | Errorw prefix cause => prefix +:+ ": " +:+ Error cause
  end.

(** [errors.Unwrap] *)
Definition Unwrap (e : error) : option error :=
  match e with
  | Errorw _ cause => Some cause
  | _ => None
  end.

(** The unread part of a [bytes.Buffer]. *)
Definition Buffer := list byte.

(** [io.ReadFull] of [n >= 1] bytes from a [bytes.Buffer], as
    [binary.Read] performs it: all [n] bytes, or the buffer is drained
    and the error is [io.EOF] (nothing was left) or
    [io.ErrUnexpectedEOF]. *)
Definition readFull (n : nat) (buf : Buffer) : (list byte + error) * Buffer :=
  if (n <=? length buf)%nat then (inl (take n buf), drop n buf)
  else (inr (if (length buf =? 0)%nat then EOF else ErrUnexpectedEOF), []).

(** [binary.LittleEndian] value of a byte string. *)
Definition le (bs : list byte) : Z :=
  foldr (fun b acc => byte_to_Z b + 256 * acc) 0 bs.

(** Go's [data[lo:hi]]. *)
Definition slice (lo hi : nat) (data : list byte) : list byte :=
  take (hi - lo) (drop lo data).

(** [func NewSID(buf *bytes.Buffer, sidLength int) (SID, error)];
    [buf.Next(sidLength)] hands out at most what is left (every caller
    passes a non-negative length). *)
Definition NewSID (buf : Buffer) (sidLength : Z) : (SID * option error) * Buffer :=
  let data := take (Z.to_nat sidLength) buf in
  let buf' := drop (Z.to_nat sidLength) buf in
  if (length data <? 8)%nat then
    ((SID_zero, Some (SIDInvalidError "SID data too short")), buf')
  else
    let revision := le (slice 0 1 data) in
    if negb (revision =? 1) then
      ((SID_zero, Some (SIDInvalidError "invalid SID revision")), buf')
    else
      let numAuth := le (slice 1 2 data) in
      if 15 <? numAuth then
        ((SID_zero, Some (SIDInvalidError "invalid number of subauthorities")), buf')
      else
        let expectedLength := 8 + numAuth * 4 in
        if Z.of_nat (length data) <? expectedLength then
          ((SID_zero, Some (SIDInvalidError "SID data too short for subauthorities")), buf')
        else
          let authority := slice 2 8 data in
          let subAuth :=
            map (fun i => let offset := (8 + i * 4)%nat in
                          le (slice offset (offset + 4) data))
              (seq 0 (Z.to_nat numAuth)) in
          ((mkSID revision numAuth authority subAuth, None), buf').

(** [func NewACLHeader(buf *bytes.Buffer) (aclh ACLHeader, err error)]:
    one [binary.Read] of the 8-byte record. *)
Definition NewACLHeader (buf : Buffer) : (ACLHeader * option error) * Buffer :=
  match readFull 8 buf with
  | (inl bs, buf') =>
      ((mkACLHeader (le (slice 0 1 bs)) (le (slice 1 2 bs)) (le (slice 2 4 bs))
          (le (slice 4 6 bs)) (le (slice 6 8 bs)), None), buf')
  | (inr err, buf') =>
      ((ACLHeader_zero, Some (Errorw "reading ACL header" err)), buf')
  end.

(** [func NewACEHeader(buf *bytes.Buffer) (header ACEHeader, err error)] *)
Definition NewACEHeader (buf : Buffer) : (ACEHeader * option error) * Buffer :=
  match readFull 4 buf with
  | (inl bs, buf') =>
      ((mkACEHeader (le (slice 0 1 bs)) (le (slice 1 2 bs)) (le (slice 2 4 bs)), None), buf')
  | (inr err, buf') =>
      ((mkACEHeader 0 0 0, Some (Errorw "reading ACE header" err)), buf')
  end.

(** [func NewNTSDHeader(buf *bytes.Buffer) (header NtSecurityDescriptorHeader, err error)] *)
Definition NewNTSDHeader (buf : Buffer)
    : (NtSecurityDescriptorHeader * option error) * Buffer :=
  match readFull 20 buf with
  | (inl bs, buf') =>
      ((mkNTSDHeader (le (slice 0 1 bs)) (le (slice 1 2 bs)) (le (slice 2 4 bs))
          (le (slice 4 8 bs)) (le (slice 8 12 bs)) (le (slice 12 16 bs))
          (le (slice 16 20 bs)), None), buf')
  | (inr err, buf') =>
      ((NTSDHeader_zero, Some (Errorw "reading NTSD header" err)), buf')
  end.

(** [func NewBasicAce(buf *bytes.Buffer, totalSize uint16) (BasicAce, error)] *)
Definition NewBasicAce (buf : Buffer) (totalSize : Z)
    : (BasicAce * option error) * Buffer :=
  let sidSize := totalSize - 8 in
  if sidSize <=? 0 then
    ((mkBasicAce SID_zero,
      Some (Errorf ("invalid ACE size for SID: " +:+ fmt_d sidSize))), buf)
  else
    match NewSID buf sidSize with
    | ((_, Some err), buf') =>
        ((mkBasicAce SID_zero, Some (Errorw "parsing SID in basic ACE" err)), buf')
    | ((sid, None), buf') => ((mkBasicAce sid, None), buf')
    end.

Section Decoders.

(** The root package's [NewGUID (buf *bytes.Buffer) (GUID, error)] is
    called by [NewAdvancedAce] but is not among the sources (the file
    under pkg/ is a variant without the error result); the decoders take
    it as a parameter. *)
Variable NewGUID : Buffer -> (GUID * option error) * Buffer.

(** [func NewAdvancedAce(buf *bytes.Buffer, totalSize uint16) (AdvancedAce, error)] *)
Definition NewAdvancedAce (buf : Buffer) (totalSize : Z)
    : (AdvancedAce * option error) * Buffer :=
  match readFull 4 buf with
  | (inr err, buf1) =>
      ((mkAdvancedAce 0 GUID_zero GUID_zero SID_zero,
        Some (Errorw "reading ACE inheritance flags" err)), buf1)
  | (inl bs, buf1) =>
      let flags := le bs in
      let offset := 12 in
      (* object type, if present *)
      let '((objectType, err1), buf2, offset) :=
        if negb (Z.land flags ACEInheritanceFlagsObjectTypePresent =? 0) then
          let '((g, e), b) := NewGUID buf1 in ((g, e), b, offset + 16)
        else ((GUID_zero, None), buf1, offset) in
      match err1 with
      | Some err =>
          ((mkAdvancedAce flags objectType GUID_zero SID_zero,
            Some (Errorw "reading object type GUID" err)), buf2)
      | None =>
          (* inherited object type, if present *)
          let '((inherited, err2), buf3, offset) :=
            if negb (Z.land flags ACEInheritanceFlagsInheritedObjectTypePresent =? 0) then
              let '((g, e), b) := NewGUID buf2 in ((g, e), b, offset + 16)
            else ((GUID_zero, None), buf2, offset) in
          match err2 with
          | Some err =>
              ((mkAdvancedAce flags objectType inherited SID_zero,
                Some (Errorw "reading inherited object type GUID" err)), buf3)
          | None =>
              let sidSize := totalSize - offset in
              if sidSize <=? 0 then
                ((mkAdvancedAce flags objectType inherited SID_zero,
                  Some (Errorf ("invalid advanced ACE size for SID: " +:+ fmt_d sidSize))),
                 buf3)
              else
                match NewSID buf3 sidSize with
                | ((_, Some err), buf4) =>
                    ((mkAdvancedAce flags objectType inherited SID_zero,
                      Some (Errorw "parsing SID in advanced ACE" err)), buf4)
                | ((sid, None), buf4) =>
                    ((mkAdvancedAce flags objectType inherited sid, None), buf4)
                end
          end
      end
  end.

Definition basicAceTypes : list Z :=
  [ AceTypeAccessAllowed; AceTypeAccessDenied; AceTypeSystemAudit; AceTypeSystemAlarm;
    AceTypeAccessAllowedCallback; AceTypeAccessDeniedCallback;
    AceTypeSystemAuditCallback; AceTypeSystemAlarmCallback ].

Definition objectAceTypes : list Z :=
  [ AceTypeAccessAllowedObject; AceTypeAccessDeniedObject; AceTypeSystemAuditObject;
    AceTypeSystemAlarmObject; AceTypeAccessAllowedCallbackObject;
    AceTypeAccessDeniedCallbackObject; AceTypeSystemAuditCallbackObject;
    AceTypeSystemAlarmCallbackObject ].

(** [func NewAce(buf *bytes.Buffer) (ACE, error)] *)
Definition NewAce (buf : Buffer) : (ACE * option error) * Buffer :=
  match NewACEHeader buf with
  | ((header, Some err), buf1) =>
      ((mkACE header (mkACEAccessMask 0) NilObjectAce,
        Some (Errorw "reading ACE header" err)), buf1)
  | ((header, None), buf1) =>
      match readFull 4 buf1 with
      | (inr err, buf2) =>
          ((mkACE header (mkACEAccessMask 0) NilObjectAce,
            Some (Errorw "reading ACE access mask" err)), buf2)
      | (inl bs, buf2) =>
          let mask := mkACEAccessMask (le bs) in
          if bool_decide (Type_ header ∈ basicAceTypes) then
            match NewBasicAce buf2 (ace_Size header) with
            | ((oa, Some err), buf3) =>
                ((mkACE header mask (IsBasicAce oa),
                  Some (Errorw "parsing basic ACE" err)), buf3)
            | ((oa, None), buf3) => ((mkACE header mask (IsBasicAce oa), None), buf3)
            end
          else if bool_decide (Type_ header ∈ objectAceTypes) then
            match NewAdvancedAce buf2 (ace_Size header) with
            | ((oa, Some err), buf3) =>
                ((mkACE header mask (IsAdvancedAce oa),
                  Some (Errorw "parsing advanced ACE" err)), buf3)
            | ((oa, None), buf3) => ((mkACE header mask (IsAdvancedAce oa), None), buf3)
            end
          else
            ((mkACE header mask NilObjectAce,
              Some (Errorf ("unknown ACE type: " +:+ fmt_d (Type_ header)))), buf2)
      end
  end.

(** The loop [for i := 0; i < int(acl.Header.AceCount); i++] of [NewACL]:
    [n] iterations are left, [i] is the index, [acl] the named result. *)
Fixpoint readAces (n i : nat) (acl : ACL) (buf : Buffer)
    : (ACL * option error) * Buffer :=
  match n with
  | O => ((acl, None), buf)
  | S n' =>
      match NewAce buf with
      | ((_, Some err), buf') =>
          ((acl, Some (Errorw ("reading ACE " +:+ fmt_index i) err)), buf')
      | ((ace, None), buf') =>
          readAces n' (S i) (mkACL (acl_Header acl) (Aces acl ++ [ace])) buf'
      end
  end.

(** [func NewACL(buf *bytes.Buffer) (acl ACL, err error)] *)
Definition NewACL (buf : Buffer) : (ACL * option error) * Buffer :=
  match NewACLHeader buf with
  | ((header, Some err), buf1) =>
      ((mkACL header [], Some (Errorw "reading ACL header" err)), buf1)
  | ((header, None), buf1) =>
      readAces (Z.to_nat (AceCount header)) 0 (mkACL header []) buf1
  end.

(** [func NewNtSecurityDescriptor(ntsdBytes []byte) (NtSecurityDescriptor, error)];
    the outer [option] is [None] for a panic ([GetPrincipal] on a nil
    interface).  The conversion [int(sidSize)] is taken at its unsigned
    value, which is what a 64-bit [int] holds; where [int] has 32 bits
    this is exact for a difference below 2^31 only (above it the
    converted length is negative and [buf.Next] panics). *)
Definition NewNtSecurityDescriptor (ntsdBytes : list byte)
    : option (NtSecurityDescriptor * option error) :=
  match NewNTSDHeader ntsdBytes with
  | ((header, Some err), _) =>
      Some (mkNTSD header ACL_zero ACL_zero SID_zero SID_zero,
            Some (Errorw "parsing security descriptor header" err))
  | ((header, None), buf1) =>
      match NewACL buf1 with
      | ((dacl, Some err), _) =>
          Some (mkNTSD header dacl ACL_zero SID_zero SID_zero,
                Some (Errorw "parsing DACL" err))
      | ((dacl, None), buf2) =>
          let sidSize := (OffsetGroup header - OffsetOwner header) mod 2 ^ 32 in
          if sidSize =? 0 then
            match Aces dacl with
            | ace0 :: _ =>
                principal ← GetPrincipal (ObjectAce ace0);
                Some (mkNTSD header dacl ACL_zero principal principal, None)
            | [] => Some (mkNTSD header dacl ACL_zero SID_zero SID_zero, None)
            end
          else
            match NewSID buf2 sidSize with
            | ((_, Some err), _) =>
                Some (mkNTSD header dacl ACL_zero SID_zero SID_zero,
                      Some (Errorw "parsing owner SID" err))
            | ((owner, None), buf3) =>
                match NewSID buf3 sidSize with
                | ((_, Some err), _) =>
                    Some (mkNTSD header dacl ACL_zero owner SID_zero,
                          Some (Errorw "parsing group SID" err))
                | ((group, None), _) =>
                    Some (mkNTSD header dacl ACL_zero owner group, None)
                end
            end
      end
  end.

(** [decodesAces buf aces buf']: [NewAce] succeeds on consecutive
    records starting at [buf], yields [aces] in order and leaves [buf']. *)
Inductive decodesAces : Buffer -> list ACE -> Buffer -> Prop :=
  | decodes_nil buf : decodesAces buf [] buf
  | decodes_cons buf ace buf' aces buf'' :
      NewAce buf = ((ace, None), buf') ->
      decodesAces buf' aces buf'' ->
      decodesAces buf (ace :: aces) buf''.

End Decoders.

(** src/pkg/guid.go [NewGUID]: four [binary.Read]s whose errors are
    dropped; a field whose read fails stays zero.  Given a nil error it
    instantiates the decoders' parameter. *)
Definition NewGUID_pkg (buf : Buffer) : (GUID * option error) * Buffer :=
  let rd (n : nat) (b : Buffer) (zero : list byte) :=
    match readFull n b with
    | (inl bs, b') => (bs, b')
    | (inr _, b') => (zero, b')
    end in
  let '(d1, b1) := rd 4%nat buf [] in
  let '(d2, b2) := rd 2%nat b1 [] in
  let '(d3, b3) := rd 2%nat b2 [] in
  let '(d4, b4) := rd 8%nat b3 (replicate 8 x00) in
  ((mkGUID (le d1) (le d2) (le d3) d4, None), b4).

(** ** integrity.go: integrity-level SIDs *)

(** [var IntegrityLevelMap = map[string]IntegrityLevel{...}] *)
Definition IntegrityLevelMap : gmap string Z :=
  list_to_map
    [ ("S-1-16-0", IntegrityLevelUntrusted);
      ("S-1-16-4096", IntegrityLevelLow);
      ("S-1-16-8192", IntegrityLevelMedium);
      ("S-1-16-8448", IntegrityLevelMediumPlus);
      ("S-1-16-12288", IntegrityLevelHigh);
      ("S-1-16-16384", IntegrityLevelSystem);
      ("S-1-16-20480", IntegrityLevelProtected);
      ("S-1-16-28672", IntegrityLevelSecureProcess) ].

(** [strings.HasPrefix(s, prefix)] *)
Definition HasPrefix (s prefix : string) : bool := String.prefix prefix s.

(** [func IntegrityLevelFromSID(sid SID) (IntegrityLevel, error)];
    [None] is the panic of [sid.String()]. *)
Definition IntegrityLevelFromSID (sid : SID) : option (Z * option error) :=
  match SID_String sid with
  | None => None
  | Some sidStr =>
      if negb (HasPrefix sidStr "S-1-16-")
      then Some (0, Some (Errorf ("not an integrity level SID: " +:+ sidStr)))
      else
        match IntegrityLevelMap !! sidStr with
        | Some level => Some (level, None)
        | None =>
            let rawLevel := match SubAuthorities sid with
                            | v :: _ => v
                            | [] => 0
                            end in
            Some (rawLevel, None)
        end
  end.

(** [func (il IntegrityLevel) ToSID() SID] *)
Definition ToSID (il : Z) : SID :=
  mkSID 1 1 [x00; x00; x00; x00; x00; x10] [il].

(** ** Little-endian encoding ([binary.Write]) *)

(** The conversion [byte(z)]. *)
Definition Z_to_byte (z : Z) : byte :=
  default x00 (Byte.of_N (Z.to_N (z mod 256))).

(** [binary.LittleEndian.PutUintN]: the [n] low bytes of [v], least
    significant first. *)
Fixpoint leBytes (n : nat) (v : Z) : list byte :=
  match n with
  | O => []
  | S n' => Z_to_byte v :: leBytes n' (v / 256)
  end.

(** [func (header *ACLHeader) ToBuffer() (bytes.Buffer, error)]: one
    [binary.Write] of the record into a fresh buffer, which cannot fail. *)
Definition ACLHeader_ToBuffer (header : ACLHeader) : Buffer * option error :=
  (leBytes 1 (acl_Revision header) ++ leBytes 1 (acl_Sbz1 header)
   ++ leBytes 2 (acl_Size header) ++ leBytes 2 (AceCount header)
   ++ leBytes 2 (acl_Sbz2 header), None).

(** ** Capability SIDs *)

(** [const CapabilitySIDPrefix = "S-1-15-3-"] *)
Definition CapabilitySIDPrefix : string := "S-1-15-3-".

(** [func IsCapabilitySID(sid SID) bool]; [None] is the panic of
    [sid.String()]. *)
Definition IsCapabilitySID (sid : SID) : option bool :=
  sidStr ← SID_String sid;
  Some (HasPrefix sidStr CapabilitySIDPrefix).

(** Go's [copy(dst, src)]: the first [min(len(dst), len(src))] elements
    of [dst] are overwritten. *)
Definition copy (dst src : list byte) : list byte :=
  take (length dst) src ++ drop (length src) dst.

(** [func ParseCapabilitySID(data []byte) (SID, error)]; the outer
    [option] is [None] for an index out of range. *)
Definition ParseCapabilitySID (data : list byte) : option (SID * option error) :=
  if (length data <? 8)%nat then
    Some (SID_zero, Some (Errorf "data too short for capability SID"))
  else
    let revision := le (slice 0 1 data) in
    if negb (revision =? 1) then
      Some (SID_zero,
            Some (Errorf ("invalid revision for capability SID: " +:+ fmt_d revision)))
    else
      let numAuth := le (slice 1 2 data) in
      if numAuth <? 2 then
        Some (SID_zero,
              Some (Errorf ("invalid authority count for capability SID: "
                            +:+ fmt_d numAuth)))
      else
        let authority := copy (replicate 6 x00) (slice 2 8 data) in
        let minLength := 8 + 4 * numAuth in
        if Z.of_nat (length data) <? minLength then
          Some (SID_zero,
                Some (Errorf ("data too short for capability SID with "
                              +:+ fmt_d numAuth +:+ " sub-authorities")))
        else
          let subAuth :=
            map (fun i => let offset := (8 + i * 4)%nat in
                          le (slice offset (offset + 4) data))
              (seq 0 (Z.to_nat numAuth)) in
          let sid := mkSID revision numAuth authority subAuth in
          a5 ← authority !! 5%nat;
          if negb (byte_to_Z a5 =? 15) then
            Some (SID_zero, Some (Errorf "not a capability SID"))
          else if 0 <? numAuth then
            s0 ← subAuth !! 0%nat;
            if negb (s0 =? 3) then
              Some (SID_zero, Some (Errorf "not a capability SID"))
            else Some (sid, None)
          else Some (sid, None).

(** ** Specification-side definitions *)

(** The canonical text of a SID as the specification words it:
    [S-<revision>-<authority>-<sub1>-<sub2>-...]. *)
Definition canonicalString (revision authority : Z) (subs : list Z) : string :=
  "S-" +:+ fmt_d revision +:+ "-" +:+ fmt_d authority
    +:+ foldr (fun v acc => "-" +:+ fmt_d v +:+ acc) "" subs.

(** A SID whose sub-authority slice holds at least the declared count
    (the data-model invariant asks for equality). *)
Definition SID_wf (s : SID) : Prop :=
  (Z.to_nat (NumAuthorities s) <= length (SubAuthorities s))%nat.

(** Bitwise OR of a list of masks. *)
Definition orAll (l : list Z) : Z := foldr Z.lor 0 l.

(** A generic right is replaced when it is present in the mask and the
    table has an entry for it. *)
Definition presentMapped (access : Z) (m : gmap Z Z) (g : Z) : bool :=
  negb (Z.land access g =? 0)
  && match m !! g with Some _ => true | None => false end.

Definition replacedGenerics (access : Z) (m : gmap Z Z) (gs : list Z) : list Z :=
  List.filter (presentMapped access m) gs.

(** The four generic rights as the specification names them:
    GENERIC_READ, GENERIC_WRITE, GENERIC_EXECUTE and GENERIC_ALL. *)
Definition fourGenericBits : list Z :=
  [ AccessMaskGenericRead; AccessMaskGenericWrite;
    AccessMaskGenericExecute; AccessMaskGenericAll ].

(** The mapper as the specification words it: the specific bits of every
    replaced generic right, among the four the specification names, are
    OR-ed in, the replaced generic bits are cleared from the mask,
    everything else of the mask is kept. *)
Definition MapGenericAccess_spec (access : Z) (m : gmap Z Z) : Z :=
  Z.lor (orAll (omap (fun g => m !! g) (replacedGenerics access m fourGenericBits)))
        (Z.ldiff access (orAll (replacedGenerics access m fourGenericBits))).

Fixpoint pairwiseDisjoint (gs : list Z) : Prop :=
  match gs with
  | [] => True
  | g :: rest => Forall (fun g' => Z.land g g' = 0) rest /\ pairwiseDisjoint rest
  end.

(** An enabled clause of the integrity policy meets the requested
    rights: no-write-up against GENERIC_WRITE|WRITE_DAC|WRITE_OWNER,
    no-read-up against GENERIC_READ|READ_CONTROL, no-execute-up against
    GENERIC_EXECUTE. *)
Definition policyClauseMatches (policy requestedAccess : Z) : Prop :=
  (Z.land policy PolicyNoWriteUp <> 0 /\
   Z.land requestedAccess
     (Z.lor (Z.lor AccessMaskGenericWrite AccessMaskWriteDACL) AccessMaskWriteOwner) <> 0)
  \/ (Z.land policy PolicyNoReadUp <> 0 /\
      Z.land requestedAccess (Z.lor AccessMaskGenericRead AccessMaskReadControl) <> 0)
  \/ (Z.land policy PolicyNoExecuteUp <> 0 /\
      Z.land requestedAccess AccessMaskGenericExecute <> 0).

(** Well-formedness of the values an access check renders as text. *)
Definition ACE_wf (ace : ACE) : Prop :=
  match GetPrincipal (ObjectAce ace) with
  | Some sid => SID_wf sid
  | None => True
  end.

Definition Token_wf (token : TokenUser) : Prop :=
  SID_wf (UserSID token) /\ Forall SID_wf (Groups token).

Definition Descriptor_wf (sd : NtSecurityDescriptor) : Prop :=
  SID_wf (Owner sd) /\ Forall ACE_wf (Aces (DACL sd)).

(** Every entry of the mapping table is a 32-bit value. *)
Definition mapping_uint32 (mapping : option (gmap Z Z)) : Prop :=
  match mapping with
  | None => True
  | Some m => forall g v, m !! g = Some v -> is_uint32 v
  end.

(** The request after generic mapping, under the effective options. *)
Definition mappedRequest (desiredAccess : Z) (options : option AccessCheckOptions) : Z :=
  MapGenericAccess desiredAccess (GenericMapping (optionsOrDefault options)).

(** Integrity checking is disabled, or enabled and not denying. *)
Definition integrityPasses (options : AccessCheckOptions) (mappedAccess : Z) : Prop :=
  CheckIntegrity options = false \/
  CheckAccess (SubjectIntegrity options) (ObjectIntegrity options)
    (IntegrityPolicy options) mappedAccess = true.

(** The token is the owner (same canonical string) and asks for nothing
    outside READ_CONTROL | WRITE_DAC. *)
Definition ownerShortcut (sd : NtSecurityDescriptor) (token : TokenUser)
    (mappedAccess : Z) : Prop :=
  SID_String (UserSID token) = SID_String (Owner sd) /\
  Z.land mappedAccess (not32 ownerRights) = 0.

(** Whether an ACE applies to the token (false when rendering panics). *)
Definition appliesTo (token : TokenUser) (options : AccessCheckOptions) (ace : ACE) : bool :=
  match aceAppliesToToken ace token options with
  | Some (applies, _) => applies
  | None => false
  end.

Definition aceMapped (options : AccessCheckOptions) (ace : ACE) : Z :=
  MapGenericAccess (Raw (AccessMask ace)) (GenericMapping options).

(** The denied set as the specification words it: over all applicable
    ACEs of header type access-denied, the union of (ACE rights mapped)
    intersected with the mapped request. *)
Definition deniedBits (aces : list ACE) (token : TokenUser)
    (options : AccessCheckOptions) (mappedAccess : Z) : Z :=
  orAll (map (fun ace => Z.land (aceMapped options ace) mappedAccess)
           (List.filter (fun ace => (Type_ (Header ace) =? AceTypeAccessDenied)
                                    && appliesTo token options ace) aces)).

(** The granted set as the specification words it: over all applicable
    ACEs of header type access-allowed, the union of
    request ∩ ACE-rights ∩ ¬denied. *)
Definition grantedBits (aces : list ACE) (token : TokenUser)
    (options : AccessCheckOptions) (mappedAccess deniedAccess : Z) : Z :=
  orAll (map (fun ace => Z.land (Z.land (aceMapped options ace) mappedAccess)
                           (not32 deniedAccess))
           (List.filter (fun ace => (Type_ (Header ace) =? AceTypeAccessAllowed)
                                    && appliesTo token options ace) aces)).

(** What the deny pass may leave behind when the denied set of the whole
    list is [D]: it returned a denial because [D] covers the (non-empty)
    request, or it fell through with [deniedAccess = D]; either way the
    grant flag and the access field of the result are untouched. *)
Definition denyOutcomeOk (mapped : Z) (result : AccessCheckResult) (D : Z)
    (out : passOutcome) : Prop :=
  match out with
  | Returned r =>
      D = mapped /\ mapped <> 0 /\
      Granted r = Granted result /\ Access r = Access result /\
      exists j, Reason r = "Access explicitly denied by ACE " +:+ fmt_index j
  | FellThrough r d =>
      d = D /\ Granted r = Granted result /\ Access r = Access result
  end.

(** The outcome of an access check that is decided by the two passes
    over the ACEs, in terms of the denied set [D] and the granted set [G]
    of the specification: the access field reports [G], the grant flag is
    [G = mapped], and on denial the reason tells an explicit denial
    ([D <> 0]) from no match at all ([D = 0]). *)
Definition decidedByAces (mapped D G : Z) (r : AccessCheckResult) : Prop :=
  Access r = G /\
  Granted r = (G =? mapped) /\
  (Granted r = true -> Reason r = "Access granted by ACL") /\
  (Granted r = false -> D = 0 ->
     Reason r = "Some requested access was not granted by any ACE") /\
  (Granted r = false -> D <> 0 ->
     Reason r = "Some requested access was explicitly denied" \/
     exists j, Reason r = "Access explicitly denied by ACE " +:+ fmt_index j).

(** The steps recorded in the trace of a result. *)
Definition steps (r : AccessCheckResult) : list string := map Step (Details r).

(** The trace entry of the integrity stage, when that stage is enabled. *)
Definition integritySteps (options : AccessCheckOptions) : list string :=
  if CheckIntegrity options then ["IntegrityLevel"] else [].

(** The two ACEs of the deny-precedence scenario. *)
Definition allowsAllTo (ace : ACE) (principal : SID) : Prop :=
  Type_ (Header ace) = AceTypeAccessAllowed /\
  Raw (AccessMask ace) = AccessMaskGenericAll /\
  GetPrincipal (ObjectAce ace) = Some principal.

Definition deniesWriteToEveryone (ace : ACE) : Prop :=
  Type_ (Header ace) = AceTypeAccessDenied /\
  Raw (AccessMask ace) = AccessMaskGenericWrite /\
  exists sid, GetPrincipal (ObjectAce ace) = Some sid /\
              SID_String sid = Some "S-1-1-0".

(** The caller passes nil or the value of [DefaultAccessCheckOptions()]. *)
Definition isDefaultOptions (options : option AccessCheckOptions) : Prop :=
  options = None \/ options = Some DefaultAccessCheckOptions.

(** The four ways an access check ends, with what each leaves in the
    result: denial by the integrity policy, the empty-DACL grant, the
    owner grant, or the decision of the two passes over the ACEs. *)
Definition resultShape (sd : NtSecurityDescriptor) (token : TokenUser)
    (options : AccessCheckOptions) (mapped : Z) (r : AccessCheckResult) : Prop :=
  (~ integrityPasses options mapped /\
   Granted r = false /\ Access r = 0 /\ mapped <> 0)
  \/ (integrityPasses options mapped /\ Aces (DACL sd) = [] /\
      Granted r = true /\ Access r = mapped)
  \/ (integrityPasses options mapped /\ Aces (DACL sd) <> [] /\
      ownerShortcut sd token mapped /\
      Granted r = true /\ Access r = Z.land mapped ownerRights)
  \/ (integrityPasses options mapped /\ Aces (DACL sd) <> [] /\
      ~ ownerShortcut sd token mapped /\
      decidedByAces mapped
        (deniedBits (Aces (DACL sd)) token options mapped)
        (grantedBits (Aces (DACL sd)) token options mapped
           (deniedBits (Aces (DACL sd)) token options mapped)) r).

(** The rights whose request the no-write-up clause blocks. *)
Definition writeRights : Z :=
  Z.lor (Z.lor AccessMaskGenericWrite AccessMaskWriteDACL) AccessMaskWriteOwner.

(** Bit [n] belongs to a generic right for which the table has an entry. *)
Definition mappedGenericBit (m : gmap Z Z) (n : Z) : bool :=
  existsb (fun g => Z.testbit g n
                    && match m !! g with Some _ => true | None => false end)
    genericRights.

(** Bit [n] of the entry of the generic right [g], if the table has one. *)
Definition entryBit (m : gmap Z Z) (n : Z) (g : Z) : bool :=
  match m !! g with
  | Some v => Z.testbit v n
  | None => false
  end.

(** The binary layout of a SID: revision, sub-authority count, the six
    authority bytes, then each sub-authority as four little-endian bytes. *)
Definition SID_bytes (s : SID) : list byte :=
  leBytes 1 (Revision s) ++ leBytes 1 (NumAuthorities s) ++ Authority s
  ++ flat_map (leBytes 4) (SubAuthorities s).

(** The data-model invariant of a SID in full. *)
Definition SID_valid (s : SID) : Prop :=
  Revision s = 1 /\ 0 <= NumAuthorities s <= 15 /\
  length (Authority s) = 6%nat /\
  length (SubAuthorities s) = Z.to_nat (NumAuthorities s) /\
  Forall is_uint32 (SubAuthorities s).

(** The field ranges of an ACL header (two bytes and three 16-bit words). *)
Definition ACLHeader_valid (h : ACLHeader) : Prop :=
  0 <= acl_Revision h < 256 /\ 0 <= acl_Sbz1 h < 256 /\
  0 <= acl_Size h < 65536 /\ 0 <= AceCount h < 65536 /\
  0 <= acl_Sbz2 h < 65536.

(** A decoded ACE whose body matches its type tag and carries a valid
    trustee SID. *)
Definition ACE_decoded (ace : ACE) : Prop :=
  (Type_ (Header ace) ∈ basicAceTypes /\
   exists b, ObjectAce ace = IsBasicAce b /\ SID_valid (basic_SecurityIdentifier b)) \/
  ((Type_ (Header ace) ∉ basicAceTypes) /\ Type_ (Header ace) ∈ objectAceTypes /\
   exists a, ObjectAce ace = IsAdvancedAce a /\ SID_valid (adv_SecurityIdentifier a)).

(** A 16-byte capability SID record (S-1-15-3-1024). *)
Definition capabilityRecord : list byte :=
  [x01; x02; x00; x00; x00; x00; x00; x0f; x03; x00; x00; x00; x00; x04; x00; x00].

(** ** Concrete inputs (the fixtures of the repository's tests) *)

(** A 12-byte SID record (S-1-5-18), a 20-byte access-allowed ACE record
    holding it, and an 8-byte ACL header declaring [n] ACEs. *)
Definition sidRecord : list byte :=
  [x01; x01; x00; x00; x00; x00; x00; x05; x12; x00; x00; x00].

Definition aceRecord : list byte :=
  [x00; x00; x14; x00; x00; x00; x00; x80] ++ sidRecord.

Definition aclHeaderRecord (n : byte) : list byte :=
  [x02; x00; x1c; x00; n; x00; x00; x00].

(** A 20-byte descriptor header whose owner and group offsets are equal. *)
Definition ntsdHeaderRecord : list byte :=
  [x01; x00; x04; x80; x00; x00; x00; x00; x00; x00; x00; x00;
   x00; x00; x00; x00; x14; x00; x00; x00].

Definition authorityOf (b : byte) : list byte := [x00; x00; x00; x00; x00; b].

(** S-1-1-0, S-1-5-18, S-1-5-32-544 and a domain user. *)
Definition everyoneSID : SID := mkSID 1 1 (authorityOf x01) [0].
Definition systemSID : SID := mkSID 1 1 (authorityOf x05) [18].
Definition adminSID : SID := mkSID 1 2 (authorityOf x05) [32; 544].
Definition userSID : SID :=
  mkSID 1 5 (authorityOf x05) [21; 1234567890; 1234567890; 1234567890; 1001].

(** A SID that cannot be rendered: it declares three sub-authorities and
    carries none. *)
Definition unrenderableSID : SID := mkSID 1 3 (authorityOf x05) [].

(** [func NewAccessAllowedACE(sid SID, value uint32) ACE] (test helper). *)
Definition NewAccessAllowedACE (sid : SID) (value : Z) : ACE :=
  mkACE (mkACEHeader AceTypeAccessAllowed 0
           ((8 + (8 + 4 * NumAuthorities sid) mod 2 ^ 16) mod 2 ^ 16))
    (mkACEAccessMask value) (IsBasicAce (mkBasicAce sid)).

(** [func NewAccessDeniedACE(sid SID, value uint32) ACE] (test helper). *)
Definition NewAccessDeniedACE (sid : SID) (value : Z) : ACE :=
  mkACE (mkACEHeader AceTypeAccessDenied 0
           ((8 + (8 + 4 * NumAuthorities sid) mod 2 ^ 16) mod 2 ^ 16))
    (mkACEAccessMask value) (IsBasicAce (mkBasicAce sid)).

(** An access-denied-object ACE without object GUIDs, as [NewAce] decodes
    one: header type access-denied-object, advanced body (12 bytes before
    the SID). *)
Definition deniedObjectACE (sid : SID) (value : Z) : ACE :=
  mkACE (mkACEHeader AceTypeAccessDeniedObject 0
           ((12 + (8 + 4 * NumAuthorities sid) mod 2 ^ 16) mod 2 ^ 16))
    (mkACEAccessMask value)
    (IsAdvancedAce (mkAdvancedAce 0 GUID_zero GUID_zero sid)).

(** [&NtSecurityDescriptor{Owner: owner, Group: adminSID, DACL: ACL{Aces: aces}}] *)
Definition descriptorOf (owner : SID) (aces : list ACE) : NtSecurityDescriptor :=
  mkNTSD NTSDHeader_zero (mkACL ACLHeader_zero aces) ACL_zero owner adminSID.

(** Options that enforce no-write-up for a low-integrity subject on a
    high-integrity object, with a nil mapping table. *)
Definition lowToHighNoWriteUp : AccessCheckOptions :=
  mkOptions true true PolicyNoWriteUp IntegrityLevelLow IntegrityLevelHigh None.

(** The options of the test "PartialAccess". *)
Definition partialAccessOptions : AccessCheckOptions :=
  mkOptions false false 0 0 0
    (Some (list_to_map
       [ (AccessMaskGenericRead, AccessMaskReadControl);
         (AccessMaskGenericWrite, AccessMaskWriteDACL);
         (AccessMaskGenericExecute, AccessMaskSynchronize);
         (AccessMaskGenericAll, 0xFFFFFFFF) ])).

(** ** Proof automation *)

(** Continue with the induction hypothesis of a pass on the state the
    loop body has built. *)
Ltac continue_pass IH :=
  match goal with
  | |- exists out, denyPass _ ?i' _ _ _ ?res ?d = _ /\ _ =>
      let out := fresh "out" in
      let Hout := fresh "Hout" in
      let Hok := fresh "Hok" in
      destruct (IH i' res d) as [out [Hout Hok]];
      exists out; split; [exact Hout|];
      destruct out; simpl in *; exact Hok
  | |- exists r, allowPass _ ?i' _ _ _ _ ?res ?g = _ /\ _ =>
      let r := fresh "r" in
      let Hr := fresh "Hr" in
      let Hok := fresh "Hok" in
      destruct (IH i' res g) as [r [Hr Hok]];
      exists r; split; [exact Hr|]; simpl in *; exact Hok
  end.

(** * Properties *)

(** ** SID rendering *)

Lemma append_cons (ch : ascii) (a b : string) :
  String ch a +:+ b = String ch (a +:+ b).
Proof. reflexivity. Qed.

Lemma append_nil_r (a : string) : a +:+ "" = a.
Proof. induction a as [|ch a IH]; [reflexivity|]. now rewrite append_cons, IH. Qed.

Lemma append_assoc (a b c : string) : (a +:+ b) +:+ c = a +:+ (b +:+ c).
Proof.
  induction a as [|ch a IH]; [reflexivity|].
  now rewrite !append_cons, IH.
Qed.

Lemma String_loop_in_range (subs : list Z) (n i : nat) (sb : string) :
  (i + n <= length subs)%nat ->
  String_loop subs n i sb =
    Some (sb +:+ foldr (fun v acc => "-" +:+ fmt_d v +:+ acc) "" (take n (drop i subs))).
Proof.
  revert i sb. induction n as [|n IH]; intros i sb Hle; simpl.
  - now rewrite append_nil_r.
  - destruct (subs !! i) as [v|] eqn:Hv.
    + rewrite IH by lia.
      rewrite (drop_S _ _ _ Hv). simpl.
      now rewrite !append_assoc.
    + apply lookup_ge_None in Hv. lia.
Qed.

Lemma String_loop_out_of_range (subs : list Z) (n i : nat) (sb : string) :
  (i <= length subs < i + n)%nat ->
  String_loop subs n i sb = None.
Proof.
  revert i sb. induction n as [|n IH]; intros i sb Hlt; simpl; [lia|].
  destruct (subs !! i) as [v|] eqn:Hv; [|reflexivity].
  apply lookup_lt_Some in Hv. apply IH. lia.
Qed.

Lemma SID_String_total (s : SID) : SID_wf s -> is_Some (SID_String s).
Proof.
  unfold SID_wf, SID_String. intros Hwf.
  destruct (length (Authority s) <? 6)%nat eqn:Hlen; [eauto|].
  apply Nat.ltb_ge in Hlen.
  destruct (Authority s !! 5%nat) as [a5|] eqn:Ha.
  - rewrite String_loop_in_range by (simpl; lia). eauto.
  - apply lookup_ge_None in Ha. lia.
Qed.

(** C8 (as amended). [String] yields the empty string exactly when the
    authority slice is shorter than 6 bytes; with 6 bytes or more (also
    more than 6) it renders S-<revision>-<Authority[5]>-<sub1>-...-<subN>
    from the first [NumAuthorities] sub-authorities, and panics when the
    slice of sub-authorities is shorter than [NumAuthorities]. *)
Theorem SID_String_characterised (s : SID) :
  SID_String s =
    if (length (Authority s) <? 6)%nat then Some ""
    else if (Z.to_nat (NumAuthorities s) <=? length (SubAuthorities s))%nat then
      Some (canonicalString (Revision s) (byte_to_Z (nth 5 (Authority s) x00))
              (take (Z.to_nat (NumAuthorities s)) (SubAuthorities s)))
    else None.
Proof.
  unfold SID_String.
  destruct (length (Authority s) <? 6)%nat eqn:Hlen; [reflexivity|].
  apply Nat.ltb_ge in Hlen.
  destruct (Authority s !! 5%nat) as [a5|] eqn:Ha.
  2:{ apply lookup_ge_None in Ha. lia. }
  rewrite (nth_lookup_Some _ _ x00 _ Ha).
  destruct (Z.to_nat (NumAuthorities s) <=? length (SubAuthorities s))%nat eqn:Hn.
  - apply Nat.leb_le in Hn.
    rewrite String_loop_in_range by (simpl; lia).
    rewrite drop_0. unfold canonicalString. now rewrite !append_assoc.
  - apply Nat.leb_gt in Hn.
    apply String_loop_out_of_range. lia.
Qed.

(** C8, the claim as stated fails: an authority slice of 7 bytes is not
    "exactly 6 bytes long", yet [String] renders the SID. *)
Lemma SID_String_long_authority_not_empty :
  let s := mkSID 1 1 [x00; x00; x00; x00; x00; x05; x00] [18] in
  length (Authority s) <> 6%nat /\
  SID_String s = Some "S-1-5-18" /\
  SID_String s <> Some "".
Proof. repeat split; [simpl; lia | discriminate]. Qed.

(** ** Integrity policy *)

(** C5. A subject at or above the object's level is always allowed;
    below it, the check fails exactly when an enabled policy clause
    (no-write-up, no-read-up, no-execute-up) meets the requested rights,
    and succeeds when none does. *)
Theorem CheckAccess_policy (il objectLevel policy requestedAccess : Z) :
  (objectLevel <= il -> CheckAccess il objectLevel policy requestedAccess = true) /\
  (il < objectLevel ->
   (CheckAccess il objectLevel policy requestedAccess = false <->
      policyClauseMatches policy requestedAccess) /\
   (~ policyClauseMatches policy requestedAccess ->
      CheckAccess il objectLevel policy requestedAccess = true)).
Proof.
  unfold CheckAccess, policyClauseMatches. split; intros Hlvl.
  - now rewrite (proj2 (Z.leb_le _ _) Hlvl).
  - rewrite (proj2 (Z.leb_gt _ _) Hlvl).
    repeat match goal with
           | |- context [?a =? 0] => destruct (Z.eqb_spec a 0)
           end; simpl;
      (split; [split; [intros; tauto || discriminate | intros; intuition congruence]
              | intros; tauto]).
Qed.

Lemma CheckAccess_policy_witness :
  CheckAccess IntegrityLevelHigh IntegrityLevelLow 7 AccessMaskGenericWrite = true /\
  CheckAccess IntegrityLevelLow IntegrityLevelHigh PolicyNoWriteUp AccessMaskGenericWrite = false.
Proof.
  split.
  - apply (proj1 (CheckAccess_policy IntegrityLevelHigh IntegrityLevelLow 7
                    AccessMaskGenericWrite)).
    vm_compute. discriminate.
  - apply (proj1 (proj2 (CheckAccess_policy IntegrityLevelLow IntegrityLevelHigh
                           PolicyNoWriteUp AccessMaskGenericWrite)
                    ltac:(vm_compute; reflexivity))).
    left. split; vm_compute; discriminate.
Defined.

(** ** 32-bit masks *)

Lemma uint32_high_bits (a : Z) (n : Z) :
  is_uint32 a -> 32 <= n -> Z.testbit a n = false.
Proof.
  intros [Hlo Hhi] Hn.
  rewrite <- (Z.mod_small a (2 ^ 32)) by lia.
  apply Z.mod_pow2_bits_high. lia.
Qed.

Lemma uint32_of_bits (a : Z) :
  0 <= a -> (forall n, 32 <= n -> Z.testbit a n = false) -> is_uint32 a.
Proof.
  intros Hlo Hbits. split; [assumption|].
  assert (Heq : a mod 2 ^ 32 = a).
  { apply Z.bits_inj'. intros n Hn.
    destruct (Z.lt_ge_cases n 32) as [Hlt|Hge].
    - now apply Z.mod_pow2_bits_low.
    - rewrite Z.mod_pow2_bits_high by lia. symmetry. now apply Hbits. }
  rewrite <- Heq. apply Z.mod_pos_bound. lia.
Qed.

Lemma not32_spec (g n : Z) :
  0 <= n < 32 -> Z.testbit (not32 g) n = negb (Z.testbit g n).
Proof.
  intros Hn. unfold not32. rewrite Z.lxor_spec.
  change 0xFFFFFFFF with (Z.ones 32).
  rewrite Z.ones_spec_low by lia. now destruct (Z.testbit g n).
Qed.

Lemma land_not32 (a g : Z) :
  is_uint32 a -> Z.land a (not32 g) = Z.ldiff a g.
Proof.
  intros Ha. apply Z.bits_inj'. intros n Hn.
  rewrite Z.land_spec, Z.ldiff_spec.
  destruct (Z.lt_ge_cases n 32) as [Hlt|Hge].
  - now rewrite not32_spec by lia.
  - now rewrite (uint32_high_bits a n Ha Hge).
Qed.

Lemma ldiff_uint32 (a g : Z) : is_uint32 a -> is_uint32 (Z.ldiff a g).
Proof.
  intros Ha. apply uint32_of_bits.
  - apply Z.ldiff_nonneg. left. apply Ha.
  - intros n Hn. rewrite Z.ldiff_spec, (uint32_high_bits a n Ha Hn). reflexivity.
Qed.

Lemma lor_uint32 (a b : Z) : is_uint32 a -> is_uint32 b -> is_uint32 (Z.lor a b).
Proof.
  intros Ha Hb. apply uint32_of_bits.
  - apply Z.lor_nonneg. split; [apply Ha | apply Hb].
  - intros n Hn.
    rewrite Z.lor_spec, (uint32_high_bits a n Ha Hn), (uint32_high_bits b n Hb Hn).
    reflexivity.
Qed.

Lemma bits_of_land_0 (x y n : Z) :
  Z.land x y = 0 -> Z.testbit x n && Z.testbit y n = false.
Proof.
  intros H. rewrite <- Z.land_spec, H. apply Z.bits_0.
Qed.

Lemma land_ldiff_disjoint (a g g' : Z) :
  Z.land g g' = 0 -> Z.land (Z.ldiff a g) g' = Z.land a g'.
Proof.
  intros H. apply Z.bits_inj'. intros n _.
  rewrite !Z.land_spec, Z.ldiff_spec.
  pose proof (bits_of_land_0 g g' n H).
  destruct (Z.testbit a n), (Z.testbit g n), (Z.testbit g' n); simpl in *; congruence.
Qed.

Lemma ldiff_lor (a b c : Z) : Z.ldiff (Z.ldiff a b) c = Z.ldiff a (Z.lor b c).
Proof.
  apply Z.bits_inj'. intros n _. rewrite !Z.ldiff_spec, Z.lor_spec.
  destruct (Z.testbit a n), (Z.testbit b n), (Z.testbit c n); reflexivity.
Qed.

Lemma land_orAll_0 (g : Z) (l : list Z) :
  Forall (fun x => Z.land g x = 0) l -> Z.land g (orAll l) = 0.
Proof.
  induction 1 as [|x l Hx _ IH]; simpl.
  - apply Z.land_0_r.
  - rewrite Z.land_lor_distr_r, Hx, IH. reflexivity.
Qed.

Lemma lor_dead_branch (x a : Z) :
  (if (Z.lor x a =? 0) && negb (a =? 0) then a else Z.lor x a) = Z.lor x a.
Proof.
  destruct (Z.eqb_spec (Z.lor x a) 0) as [H0|]; [|reflexivity].
  apply Z.lor_eq_0_iff in H0 as [_ ->]. reflexivity.
Qed.

(** ** Generic-rights mapping *)

Lemma genericRights_disjoint : pairwiseDisjoint genericRights.
Proof. simpl. repeat constructor. Qed.

Lemma replacedGenerics_ldiff (a g : Z) (m : gmap Z Z) (gs : list Z) :
  Forall (fun g' => Z.land g g' = 0) gs ->
  replacedGenerics (Z.ldiff a g) m gs = replacedGenerics a m gs.
Proof.
  intros Hdis. unfold replacedGenerics. apply filter_ext_in. intros g' Hin.
  rewrite Forall_forall in Hdis. unfold presentMapped.
  rewrite land_ldiff_disjoint; [reflexivity|].
  apply Hdis. now apply list_elem_of_In.
Qed.

(** The loop of [MapGenericAccess] over any list of pairwise disjoint
    rights: the entries of the replaced rights are accumulated and those
    rights are cleared from the mask. *)
Lemma foldl_mapStep (m : gmap Z Z) (gs : list Z) :
  pairwiseDisjoint gs ->
  forall result access, is_uint32 access ->
  foldl (mapStep m) (result, access) gs =
    (Z.lor result (orAll (omap (fun g => m !! g) (replacedGenerics access m gs))),
     Z.ldiff access (orAll (replacedGenerics access m gs))).
Proof.
  induction gs as [|g gs IH]; intros Hdis result access Ha.
  - simpl. now rewrite Z.lor_0_r, Z.ldiff_0_r.
  - destruct Hdis as [Hg Hrest]. simpl.
    unfold presentMapped at 1 2.
    destruct (negb (Z.land access g =? 0)) eqn:Hpresent; simpl.
    + destruct (m !! g) as [v|] eqn:Hm; simpl.
      * rewrite land_not32 by assumption.
        rewrite IH by (try assumption; now apply ldiff_uint32).
        rewrite (replacedGenerics_ldiff _ _ _ _ Hg).
        rewrite Hm. simpl.
        now rewrite Z.lor_assoc, ldiff_lor.
      * now apply IH.
    + now apply IH.
Qed.

Lemma MapGenericAccess_refines (access : Z) (m : gmap Z Z) :
  is_uint32 access ->
  MapGenericAccess access (Some m) = MapGenericAccess_spec access m.
Proof.
  intros Ha. unfold MapGenericAccess, MapGenericAccess_spec.
  rewrite (foldl_mapStep m genericRights genericRights_disjoint 0 access Ha).
  rewrite Z.lor_0_l. apply lor_dead_branch.
Qed.

Lemma genericRights_distinct_disjoint (x y : Z) :
  x ∈ genericRights -> y ∈ genericRights -> x <> y -> Z.land x y = 0.
Proof.
  unfold genericRights. rewrite !elem_of_cons, !elem_of_nil.
  intros Hx Hy Hne.
  destruct Hx as [->|[->|[->|[->|[]]]]], Hy as [->|[->|[->|[->|[]]]]];
    solve [reflexivity | congruence].
Qed.

Lemma land_pow2 (a k : Z) :
  0 <= k -> Z.land a (2 ^ k) = if Z.testbit a k then 2 ^ k else 0.
Proof.
  intros Hk. apply Z.bits_inj'. intros n Hn.
  rewrite Z.land_spec, Z.pow2_bits_eqb by assumption.
  destruct (Z.eqb_spec k n) as [->|Hne].
  - destruct (Z.testbit a n); [|now rewrite Z.bits_0].
    rewrite Z.pow2_bits_eqb by assumption. now rewrite Z.eqb_refl.
  - rewrite andb_false_r.
    destruct (Z.testbit a k); [|now rewrite Z.bits_0].
    rewrite Z.pow2_bits_eqb by assumption. symmetry. now apply Z.eqb_neq.
Qed.

Lemma genericRight_single_bit (a g : Z) :
  g ∈ genericRights -> Z.land a g <> 0 -> Z.land a g = g.
Proof.
  unfold genericRights. rewrite !elem_of_cons, !elem_of_nil.
  intros [->|[->|[->|[->|[]]]]].
  - change AccessMaskGenericRead with (2 ^ 31).
    rewrite land_pow2 by lia. now destruct (Z.testbit a 31).
  - change AccessMaskGenericWrite with (2 ^ 30).
    rewrite land_pow2 by lia. now destruct (Z.testbit a 30).
  - change AccessMaskGenericExecute with (2 ^ 29).
    rewrite land_pow2 by lia. now destruct (Z.testbit a 29).
  - change AccessMaskGenericAll with (2 ^ 28).
    rewrite land_pow2 by lia. now destruct (Z.testbit a 28).
Qed.

Lemma orAll_filter_bit (f : Z -> bool) (l : list Z) (n : Z) :
  Z.testbit (orAll (List.filter f l)) n = true -> Z.testbit (orAll l) n = true.
Proof.
  induction l as [|x l IH]; simpl; [trivial|].
  destruct (f x); simpl; rewrite ?Z.lor_spec; intros H.
  - apply orb_true_iff in H as [H|H]; apply orb_true_iff; [now left | right; now apply IH].
  - apply orb_true_iff. right. now apply IH.
Qed.

Lemma replaced_disjoint_from_unmapped (access g : Z) (m : gmap Z Z) :
  g ∈ genericRights -> m !! g = None ->
  Z.land g (orAll (replacedGenerics access m genericRights)) = 0.
Proof.
  intros Hg Hm. apply land_orAll_0. apply Forall_forall. intros x Hx.
  apply list_elem_of_In, filter_In in Hx as [Hin Hpm].
  apply genericRights_distinct_disjoint; [assumption | now apply list_elem_of_In |].
  intros ->. unfold presentMapped in Hpm. rewrite Hm, andb_false_r in Hpm. discriminate.
Qed.

Lemma orAll_member (x : Z) (l : list Z) : x ∈ l -> Z.land x (orAll l) = x.
Proof.
  induction l as [|y l IH]; intros Hx; [now apply elem_of_nil in Hx|].
  apply elem_of_cons in Hx. simpl. apply Z.bits_inj'. intros n _.
  rewrite Z.land_spec, Z.lor_spec.
  destruct Hx as [->|Hx].
  - now destruct (Z.testbit y n), (Z.testbit (orAll l) n).
  - specialize (IH Hx). apply (f_equal (fun z => Z.testbit z n)) in IH.
    rewrite Z.land_spec in IH.
    destruct (Z.testbit x n), (Z.testbit y n), (Z.testbit (orAll l) n);
      simpl in *; congruence.
Qed.

Lemma replaced_member (access g v : Z) (m : gmap Z Z) (gs : list Z) :
  g ∈ gs -> Z.land access g <> 0 -> m !! g = Some v ->
  (g ∈ replacedGenerics access m gs) /\
  (v ∈ omap (fun g' => m !! g') (replacedGenerics access m gs)).
Proof.
  intros Hg Hpresent Hm.
  assert (Hin : g ∈ replacedGenerics access m gs).
  { unfold replacedGenerics. apply list_elem_of_In, filter_In.
    split; [now apply list_elem_of_In|].
    unfold presentMapped. rewrite Hm, andb_true_r.
    now destruct (Z.eqb_spec (Z.land access g) 0). }
  split; [exact Hin|]. apply list_elem_of_omap. now exists g.
Qed.

(** C6. For a 32-bit mask and a (non-nil) table [m], the mapper returns
    the mask with every present generic bit that has an entry cleared
    and that entry's specific bits OR-ed in, the generic bits being
    GENERIC_READ, GENERIC_WRITE, GENERIC_EXECUTE and GENERIC_ALL: the
    entry of such a right is contained in the result, and the right's own
    bit is in the result only as far as the OR-ed entries carry it; a
    present generic bit without an entry stays set; the non-generic bits
    of the mask are kept; with a nil table the mapper is the identity. *)
Theorem MapGenericAccess_correct (access : Z) (m : gmap Z Z) :
  is_uint32 access ->
  MapGenericAccess access (Some m) = MapGenericAccess_spec access m /\
  (forall g v, g ∈ fourGenericBits -> Z.land access g <> 0 -> m !! g = Some v ->
     Z.land (MapGenericAccess access (Some m)) v = v /\
     Z.land (MapGenericAccess access (Some m)) g
     = Z.land (orAll (omap (fun g' => m !! g')
                        (replacedGenerics access m fourGenericBits))) g) /\
  (forall g, g ∈ fourGenericBits -> Z.land access g <> 0 -> m !! g = None ->
             Z.land (MapGenericAccess access (Some m)) g = g) /\
  Z.land (MapGenericAccess access (Some m)) (Z.ldiff access (orAll fourGenericBits))
    = Z.ldiff access (orAll fourGenericBits) /\
  MapGenericAccess access None = access.
Proof.
  intros Ha. rewrite (MapGenericAccess_refines access m Ha).
  unfold MapGenericAccess_spec.
  split; [reflexivity|]. split; [|split; [|split; [|reflexivity]]].
  - intros g v Hg Hpresent Hm.
    destruct (replaced_member access g v m fourGenericBits Hg Hpresent Hm)
      as [Hin Hvin].
    pose proof (orAll_member _ _ Hin) as HgR.
    pose proof (orAll_member _ _ Hvin) as HvE.
    split; apply Z.bits_inj'; intros n _.
    + apply (f_equal (fun z => Z.testbit z n)) in HvE.
      rewrite Z.land_spec in HvE.
      rewrite Z.land_spec, Z.lor_spec, Z.ldiff_spec.
      destruct (Z.testbit v n),
        (Z.testbit (orAll (omap (fun g' => m !! g')
                             (replacedGenerics access m fourGenericBits))) n);
        simpl in *; rewrite ?andb_false_r, ?andb_true_r; congruence.
    + apply (f_equal (fun z => Z.testbit z n)) in HgR.
      rewrite Z.land_spec in HgR.
      rewrite !Z.land_spec, Z.lor_spec, Z.ldiff_spec.
      destruct (Z.testbit g n), (Z.testbit access n),
        (Z.testbit (orAll (replacedGenerics access m fourGenericBits)) n),
        (Z.testbit (orAll (omap (fun g' => m !! g')
                             (replacedGenerics access m fourGenericBits))) n);
        simpl in *; congruence.
  - intros g Hg Hpresent Hm.
    pose proof (genericRight_single_bit access g Hg Hpresent) as Hbit.
    pose proof (replaced_disjoint_from_unmapped access g m Hg Hm) as Hdis.
    change genericRights with fourGenericBits in Hdis.
    apply Z.bits_inj'. intros n _.
    rewrite Z.land_spec, Z.lor_spec, Z.ldiff_spec.
    pose proof (bits_of_land_0 _ _ n Hdis) as Hd.
    apply (f_equal (fun z => Z.testbit z n)) in Hbit. rewrite Z.land_spec in Hbit.
    destruct (Z.testbit access n), (Z.testbit g n),
      (Z.testbit (orAll (replacedGenerics access m fourGenericBits)) n);
      simpl in *; try congruence; now rewrite ?orb_true_r, ?orb_false_r, ?andb_false_r.
  - apply Z.bits_inj'. intros n _.
    rewrite Z.land_spec, Z.lor_spec, !Z.ldiff_spec.
    pose proof (orAll_filter_bit (presentMapped access m) fourGenericBits n) as Hsub.
    fold (replacedGenerics access m fourGenericBits) in Hsub.
    destruct (Z.testbit access n), (Z.testbit (orAll fourGenericBits) n),
      (Z.testbit (orAll (replacedGenerics access m fourGenericBits)) n);
      simpl in *; rewrite ?andb_false_r, ?orb_true_r; try reflexivity.
    discriminate Hsub; reflexivity.
Qed.

Lemma MapGenericAccess_correct_witness :
  let access := Z.lor (Z.lor AccessMaskGenericRead AccessMaskGenericWrite)
                  AccessMaskDelete in
  let m : gmap Z Z := {[ AccessMaskGenericRead := AccessMaskReadControl ]} in
  MapGenericAccess access (Some m)
  = Z.lor (Z.lor AccessMaskReadControl AccessMaskGenericWrite) AccessMaskDelete /\
  Z.land (MapGenericAccess access (Some m)) AccessMaskGenericRead = 0 /\
  Z.land (MapGenericAccess access (Some m)) AccessMaskGenericWrite
  = AccessMaskGenericWrite.
Proof.
  intros access m.
  assert (Ha : is_uint32 access) by (unfold is_uint32; vm_compute; split; congruence).
  destruct (MapGenericAccess_correct access m Ha) as (Heq & Hmapped & Hkept & _).
  split; [rewrite Heq; vm_compute; reflexivity|]. split.
  - destruct (Hmapped AccessMaskGenericRead AccessMaskReadControl) as [_ Hbit].
    + apply elem_of_cons. now left.
    + vm_compute. discriminate.
    + vm_compute. reflexivity.
    + rewrite Hbit. vm_compute. reflexivity.
  - apply Hkept.
    + apply elem_of_cons. right. apply elem_of_cons. now left.
    + vm_compute. discriminate.
    + vm_compute. reflexivity.
Defined.

(** ** The access-check engine: applicability of an ACE *)

#[local] Arguments MapGenericAccess : simpl never.
#[local] Arguments fmt_index : simpl never.
#[local] Arguments fmt_08X : simpl never.
#[local] Arguments fmt_d : simpl never.
#[local] Arguments SID_String : simpl never.
#[local] Arguments deniedBits : simpl never.
#[local] Arguments grantedBits : simpl never.

Lemma matchesGroup_total (aceSIDStr : string) (groups : list SID) :
  Forall SID_wf groups -> is_Some (matchesGroup aceSIDStr groups).
Proof.
  induction 1 as [|group rest Hwf _ IH]; simpl; [eauto|].
  destruct (SID_String_total group Hwf) as [s ->]. simpl.
  destruct (String.eqb aceSIDStr s); eauto.
Qed.

Lemma sidAppliesToToken_total (sid : SID) (token : TokenUser) :
  SID_wf sid -> Token_wf token -> is_Some (sidAppliesToToken sid token).
Proof.
  intros Hsid [Huser Hgroups]. unfold sidAppliesToToken.
  destruct (SID_String_total sid Hsid) as [s ->]. simpl.
  destruct (String.eqb s "S-1-1-0"); [eauto|].
  destruct (SID_String_total _ Huser) as [u ->]. simpl.
  destruct (String.eqb s u); [eauto|].
  destruct (matchesGroup_total s _ Hgroups) as [b ->]. simpl.
  destruct b; eauto.
Qed.

Lemma aceAppliesToToken_total (ace : ACE) (token : TokenUser)
    (options : AccessCheckOptions) :
  ACE_wf ace -> Token_wf token -> is_Some (aceAppliesToToken ace token options).
Proof.
  unfold ACE_wf, aceAppliesToToken. intros Hace Htok.
  destruct (ObjectAce ace); simpl in *; eauto using sidAppliesToToken_total.
Qed.

Lemma sidAppliesToToken_everyone (sid : SID) (token : TokenUser) :
  SID_String sid = Some "S-1-1-0" ->
  sidAppliesToToken sid token = Some (true, "Everyone SID matches all tokens").
Proof. intros H. unfold sidAppliesToToken. now rewrite H. Qed.

Lemma sidAppliesToToken_user (sid : SID) (token : TokenUser) (s : string) :
  SID_String sid = Some s -> SID_String (UserSID token) = Some s ->
  exists reason, sidAppliesToToken sid token = Some (true, reason).
Proof.
  intros Hsid Huser. unfold sidAppliesToToken. rewrite Hsid. simpl.
  destruct (String.eqb s "S-1-1-0"); [eauto|].
  rewrite Huser. simpl. rewrite String.eqb_refl. eauto.
Qed.

Lemma aceAppliesToToken_principal (ace : ACE) (token : TokenUser)
    (options : AccessCheckOptions) (sid : SID) :
  GetPrincipal (ObjectAce ace) = Some sid ->
  aceAppliesToToken ace token options = sidAppliesToToken sid token.
Proof.
  unfold aceAppliesToToken. destruct (ObjectAce ace); simpl; congruence.
Qed.

(** ** The access-check engine: the two passes *)

Lemma deniedBits_cons (ace : ACE) (rest : list ACE) (token : TokenUser)
    (options : AccessCheckOptions) (mapped : Z) :
  deniedBits (ace :: rest) token options mapped =
    if (Type_ (Header ace) =? AceTypeAccessDenied) && appliesTo token options ace
    then Z.lor (Z.land (aceMapped options ace) mapped) (deniedBits rest token options mapped)
    else deniedBits rest token options mapped.
Proof.
  unfold deniedBits. simpl.
  now destruct ((Type_ (Header ace) =? AceTypeAccessDenied) && appliesTo token options ace).
Qed.

Lemma grantedBits_cons (ace : ACE) (rest : list ACE) (token : TokenUser)
    (options : AccessCheckOptions) (mapped denied : Z) :
  grantedBits (ace :: rest) token options mapped denied =
    if (Type_ (Header ace) =? AceTypeAccessAllowed) && appliesTo token options ace
    then Z.lor (Z.land (Z.land (aceMapped options ace) mapped) (not32 denied))
               (grantedBits rest token options mapped denied)
    else grantedBits rest token options mapped denied.
Proof.
  unfold grantedBits. simpl.
  now destruct ((Type_ (Header ace) =? AceTypeAccessAllowed) && appliesTo token options ace).
Qed.

Lemma lor_absorb_land (m x : Z) : Z.lor m (Z.land x m) = m.
Proof.
  apply Z.bits_inj'. intros n _. rewrite Z.lor_spec, Z.land_spec.
  destruct (Z.testbit m n), (Z.testbit x n); reflexivity.
Qed.

Lemma deniedBits_absorbed (aces : list ACE) (token : TokenUser)
    (options : AccessCheckOptions) (mapped : Z) :
  Z.lor mapped (deniedBits aces token options mapped) = mapped.
Proof.
  induction aces as [|ace rest IH].
  - apply Z.lor_0_r.
  - rewrite deniedBits_cons.
    destruct ((Type_ (Header ace) =? AceTypeAccessDenied) && appliesTo token options ace);
      [|exact IH].
    now rewrite Z.lor_assoc, lor_absorb_land.
Qed.

Lemma granted_term_absorbed (mapped denied g x : Z) :
  is_uint32 mapped -> Z.lor g denied = mapped ->
  Z.lor g (Z.land (Z.land x mapped) (not32 denied)) = g.
Proof.
  intros Hm Hcover. apply Z.bits_inj'. intros n Hn.
  rewrite Z.lor_spec, !Z.land_spec.
  apply (f_equal (fun z => Z.testbit z n)) in Hcover. rewrite Z.lor_spec in Hcover.
  destruct (Z.lt_ge_cases n 32) as [Hlt|Hge].
  - rewrite not32_spec by lia.
    destruct (Z.testbit g n), (Z.testbit denied n), (Z.testbit mapped n),
      (Z.testbit x n); simpl in *; congruence.
  - rewrite (uint32_high_bits mapped n Hm Hge).
    now rewrite andb_false_r, orb_false_r.
Qed.

Lemma grantedBits_absorbed (aces : list ACE) (token : TokenUser)
    (options : AccessCheckOptions) (mapped denied g : Z) :
  is_uint32 mapped -> Z.lor g denied = mapped ->
  Z.lor g (grantedBits aces token options mapped denied) = g.
Proof.
  intros Hm Hcover. induction aces as [|ace rest IH].
  - apply Z.lor_0_r.
  - rewrite grantedBits_cons.
    destruct ((Type_ (Header ace) =? AceTypeAccessAllowed) && appliesTo token options ace);
      [|exact IH].
    now rewrite Z.lor_assoc, granted_term_absorbed.
Qed.

Lemma grantedBits_all_denied (aces : list ACE) (token : TokenUser)
    (options : AccessCheckOptions) (mapped : Z) :
  is_uint32 mapped -> grantedBits aces token options mapped mapped = 0.
Proof.
  intros Hm.
  rewrite <- (Z.lor_0_l (grantedBits _ _ _ _ _)).
  apply grantedBits_absorbed; [assumption | apply Z.lor_0_l].
Qed.

Lemma denyPass_spec (token : TokenUser) (options : AccessCheckOptions)
    (mapped : Z) (aces : list ACE) :
  Forall (fun ace => is_Some (aceAppliesToToken ace token options)) aces ->
  forall i result d0,
  exists out,
    denyPass aces i token options mapped result d0 = Some out /\
    denyOutcomeOk mapped result
      (Z.lor d0 (deniedBits aces token options mapped)) out.
Proof.
  induction 1 as [|ace rest [[applies reason] Happ] _ IH]; intros i result d0.
  - eexists. split; [reflexivity|]. simpl.
    unfold deniedBits. simpl. now rewrite Z.lor_0_r.
  - rewrite deniedBits_cons. unfold appliesTo. rewrite Happ. simpl. rewrite Happ.
    destruct (Type_ (Header ace) =? AceTypeAccessDenied); simpl; [|continue_pass IH].
    destruct applies; [|continue_pass IH].
    fold (aceMapped options ace).
    destruct (Z.eqb_spec (Z.land (aceMapped options ace) mapped) 0) as [H0|Hne]; simpl.
    + rewrite H0, Z.lor_0_l. continue_pass IH.
    + rewrite Z.lor_assoc.
      destruct (Z.eqb_spec (Z.lor d0 (Z.land (aceMapped options ace) mapped)) mapped)
        as [Hall|Hnot]; [|continue_pass IH].
      eexists. split; [reflexivity|]. simpl. rewrite Hall.
      split; [apply deniedBits_absorbed|].
      split; [intros ->; now rewrite Z.land_0_r in Hne|].
      repeat split. now exists i.
Qed.

Lemma allowPass_spec (token : TokenUser) (options : AccessCheckOptions)
    (mapped denied : Z) (aces : list ACE) :
  is_uint32 mapped ->
  Forall (fun ace => is_Some (aceAppliesToToken ace token options)) aces ->
  forall i result g0,
  exists r,
    allowPass aces i token options mapped denied result g0 =
      Some (r, Z.lor g0 (grantedBits aces token options mapped denied)) /\
    Granted r = Granted result /\ Reason r = Reason result /\ Access r = Access result.
Proof.
  intros Hm.
  induction 1 as [|ace rest [[applies reason] Happ] _ IH]; intros i result g0.
  - eexists. split; [|repeat split]. simpl.
    unfold grantedBits. simpl. now rewrite Z.lor_0_r.
  - rewrite grantedBits_cons. unfold appliesTo. rewrite Happ. simpl. rewrite Happ.
    destruct (Type_ (Header ace) =? AceTypeAccessAllowed); simpl; [|continue_pass IH].
    destruct applies; [|continue_pass IH].
    fold (aceMapped options ace).
    set (t := Z.land (Z.land (aceMapped options ace) mapped) (not32 denied)).
    destruct (Z.eqb_spec t 0) as [H0|Hne]; simpl.
    + rewrite H0, Z.lor_0_l. continue_pass IH.
    + rewrite Z.lor_assoc.
      destruct (Z.eqb_spec (Z.lor (Z.lor g0 t) denied) mapped) as [Hall|Hnot];
        [|continue_pass IH].
      rewrite (grantedBits_absorbed rest token options mapped denied _ Hm Hall).
      eexists. split; [reflexivity|]. now repeat split.
Qed.

(** ** The access-check engine: the stages of [AccessCheck] *)

Lemma remaining_zero (mapped denied : Z) :
  is_uint32 mapped -> Z.land mapped (not32 (Z.lor mapped denied)) = 0.
Proof.
  intros Hm. apply Z.bits_inj'. intros n Hn.
  rewrite Z.land_spec, Z.bits_0.
  destruct (Z.lt_ge_cases n 32) as [Hlt|Hge].
  - rewrite not32_spec, Z.lor_spec by lia.
    now destruct (Z.testbit mapped n), (Z.testbit denied n).
  - now rewrite (uint32_high_bits mapped n Hm Hge).
Qed.

Lemma finalDecision_spec (mapped g d : Z) (result : AccessCheckResult) :
  is_uint32 mapped ->
  Access (finalDecision mapped g d result) = g /\
  Granted (finalDecision mapped g d result) = (g =? mapped) /\
  Reason (finalDecision mapped g d result) =
    (if g =? mapped then "Access granted by ACL"
     else if d =? 0 then "Some requested access was not granted by any ACE"
     else "Some requested access was explicitly denied").
Proof.
  intros Hm. unfold finalDecision.
  destruct (Z.eqb_spec g mapped) as [->|Hne].
  - rewrite remaining_zero by assumption. simpl. auto.
  - rewrite andb_false_r. destruct (d =? 0); simpl; auto.
Qed.

Lemma mapping_entries_uint32 (m : gmap Z Z) (gs : list Z) :
  (forall g v, m !! g = Some v -> is_uint32 v) ->
  is_uint32 (orAll (omap (fun g => m !! g) gs)).
Proof.
  intros Hm. induction gs as [|g gs IH]; simpl.
  - unfold is_uint32. lia.
  - destruct (m !! g) as [v|] eqn:Hv; simpl; [|exact IH].
    apply lor_uint32; [now apply (Hm g)|exact IH].
Qed.

Lemma MapGenericAccess_uint32 (access : Z) (mapping : option (gmap Z Z)) :
  is_uint32 access -> mapping_uint32 mapping ->
  is_uint32 (MapGenericAccess access mapping).
Proof.
  intros Ha Hm. destruct mapping as [m|]; [|exact Ha].
  rewrite MapGenericAccess_refines by assumption.
  apply lor_uint32; [now apply mapping_entries_uint32 | now apply ldiff_uint32].
Qed.

Lemma outside_owner_rights (mapped : Z) :
  is_uint32 mapped -> Z.land mapped (not32 ownerRights) = 0 ->
  Z.land mapped ownerRights = mapped.
Proof.
  intros Hm H0. apply Z.bits_inj'. intros n Hn. rewrite Z.land_spec.
  destruct (Z.lt_ge_cases n 32) as [Hlt|Hge].
  - pose proof (bits_of_land_0 _ _ n H0) as Hb. rewrite not32_spec in Hb by lia.
    destruct (Z.testbit mapped n), (Z.testbit ownerRights n); simpl in *; congruence.
  - now rewrite (uint32_high_bits mapped n Hm Hge).
Qed.

(** With integrity checking disabled or not denying, [AccessCheck]
    continues with the DACL on a result that grants nothing yet. *)
Lemma AccessCheck_integrity_passes (sd : NtSecurityDescriptor) (token : TokenUser)
    (desiredAccess : Z) (options : option AccessCheckOptions) :
  integrityPasses (optionsOrDefault options) (mappedRequest desiredAccess options) ->
  exists result0,
    Granted result0 = false /\ Access result0 = 0 /\
    steps result0 = integritySteps (optionsOrDefault options) /\
    AccessCheck sd token desiredAccess options =
      checkDacl sd token (optionsOrDefault options)
        (mappedRequest desiredAccess options) result0.
Proof.
  unfold integrityPasses, mappedRequest, AccessCheck, integritySteps.
  destruct (CheckIntegrity (optionsOrDefault options)) eqn:Hci.
  - intros [Hoff|Hok]; [discriminate|]. rewrite Hok. simpl.
    eexists. split; [|split; [|split; [|reflexivity]]]; reflexivity.
  - intros _. eexists. split; [|split; [|split; [|reflexivity]]]; reflexivity.
Qed.

Lemma AccessCheck_integrity_denies (sd : NtSecurityDescriptor) (token : TokenUser)
    (desiredAccess : Z) (options : option AccessCheckOptions) :
  ~ integrityPasses (optionsOrDefault options) (mappedRequest desiredAccess options) ->
  exists r,
    AccessCheck sd token desiredAccess options = Some r /\
    Granted r = false /\ Access r = 0 /\
    Reason r = "Access denied by integrity level policy" /\
    mappedRequest desiredAccess options <> 0.
Proof.
  unfold integrityPasses, mappedRequest, AccessCheck.
  set (opts := optionsOrDefault options).
  set (mapped := MapGenericAccess desiredAccess (GenericMapping opts)).
  intros Hnot.
  destruct (CheckIntegrity opts) eqn:Hci; [|tauto].
  destruct (CheckAccess (SubjectIntegrity opts) (ObjectIntegrity opts)
              (IntegrityPolicy opts) mapped) eqn:Hca; [tauto|].
  simpl. eexists. repeat split.
  intros H0. rewrite H0 in Hca. unfold CheckAccess in Hca.
  rewrite !Z.land_0_l in Hca. simpl in Hca.
  rewrite !andb_false_r in Hca.
  now destruct (ObjectIntegrity opts <=? SubjectIntegrity opts).
Qed.

Lemma checkDacl_empty (sd : NtSecurityDescriptor) (token : TokenUser)
    (options : AccessCheckOptions) (mapped : Z) (result0 : AccessCheckResult) :
  Aces (DACL sd) = [] ->
  exists r,
    checkDacl sd token options mapped result0 = Some r /\
    Granted r = true /\ Access r = mapped /\
    Reason r = "No DACL present (full access)" /\
    steps r = steps result0 ++ ["EmptyDACL"].
Proof.
  intros Hempty. unfold checkDacl, steps. rewrite Hempty. simpl.
  eexists. repeat split. simpl. now rewrite map_app.
Qed.

Lemma checkDacl_nonempty (sd : NtSecurityDescriptor) (token : TokenUser)
    (options : AccessCheckOptions) (mapped : Z) (result0 : AccessCheckResult) :
  Aces (DACL sd) <> [] ->
  checkDacl sd token options mapped result0 =
    checkOwnerAndAces sd token options mapped result0.
Proof.
  intros Hne. unfold checkDacl.
  destruct (Aces (DACL sd)); [congruence | reflexivity].
Qed.

Lemma checkOwnerAndAces_owner (sd : NtSecurityDescriptor) (token : TokenUser)
    (options : AccessCheckOptions) (mapped : Z) (result0 : AccessCheckResult)
    (s : string) :
  SID_String (UserSID token) = Some s -> SID_String (Owner sd) = Some s ->
  Z.land mapped (not32 ownerRights) = 0 ->
  exists r,
    checkOwnerAndAces sd token options mapped result0 = Some r /\
    Granted r = true /\ Access r = Z.land mapped ownerRights /\
    Reason r = "Access granted to owner" /\
    steps r = steps result0 ++ ["OwnerCheck"; "OwnerRights"] /\
    mkCheckDetails "OwnerCheck" "Checking if user is owner: true" true ∈ Details r.
Proof.
  intros Hu Ho H0. unfold checkOwnerAndAces, steps.
  rewrite Hu, Ho. simpl. rewrite String.eqb_refl, H0. simpl.
  eexists. repeat split.
  - simpl. rewrite !map_app. simpl. now rewrite <- app_assoc.
  - simpl. rewrite !elem_of_app, !list_elem_of_singleton. left. right. reflexivity.
Qed.

Lemma checkOwnerAndAces_passes (sd : NtSecurityDescriptor) (token : TokenUser)
    (options : AccessCheckOptions) (mapped : Z) (result0 : AccessCheckResult) :
  is_Some (SID_String (UserSID token)) -> is_Some (SID_String (Owner sd)) ->
  Forall (fun ace => is_Some (aceAppliesToToken ace token options)) (Aces (DACL sd)) ->
  is_uint32 mapped ->
  Granted result0 = false -> Access result0 = 0 ->
  ~ ownerShortcut sd token mapped ->
  exists r,
    checkOwnerAndAces sd token options mapped result0 = Some r /\
    decidedByAces mapped
      (deniedBits (Aces (DACL sd)) token options mapped)
      (grantedBits (Aces (DACL sd)) token options mapped
         (deniedBits (Aces (DACL sd)) token options mapped)) r.
Proof.
  intros [u Hu] [o Ho] Hall Hm Hg0 Ha0 Hnot.
  unfold checkOwnerAndAces.
  rewrite Hu, Ho. simpl.
  assert (Hcond : String.eqb u o && (Z.land mapped (not32 ownerRights) =? 0) = false).
  { apply not_true_is_false. intros Htrue. apply andb_true_iff in Htrue as [He Hz].
    apply Hnot. split.
    - rewrite Hu, Ho. f_equal. now apply String.eqb_eq.
    - now apply Z.eqb_eq. }
  rewrite Hcond.
  set (D := deniedBits (Aces (DACL sd)) token options mapped).
  match goal with
  | |- context [denyPass _ ?i _ _ _ ?res ?d] =>
      destruct (denyPass_spec token options mapped _ Hall i res d) as [out [Hout Hok]]
  end.
  rewrite Hout. simpl. rewrite Z.lor_0_l in Hok. fold D in Hok.
  destruct out as [r|r d]; simpl in Hok.
  - destruct Hok as (HD & Hm0 & Hgr & Hacc & j & Hreason).
    exists r. split; [reflexivity|]. simpl in Hgr, Hacc.
    rewrite HD. rewrite grantedBits_all_denied by assumption.
    unfold decidedByAces. rewrite Hgr, Hacc, Hg0, Ha0.
    assert (H0m : (0 =? mapped) = false) by (apply Z.eqb_neq; congruence).
    rewrite H0m. repeat split; try discriminate; try congruence.
    intros _ _. right. now exists j.
  - destruct Hok as (-> & Hgr & Hacc).
    match goal with
    | |- context [allowPass _ ?i _ _ _ _ ?res ?g] =>
        destruct (allowPass_spec token options mapped D _ Hm Hall i res g)
          as [r2 [Hr2 _]]
    end.
    rewrite Hr2. simpl. rewrite Z.lor_0_l.
    eexists. split; [reflexivity|].
    set (G := grantedBits (Aces (DACL sd)) token options mapped D).
    destruct (finalDecision_spec mapped G D r2 Hm) as (HA & HG & HR).
    unfold decidedByAces. rewrite HA, HG, HR.
    destruct (G =? mapped); destruct (Z.eqb_spec D 0);
      repeat split; try discriminate; try congruence; auto.
Qed.

Lemma wf_aces_apply (sd : NtSecurityDescriptor) (token : TokenUser)
    (options : AccessCheckOptions) :
  Token_wf token -> Descriptor_wf sd ->
  Forall (fun ace => is_Some (aceAppliesToToken ace token options)) (Aces (DACL sd)).
Proof.
  intros Htok [_ Haces]. eapply Forall_impl; [exact Haces|].
  intros ace Hace. now apply aceAppliesToToken_total.
Qed.

Lemma ownerShortcut_dec (sd : NtSecurityDescriptor) (token : TokenUser) (mapped : Z) :
  ownerShortcut sd token mapped \/ ~ ownerShortcut sd token mapped.
Proof.
  unfold ownerShortcut.
  destruct (decide (SID_String (UserSID token) = SID_String (Owner sd)));
    destruct (Z.eq_dec (Z.land mapped (not32 ownerRights)) 0); tauto.
Qed.

Lemma integrityPasses_dec (options : AccessCheckOptions) (mapped : Z) :
  integrityPasses options mapped \/ ~ integrityPasses options mapped.
Proof.
  unfold integrityPasses.
  destruct (CheckIntegrity options);
    destruct (CheckAccess (SubjectIntegrity options) (ObjectIntegrity options)
                (IntegrityPolicy options) mapped); intuition congruence.
Qed.

(** ** The access-check engine: the claims *)

(** C3. When the DACL holds no ACE and integrity checking is disabled or
    not denying, [AccessCheck] grants the whole mapped request, for every
    token and every request, and its trace holds the integrity step (if
    enabled) and the empty-DACL step only: neither the owner nor any ACE
    is looked at (no SID needs to be renderable). *)
Theorem AccessCheck_empty_DACL (sd : NtSecurityDescriptor) (token : TokenUser)
    (desiredAccess : Z) (options : option AccessCheckOptions) :
  Aces (DACL sd) = [] ->
  integrityPasses (optionsOrDefault options) (mappedRequest desiredAccess options) ->
  exists r,
    AccessCheck sd token desiredAccess options = Some r /\
    Granted r = true /\
    Access r = mappedRequest desiredAccess options /\
    Reason r = "No DACL present (full access)" /\
    steps r = integritySteps (optionsOrDefault options) ++ ["EmptyDACL"].
Proof.
  intros Hempty Hint.
  destruct (AccessCheck_integrity_passes sd token desiredAccess options Hint)
    as (result0 & _ & _ & Hsteps & ->).
  destruct (checkDacl_empty sd token (optionsOrDefault options)
              (mappedRequest desiredAccess options) result0 Hempty)
    as (r & Hr & Hg & Ha & Hreason & Hst).
  exists r. rewrite Hst, Hsteps. auto.
Qed.

Lemma AccessCheck_empty_DACL_witness :
  exists r,
    AccessCheck (mkNTSD NTSDHeader_zero ACL_zero ACL_zero unrenderableSID unrenderableSID)
      (NewTokenUser unrenderableSID []) AccessMaskGenericWrite None = Some r /\
    Granted r = true /\ Access r = Z.lor AccessMaskWriteDACL AccessMaskWriteOwner.
Proof.
  destruct (AccessCheck_empty_DACL
              (mkNTSD NTSDHeader_zero ACL_zero ACL_zero unrenderableSID unrenderableSID)
              (NewTokenUser unrenderableSID []) AccessMaskGenericWrite None
              eq_refl (or_introl eq_refl))
    as (r & Hr & Hg & Ha & _).
  exists r. split; [exact Hr|]. split; [exact Hg|]. exact Ha.
Defined.




(** *** Deny precedence *)

Lemma default_map_GenericWrite :
  MapGenericAccess AccessMaskGenericWrite (GenericMapping DefaultAccessCheckOptions)
  = Z.lor AccessMaskWriteDACL AccessMaskWriteOwner.
Proof. vm_compute. reflexivity. Qed.

Lemma default_map_GenericRead :
  MapGenericAccess AccessMaskGenericRead (GenericMapping DefaultAccessCheckOptions)
  = AccessMaskReadControl.
Proof. vm_compute. reflexivity. Qed.

Lemma default_map_GenericAll :
  MapGenericAccess AccessMaskGenericAll (GenericMapping DefaultAccessCheckOptions)
  = 0xFFFFFFFF.
Proof. vm_compute. reflexivity. Qed.

Section DenyPrecedence.

Variables (sd : NtSecurityDescriptor) (token : TokenUser).
Variables (allowAce denyAce : ACE) (options : option AccessCheckOptions).

Hypothesis Hdefault : isDefaultOptions options.
Hypothesis Hallow : allowsAllTo allowAce (UserSID token).
Hypothesis Hdeny : deniesWriteToEveryone denyAce.
Hypothesis Huser : SID_wf (UserSID token).
Hypothesis Howner : SID_wf (Owner sd).
Hypothesis Horder :
  Aces (DACL sd) = [allowAce; denyAce] \/ Aces (DACL sd) = [denyAce; allowAce].

#[local] Abbreviation opts := DefaultAccessCheckOptions.

Lemma dp_options : optionsOrDefault options = opts.
Proof. now destruct Hdefault as [-> | ->]. Qed.

Lemma dp_deny_applies : appliesTo token opts denyAce = true.
Proof.
  destruct Hdeny as (_ & _ & sid & Hp & Hs). unfold appliesTo.
  rewrite (aceAppliesToToken_principal _ _ _ _ Hp).
  now rewrite (sidAppliesToToken_everyone _ _ Hs).
Qed.

Lemma dp_allow_applies : appliesTo token opts allowAce = true.
Proof.
  destruct Hallow as (_ & _ & Hp). unfold appliesTo.
  rewrite (aceAppliesToToken_principal _ _ _ _ Hp).
  destruct (SID_String_total _ Huser) as [u Hu].
  destruct (sidAppliesToToken_user _ token u Hu Hu) as [reason ->]. reflexivity.
Qed.

Lemma dp_all_apply :
  Forall (fun ace => is_Some (aceAppliesToToken ace token opts)) (Aces (DACL sd)).
Proof.
  assert (Ha : is_Some (aceAppliesToToken allowAce token opts)).
  { pose proof dp_allow_applies as H. unfold appliesTo in H.
    destruct (aceAppliesToToken allowAce token opts); [eauto | discriminate]. }
  assert (Hd : is_Some (aceAppliesToToken denyAce token opts)).
  { pose proof dp_deny_applies as H. unfold appliesTo in H.
    destruct (aceAppliesToToken denyAce token opts); [eauto | discriminate]. }
  destruct Horder as [-> | ->]; repeat constructor; assumption.
Qed.

Lemma dp_denied (mapped : Z) :
  deniedBits (Aces (DACL sd)) token opts mapped
  = Z.land (Z.lor AccessMaskWriteDACL AccessMaskWriteOwner) mapped.
Proof.
  destruct Hallow as (Hta & _ & _), Hdeny as (Htd & Hrd & _).
  assert (Hm : aceMapped opts denyAce = Z.lor AccessMaskWriteDACL AccessMaskWriteOwner).
  { unfold aceMapped. rewrite Hrd. apply default_map_GenericWrite. }
  destruct Horder as [-> | ->]; rewrite !deniedBits_cons, Hta, Htd, dp_deny_applies, Hm;
    change (deniedBits [] token opts mapped) with 0; simpl; now rewrite Z.lor_0_r.
Qed.

Lemma dp_granted (mapped denied : Z) :
  grantedBits (Aces (DACL sd)) token opts mapped denied
  = Z.land (Z.land 0xFFFFFFFF mapped) (not32 denied).
Proof.
  destruct Hallow as (Hta & Hra & _), Hdeny as (Htd & _ & _).
  assert (Hm : aceMapped opts allowAce = 0xFFFFFFFF).
  { unfold aceMapped. rewrite Hra. apply default_map_GenericAll. }
  destruct Horder as [-> | ->]; rewrite !grantedBits_cons, Hta, Htd, dp_allow_applies, Hm;
    change (grantedBits [] token opts mapped denied) with 0; simpl; now rewrite Z.lor_0_r.
Qed.

Lemma dp_nonempty : Aces (DACL sd) <> [].
Proof. destruct Horder as [-> | ->]; discriminate. Qed.

(** C1. With one access-allowed ACE granting GENERIC_ALL to the token's
    user and one access-denied ACE denying GENERIC_WRITE to Everyone, in
    either order, and the default options, a GENERIC_WRITE request is
    denied and a GENERIC_READ request is granted. *)
Theorem AccessCheck_deny_precedence :
  (exists r, AccessCheck sd token AccessMaskGenericWrite options = Some r /\
             Granted r = false) /\
  (exists r, AccessCheck sd token AccessMaskGenericRead options = Some r /\
             Granted r = true).
Proof.
  pose proof dp_options as Hopts.
  assert (Hint : forall desired,
             integrityPasses (optionsOrDefault options) (mappedRequest desired options)).
  { intros desired. left. now rewrite Hopts. }
  split.
  - destruct (AccessCheck_integrity_passes sd token AccessMaskGenericWrite options
                (Hint _)) as (result0 & Hg0 & Ha0 & _ & ->).
    rewrite checkDacl_nonempty by apply dp_nonempty.
    unfold mappedRequest. rewrite Hopts, default_map_GenericWrite.
    destruct (checkOwnerAndAces_passes sd token opts
                (Z.lor AccessMaskWriteDACL AccessMaskWriteOwner) result0)
      as (r & Hr & _ & Hgr & _); try assumption.
    + now apply SID_String_total.
    + now apply SID_String_total.
    + apply dp_all_apply.
    + unfold is_uint32. vm_compute. split; congruence.
    + intros [_ H0]. vm_compute in H0. discriminate.
    + exists r. split; [exact Hr|]. rewrite Hgr, dp_granted, dp_denied. reflexivity.
  - destruct (AccessCheck_integrity_passes sd token AccessMaskGenericRead options
                (Hint _)) as (result0 & Hg0 & Ha0 & _ & ->).
    rewrite checkDacl_nonempty by apply dp_nonempty.
    unfold mappedRequest. rewrite Hopts, default_map_GenericRead.
    destruct (ownerShortcut_dec sd token AccessMaskReadControl) as [[Heq H0]|Hnot].
    + destruct (SID_String_total _ Huser) as [u Hu].
      destruct (checkOwnerAndAces_owner sd token opts AccessMaskReadControl result0 u)
        as (r & Hr & Hgr & _); try assumption.
      * now rewrite <- Heq.
      * exists r. auto.
    + destruct (checkOwnerAndAces_passes sd token opts AccessMaskReadControl result0)
        as (r & Hr & _ & Hgr & _); try assumption.
      * now apply SID_String_total.
      * now apply SID_String_total.
      * apply dp_all_apply.
      * unfold is_uint32. vm_compute. split; congruence.
      * exists r. split; [exact Hr|]. rewrite Hgr, dp_granted, dp_denied. reflexivity.
Qed.

End DenyPrecedence.

Lemma AccessCheck_deny_precedence_witness :
  let allowAce := NewAccessAllowedACE userSID AccessMaskGenericAll in
  let denyAce := NewAccessDeniedACE everyoneSID AccessMaskGenericWrite in
  let token := NewTokenUser userSID [everyoneSID] in
  (exists r, AccessCheck (descriptorOf adminSID [denyAce; allowAce]) token
               AccessMaskGenericWrite None = Some r /\ Granted r = false) /\
  (exists r, AccessCheck (descriptorOf adminSID [denyAce; allowAce]) token
               AccessMaskGenericRead None = Some r /\ Granted r = true).
Proof.
  intros allowAce denyAce token.
  apply (AccessCheck_deny_precedence (descriptorOf adminSID [denyAce; allowAce])
           token allowAce denyAce None).
  - left. reflexivity.
  - repeat split.
  - split; [reflexivity|]. split; [reflexivity|].
    exists everyoneSID. split; reflexivity.
  - unfold SID_wf. simpl. lia.
  - unfold SID_wf. simpl. lia.
  - right. reflexivity.
Defined.

(** *** ACE variants seen by the two passes *)

(** Any ACE whose header type is not ACCESS_DENIED is skipped by the deny
    pass, whatever its body and principal. *)
Lemma denyPass_skips_other_types (ace : ACE) (rest : list ACE) (i : nat)
    (token : TokenUser) (options : AccessCheckOptions) (mapped : Z)
    (result : AccessCheckResult) (d : Z) :
  Type_ (Header ace) <> AceTypeAccessDenied ->
  denyPass (ace :: rest) i token options mapped result d =
  denyPass rest (S i) token options mapped result d.
Proof.
  intros Hne. simpl. apply Z.eqb_neq in Hne. now rewrite Hne.
Qed.

(** C7 (the code departs from the claim). An applicable
    access-denied-object ACE that covers the whole mapped request is not
    taken into account: with it in front of an allow ACE the request is
    granted, whereas the basic access-denied ACE for the same principal
    and rights, in the same place, denies it; an access-denied-callback
    ACE is skipped in the same way. *)
Theorem AccessCheck_ignores_deny_object_ace :
  let token := NewTokenUser userSID [everyoneSID] in
  let allowAce := NewAccessAllowedACE everyoneSID AccessMaskGenericWrite in
  let denyObject := deniedObjectACE everyoneSID AccessMaskGenericWrite in
  let denyBasic := NewAccessDeniedACE everyoneSID AccessMaskGenericWrite in
  let denyCallback :=
    mkACE (mkACEHeader AceTypeAccessDeniedCallback 0 20)
      (mkACEAccessMask AccessMaskGenericWrite) (IsBasicAce (mkBasicAce everyoneSID)) in
  appliesTo token DefaultAccessCheckOptions denyObject = true /\
  aceMapped DefaultAccessCheckOptions denyObject =
    mappedRequest AccessMaskGenericWrite None /\
  Granted <$> AccessCheck (descriptorOf adminSID [denyObject; allowAce]) token
                AccessMaskGenericWrite None = Some true /\
  Granted <$> AccessCheck (descriptorOf adminSID [denyCallback; allowAce]) token
                AccessMaskGenericWrite None = Some true /\
  Granted <$> AccessCheck (descriptorOf adminSID [denyBasic; allowAce]) token
                AccessMaskGenericWrite None = Some false.
Proof. intros. repeat split; vm_compute; reflexivity. Qed.

(** *** The final decision *)

(** C2. For well-formed inputs [AccessCheck] returns a result whose
    grant flag is set exactly when its access field (the accumulated
    granted bits) equals the whole mapped request.  When the check gets
    as far as the ACE passes (integrity not denying, DACL not empty, no
    owner short-circuit), the access field is the granted set G of the
    specification (also on denial, where it holds the partially granted
    bits), the grant flag is [G = mapped], and on denial the reason tells
    an explicit denial (D <> 0) from rights no ACE matched (D = 0). *)
Theorem AccessCheck_final_decision (sd : NtSecurityDescriptor) (token : TokenUser)
    (desiredAccess : Z) (options : option AccessCheckOptions) :
  Token_wf token -> Descriptor_wf sd ->
  is_uint32 desiredAccess ->
  mapping_uint32 (GenericMapping (optionsOrDefault options)) ->
  exists r,
    AccessCheck sd token desiredAccess options = Some r /\
    (Granted r = true <-> Access r = mappedRequest desiredAccess options) /\
    (integrityPasses (optionsOrDefault options) (mappedRequest desiredAccess options) ->
     Aces (DACL sd) <> [] ->
     ~ ownerShortcut sd token (mappedRequest desiredAccess options) ->
     decidedByAces (mappedRequest desiredAccess options)
       (deniedBits (Aces (DACL sd)) token (optionsOrDefault options)
          (mappedRequest desiredAccess options))
       (grantedBits (Aces (DACL sd)) token (optionsOrDefault options)
          (mappedRequest desiredAccess options)
          (deniedBits (Aces (DACL sd)) token (optionsOrDefault options)
             (mappedRequest desiredAccess options)))
       r).
Proof.
  intros Htok Hsd Hd Hmap.
  set (opts := optionsOrDefault options).
  set (mapped := mappedRequest desiredAccess options).
  assert (Hm : is_uint32 mapped) by now apply MapGenericAccess_uint32.
  destruct (integrityPasses_dec opts mapped) as [Hint|Hint].
  2:{ destruct (AccessCheck_integrity_denies sd token desiredAccess options Hint)
        as (r & Hr & Hg & Ha & _ & Hne).
      exists r. split; [exact Hr|]. split; [|tauto].
      rewrite Hg, Ha. fold mapped in Hne. split; [discriminate | congruence]. }
  destruct (AccessCheck_integrity_passes sd token desiredAccess options Hint)
    as (result0 & Hg0 & Ha0 & _ & ->).
  fold opts mapped.
  destruct (Aces (DACL sd)) as [|ace rest] eqn:Haces.
  { destruct (checkDacl_empty sd token opts mapped result0 Haces)
      as (r & Hr & Hg & Ha & _).
    exists r. split; [exact Hr|]. split; [|congruence].
    rewrite Hg, Ha. tauto. }
  rewrite checkDacl_nonempty by congruence.
  destruct (ownerShortcut_dec sd token mapped) as [[Heq H0]|Hnot].
  - destruct (SID_String_total _ (proj1 Htok)) as [u Hu].
    destruct (checkOwnerAndAces_owner sd token opts mapped result0 u)
      as (r & Hr & Hg & Ha & _); try assumption.
    { now rewrite <- Heq. }
    exists r. split; [exact Hr|]. split.
    + rewrite Hg, Ha, outside_owner_rights by assumption. tauto.
    + intros _ _ Hns. exfalso. apply Hns. now split.
  - destruct (checkOwnerAndAces_passes sd token opts mapped result0)
      as (r & Hr & Hdec); try assumption.
    { apply SID_String_total, Htok. }
    { apply SID_String_total, Hsd. }
    { now apply wf_aces_apply. }
    rewrite Haces in Hdec.
    exists r. split; [exact Hr|]. split.
    + destruct Hdec as (Ha & Hg & _). rewrite Hg, Ha. apply Z.eqb_eq.
    + intros _ _ _. exact Hdec.
Qed.

(** The scenario of the test "PartialAccess": one ACE allows Everyone
    GENERIC_READ | READ_CONTROL, the request is GENERIC_READ | GENERIC_WRITE. *)
Lemma AccessCheck_final_decision_witness :
  exists r,
    AccessCheck
      (descriptorOf adminSID
         [NewAccessAllowedACE everyoneSID
            (Z.lor AccessMaskGenericRead AccessMaskReadControl)])
      (NewTokenUser userSID [everyoneSID])
      (Z.lor AccessMaskGenericRead AccessMaskGenericWrite)
      (Some partialAccessOptions) = Some r /\
    Granted r = false /\
    Access r = AccessMaskReadControl /\
    Z.land (Access r) AccessMaskWriteDACL = 0 /\
    Reason r = "Some requested access was not granted by any ACE".
Proof.
  destruct (AccessCheck_final_decision
              (descriptorOf adminSID
                 [NewAccessAllowedACE everyoneSID
                    (Z.lor AccessMaskGenericRead AccessMaskReadControl)])
              (NewTokenUser userSID [everyoneSID])
              (Z.lor AccessMaskGenericRead AccessMaskGenericWrite)
              (Some partialAccessOptions))
    as (r & Hr & _ & Hdec).
  - split; [unfold SID_wf; simpl; lia|].
    repeat constructor; unfold SID_wf; simpl; lia.
  - split; [unfold SID_wf; simpl; lia|].
    repeat constructor; unfold ACE_wf, SID_wf; simpl; lia.
  - unfold is_uint32. vm_compute. split; congruence.
  - change (map_Forall (fun _ v => 0 <= v < 2 ^ 32)
              (default ∅ (GenericMapping partialAccessOptions))).
    apply (bool_decide_unpack _). vm_compute. exact I.
  - destruct Hdec as (Ha & Hg & _ & Hnone & _).
    + left. reflexivity.
    + discriminate.
    + intros [Heq _]. vm_compute in Heq. discriminate.
    + exists r. split; [exact Hr|].
      assert (Hgr : Granted r = false) by (rewrite Hg; vm_compute; reflexivity).
      split; [exact Hgr|].
      split; [rewrite Ha; vm_compute; reflexivity|].
      split; [rewrite Ha; vm_compute; reflexivity|].
      apply Hnone; [exact Hgr | vm_compute; reflexivity].
Defined.

(** ** The ACL and descriptor decoders *)

Section DecoderProperties.

Variable NewGUID : Buffer -> (GUID * option error) * Buffer.

Lemma readAces_spec (n i : nat) (acl : ACL) (buf : Buffer) :
  let '((acl', err), buf') := readAces NewGUID n i acl buf in
  acl_Header acl' = acl_Header acl /\
  exists aces bufk,
    Aces acl' = Aces acl ++ aces /\
    decodesAces NewGUID buf aces bufk /\
    match err with
    | None => length aces = n /\ buf' = bufk
    | Some e =>
        (length aces < n)%nat /\
        exists partial cause,
          NewAce NewGUID bufk = ((partial, Some cause), buf') /\
          e = Errorw ("reading ACE " +:+ fmt_index (i + length aces)) cause
    end.
Proof.
  revert i acl buf. induction n as [|n IH]; intros i acl buf; simpl.
  - split; [reflexivity|]. exists [], buf.
    rewrite app_nil_r. repeat split. constructor.
  - destruct (NewAce NewGUID buf) as [[ace [cause|]] buf1] eqn:Hace.
    + split; [reflexivity|]. exists [], buf.
      rewrite app_nil_r. split; [reflexivity|]. split; [constructor|].
      split; [simpl; lia|]. exists ace, cause. simpl.
      now rewrite Nat.add_0_r.
    + specialize (IH (S i) (mkACL (acl_Header acl) (Aces acl ++ [ace])) buf1).
      destruct (readAces NewGUID n (S i) _ buf1) as [[acl' err] buf'].
      destruct IH as (Hhdr & aces & bufk & Haces & Hdec & Herr).
      split; [exact Hhdr|]. exists (ace :: aces), bufk. simpl in Haces.
      split; [now rewrite Haces, <- app_assoc|].
      split; [econstructor; eassumption|].
      destruct err as [e|].
      * destruct Herr as (Hlen & partial & cause & Hfail & He).
        split; [simpl; lia|]. exists partial, cause. split; [exact Hfail|].
        rewrite He. simpl. do 3 f_equal. lia.
      * destruct Herr as (Hlen & ->). simpl. split; [lia|reflexivity].
Qed.

(** What [NewACL] returns, on each of its three paths. *)
Lemma NewACL_outcome (buf : Buffer) :
  let '((header, herr), buf1) := NewACLHeader buf in
  let '((acl, err), buf') := NewACL NewGUID buf in
  acl_Header acl = header /\
  match herr, err with
  | Some he, _ =>
      err = Some (Errorw "reading ACL header" he) /\ Aces acl = []
  | None, None =>
      buf1 = drop 8 buf /\
      length (Aces acl) = Z.to_nat (AceCount header) /\
      decodesAces NewGUID buf1 (Aces acl) buf'
  | None, Some e =>
      buf1 = drop 8 buf /\
      exists bufk partial cause,
        (length (Aces acl) < Z.to_nat (AceCount header))%nat /\
        decodesAces NewGUID buf1 (Aces acl) bufk /\
        NewAce NewGUID bufk = ((partial, Some cause), buf') /\
        e = Errorw ("reading ACE " +:+ fmt_index (length (Aces acl))) cause /\
        Unwrap e = Some cause /\
        Error e = "reading ACE " +:+ fmt_index (length (Aces acl)) +:+ ": " +:+ Error cause
  end.
Proof.
  unfold NewACL.
  destruct (NewACLHeader buf) as [[header [he|]] buf1] eqn:Hhdr.
  - simpl. auto.
  - assert (Hbuf1 : buf1 = drop 8 buf).
    { unfold NewACLHeader, readFull in Hhdr.
      destruct (8 <=? length buf)%nat; congruence. }
    pose proof (readAces_spec (Z.to_nat (AceCount header)) 0 (mkACL header []) buf1)
      as Hspec.
    destruct (readAces NewGUID _ 0 _ buf1) as [[acl err] buf'].
    destruct Hspec as (Hh & aces & bufk & Haces & Hdec & Herr).
    simpl in Hh, Haces. subst aces. split; [exact Hh|].
    destruct err as [e|].
    + destruct Herr as (Hlen & partial & cause & Hfail & ->).
      split; [exact Hbuf1|]. exists bufk, partial, cause.
      repeat split; assumption.
    + destruct Herr as (Hlen & ->). auto.
Qed.

(** C9 (as amended). [NewACL] decodes the 8-byte header and then the
    ACE records in order.  On success exactly [AceCount] ACEs were
    decoded.  When the ACE at index [i] fails, the error wraps that ACE's
    error and reports [i]; the ACL value returned next to the error still
    carries the header and the [i] ACEs decoded before the failure, and
    [NewNtSecurityDescriptor], whose DACL this is, returns that very ACL
    in the descriptor it hands back with its error. *)
Theorem NewACL_decodes_in_order (buf : Buffer) :
  let '((header, herr), buf1) := NewACLHeader buf in
  let '((acl, err), buf') := NewACL NewGUID buf in
  acl_Header acl = header /\
  match herr, err with
  | Some he, _ =>
      err = Some (Errorw "reading ACL header" he) /\ Aces acl = []
  | None, None =>
      buf1 = drop 8 buf /\
      length (Aces acl) = Z.to_nat (AceCount header) /\
      decodesAces NewGUID buf1 (Aces acl) buf'
  | None, Some e =>
      buf1 = drop 8 buf /\
      exists bufk partial cause,
        (length (Aces acl) < Z.to_nat (AceCount header))%nat /\
        decodesAces NewGUID buf1 (Aces acl) bufk /\
        NewAce NewGUID bufk = ((partial, Some cause), buf') /\
        e = Errorw ("reading ACE " +:+ fmt_index (length (Aces acl))) cause /\
        Unwrap e = Some cause /\
        Error e = "reading ACE " +:+ fmt_index (length (Aces acl)) +:+ ": " +:+ Error cause
  end /\
  forall (ntsdBytes : list byte) (h : NtSecurityDescriptorHeader) (e : error),
    NewNTSDHeader ntsdBytes = ((h, None), buf) -> err = Some e ->
    NewNtSecurityDescriptor NewGUID ntsdBytes =
      Some (mkNTSD h acl ACL_zero SID_zero SID_zero, Some (Errorw "parsing DACL" e)).
Proof.
  pose proof (NewACL_outcome buf) as Hout.
  destruct (NewACLHeader buf) as [[header herr] buf1].
  destruct (NewACL NewGUID buf) as [[acl err] buf'] eqn:Hacl.
  destruct Hout as [Hh Hrest]. split; [exact Hh|]. split; [exact Hrest|].
  intros ntsdBytes h e Hhdr ->. unfold NewNtSecurityDescriptor.
  now rewrite Hhdr, Hacl.
Qed.

(** C10. When the header's group and owner offsets are equal and the
    decoded DACL holds no ACE, [NewNtSecurityDescriptor] succeeds (nil
    error) and leaves [Owner] and [Group] as zero-valued SIDs, whose
    canonical string is empty. *)
Theorem NewNtSecurityDescriptor_degenerate_empty (ntsdBytes : list byte)
    (header : NtSecurityDescriptorHeader) (dacl : ACL) (buf1 buf2 : Buffer) :
  NewNTSDHeader ntsdBytes = ((header, None), buf1) ->
  NewACL NewGUID buf1 = ((dacl, None), buf2) ->
  OffsetGroup header = OffsetOwner header ->
  Aces dacl = [] ->
  NewNtSecurityDescriptor NewGUID ntsdBytes =
    Some (mkNTSD header dacl ACL_zero SID_zero SID_zero, None) /\
  SID_String SID_zero = Some "".
Proof.
  intros Hh Hd Hoff Hempty. unfold NewNtSecurityDescriptor.
  rewrite Hh, Hd, Hoff, Z.sub_diag, Hempty. split; reflexivity.
Qed.

End DecoderProperties.

Lemma NewNtSecurityDescriptor_degenerate_empty_witness :
  exists ntsd,
    NewNtSecurityDescriptor NewGUID_pkg (ntsdHeaderRecord ++ aclHeaderRecord x00) =
      Some (ntsd, None) /\
    Owner ntsd = SID_zero /\ Group ntsd = SID_zero /\
    SID_String (Owner ntsd) = Some "".
Proof.
  destruct (NewNtSecurityDescriptor_degenerate_empty NewGUID_pkg
              (ntsdHeaderRecord ++ aclHeaderRecord x00)
              (mkNTSDHeader 1 0 0x8004 0 0 0 20)
              (mkACL (mkACLHeader 2 0 28 0 0) []) (aclHeaderRecord x00) [])
    as [Hr Hs]; try reflexivity.
  eexists. split; [exact Hr|]. repeat split.
Defined.

Lemma NewACL_decodes_in_order_witness :
  NewNtSecurityDescriptor NewGUID_pkg
    (ntsdHeaderRecord ++ aclHeaderRecord x02 ++ aceRecord) =
  Some (mkNTSD (mkNTSDHeader 1 0 0x8004 0 0 0 20)
          (mkACL (mkACLHeader 2 0 28 2 0)
             [NewAccessAllowedACE systemSID AccessMaskGenericRead])
          ACL_zero SID_zero SID_zero,
        Some (Errorw "parsing DACL"
                (Errorw "reading ACE 1"
                   (Errorw "reading ACE header"
                      (Errorw "reading ACE header" EOF))))).
Proof.
  pose proof (NewACL_decodes_in_order NewGUID_pkg (aclHeaderRecord x02 ++ aceRecord))
    as H.
  assert (Hh : NewACLHeader (aclHeaderRecord x02 ++ aceRecord)
               = ((mkACLHeader 2 0 28 2 0, None), aceRecord)) by reflexivity.
  assert (Ha : NewACL NewGUID_pkg (aclHeaderRecord x02 ++ aceRecord)
               = ((mkACL (mkACLHeader 2 0 28 2 0)
                     [NewAccessAllowedACE systemSID AccessMaskGenericRead],
                   Some (Errorw "reading ACE 1"
                           (Errorw "reading ACE header"
                              (Errorw "reading ACE header" EOF)))), []))
    by (vm_compute; reflexivity).
  rewrite Hh, Ha in H. destruct H as (_ & _ & Hsd).
  apply Hsd; reflexivity.
Defined.

(** C9, the claim as stated fails: a buffer that declares two ACEs and
    holds one.  Decoding fails at index 1, and the ACL returned next to
    the error holds the ACE decoded before the failure; the descriptor
    decoder hands that partial DACL on to its caller. *)
Lemma NewACL_returns_decoded_prefix :
  let '((acl, err), _) := NewACL NewGUID_pkg (aclHeaderRecord x02 ++ aceRecord) in
  err = Some (Errorw "reading ACE 1"
                (Errorw "reading ACE header" (Errorw "reading ACE header" EOF))) /\
  Aces acl = [NewAccessAllowedACE systemSID AccessMaskGenericRead] /\
  Aces acl <> [] /\
  exists ntsd e,
    NewNtSecurityDescriptor NewGUID_pkg
      (ntsdHeaderRecord ++ aclHeaderRecord x02 ++ aceRecord) = Some (ntsd, Some e) /\
    Aces (DACL ntsd) = Aces acl.
Proof.
  vm_compute. repeat split; try discriminate.
  do 2 eexists. split; reflexivity.
Qed.

(** * Further properties of the code *)

(** ** The access-check engine as a whole *)

(** Every access check on renderable inputs ends in one of four ways. *)
Lemma AccessCheck_shape (sd : NtSecurityDescriptor) (token : TokenUser)
    (desiredAccess : Z) (options : option AccessCheckOptions) :
  Token_wf token -> Descriptor_wf sd ->
  is_uint32 (mappedRequest desiredAccess options) ->
  exists r,
    AccessCheck sd token desiredAccess options = Some r /\
    resultShape sd token (optionsOrDefault options)
      (mappedRequest desiredAccess options) r.
Proof.
  intros Htok Hsd Hm.
  set (opts := optionsOrDefault options) in *.
  set (mapped := mappedRequest desiredAccess options) in *.
  unfold resultShape.
  destruct (integrityPasses_dec opts mapped) as [Hint|Hint].
  2:{ destruct (AccessCheck_integrity_denies sd token desiredAccess options Hint)
        as (r & Hr & Hg & Ha & _ & Hne).
      exists r. split; [exact Hr|]. left. auto. }
  destruct (AccessCheck_integrity_passes sd token desiredAccess options Hint)
    as (result0 & Hg0 & Ha0 & _ & ->).
  fold opts mapped.
  destruct (Aces (DACL sd)) as [|ace rest] eqn:Haces.
  { destruct (checkDacl_empty sd token opts mapped result0 Haces)
      as (r & Hr & Hg & Ha & _).
    exists r. split; [exact Hr|]. right. left. auto. }
  rewrite checkDacl_nonempty by congruence.
  destruct (ownerShortcut_dec sd token mapped) as [Hown|Hnot].
  - destruct Hown as [Heq H0].
    destruct (SID_String_total _ (proj1 Htok)) as [u Hu].
    destruct (checkOwnerAndAces_owner sd token opts mapped result0 u)
      as (r & Hr & Hg & Ha & _); try assumption.
    { now rewrite <- Heq. }
    exists r. split; [exact Hr|]. right. right. left.
    split; [assumption|]. split; [discriminate|]. split; [now split|]. now split.
  - destruct (checkOwnerAndAces_passes sd token opts mapped result0)
      as (r & Hr & Hdec); try assumption.
    { apply SID_String_total, Htok. }
    { apply SID_String_total, Hsd. }
    { now apply wf_aces_apply. }
    rewrite Haces in Hdec.
    exists r. split; [exact Hr|]. right. right. right.
    split; [assumption|]. split; [discriminate|]. now split.
Qed.

Lemma land_idem_sub (a b : Z) : Z.land (Z.land a b) a = Z.land a b.
Proof.
  apply Z.bits_inj'. intros n _. rewrite !Z.land_spec.
  now destruct (Z.testbit a n), (Z.testbit b n).
Qed.

Lemma orAll_within (m : Z) (l : list Z) :
  Forall (fun t => Z.land t m = t) l -> Z.land (orAll l) m = orAll l.
Proof.
  induction 1 as [|t l Ht _ IH]; simpl; [reflexivity|].
  now rewrite Z.land_lor_distr_l, Ht, IH.
Qed.

Lemma grantedBits_within (aces : list ACE) (token : TokenUser)
    (options : AccessCheckOptions) (mapped denied : Z) :
  Z.land (grantedBits aces token options mapped denied) mapped
  = grantedBits aces token options mapped denied.
Proof.
  unfold grantedBits. apply orAll_within. apply Forall_forall. intros t Ht.
  apply list_elem_of_In, in_map_iff in Ht as (ace & <- & _).
  apply Z.bits_inj'. intros n _. rewrite !Z.land_spec.
  now destruct (Z.testbit (aceMapped options ace) n), (Z.testbit mapped n),
    (Z.testbit (not32 denied) n).
Qed.

Lemma deniedBits_within (aces : list ACE) (token : TokenUser)
    (options : AccessCheckOptions) (mapped : Z) :
  Z.land (deniedBits aces token options mapped) mapped
  = deniedBits aces token options mapped.
Proof.
  unfold deniedBits. apply orAll_within. apply Forall_forall. intros t Ht.
  apply list_elem_of_In, in_map_iff in Ht as (ace & <- & _).
  apply Z.bits_inj'. intros n _. rewrite !Z.land_spec.
  now destruct (Z.testbit (aceMapped options ace) n), (Z.testbit mapped n).
Qed.

Lemma orAll_disjoint (d : Z) (l : list Z) :
  Forall (fun t => Z.land t d = 0) l -> Z.land (orAll l) d = 0.
Proof.
  induction 1 as [|t l Ht _ IH]; simpl; [reflexivity|].
  now rewrite Z.land_lor_distr_l, Ht, IH.
Qed.

Lemma grantedBits_avoid_denied (aces : list ACE) (token : TokenUser)
    (options : AccessCheckOptions) (mapped denied : Z) :
  is_uint32 mapped ->
  Z.land (grantedBits aces token options mapped denied) denied = 0.
Proof.
  intros Hm. unfold grantedBits. apply orAll_disjoint. apply Forall_forall.
  intros t Ht. apply list_elem_of_In, in_map_iff in Ht as (ace & <- & _).
  apply Z.bits_inj'. intros n Hn. rewrite !Z.land_spec, Z.bits_0.
  destruct (Z.lt_ge_cases n 32) as [Hlt|Hge].
  - rewrite not32_spec by lia.
    now destruct (Z.testbit (aceMapped options ace) n), (Z.testbit mapped n),
      (Z.testbit denied n).
  - rewrite (uint32_high_bits mapped n Hm Hge).
    now rewrite andb_false_r.
Qed.

(** X1. The rights reported as granted never exceed the mapped request:
    whichever way the check ends, [Access] is a subset of the request. *)
Theorem AccessCheck_access_within_request (sd : NtSecurityDescriptor)
    (token : TokenUser) (desiredAccess : Z) (options : option AccessCheckOptions) :
  Token_wf token -> Descriptor_wf sd ->
  is_uint32 desiredAccess ->
  mapping_uint32 (GenericMapping (optionsOrDefault options)) ->
  exists r,
    AccessCheck sd token desiredAccess options = Some r /\
    Z.land (Access r) (mappedRequest desiredAccess options) = Access r.
Proof.
  intros Htok Hsd Hd Hmap.
  assert (Hm : is_uint32 (mappedRequest desiredAccess options))
    by now apply MapGenericAccess_uint32.
  destruct (AccessCheck_shape sd token desiredAccess options Htok Hsd Hm)
    as (r & Hr & Hshape).
  exists r. split; [exact Hr|].
  destruct Hshape as [(_ & _ & -> & _) | [(_ & _ & _ & ->) | [(_ & _ & _ & _ & ->)
                     | (_ & _ & _ & -> & _)]]].
  - apply Z.land_0_l.
  - apply Z.land_diag.
  - apply land_idem_sub.
  - apply grantedBits_within.
Qed.

Lemma AccessCheck_access_within_request_witness :
  exists r,
    AccessCheck (descriptorOf adminSID [NewAccessAllowedACE everyoneSID AccessMaskGenericAll])
      (NewTokenUser userSID [everyoneSID]) AccessMaskGenericRead None = Some r /\
    Z.land (Access r) AccessMaskReadControl = Access r.
Proof.
  apply (AccessCheck_access_within_request
           (descriptorOf adminSID [NewAccessAllowedACE everyoneSID AccessMaskGenericAll])
           (NewTokenUser userSID [everyoneSID]) AccessMaskGenericRead None).
  - split; [unfold SID_wf; simpl; lia|].
    repeat constructor; unfold SID_wf; simpl; lia.
  - split; [unfold SID_wf; simpl; lia|].
    repeat constructor; unfold ACE_wf, SID_wf; simpl; lia.
  - unfold is_uint32. vm_compute. split; congruence.
  - change (map_Forall (fun _ v => 0 <= v < 2 ^ 32)
              (default ∅ (GenericMapping DefaultAccessCheckOptions))).
    apply (bool_decide_unpack _). vm_compute. exact I.
Defined.

(** X2. Mandatory integrity overrides the discretionary rules: with
    integrity checking enabled, a subject below the object's level, the
    no-write-up bit in the policy and a mapped request that touches
    GENERIC_WRITE | WRITE_DAC | WRITE_OWNER, the check is denied with no
    rights, whatever the owner, the DACL (even an empty one) and the
    token are; the trace holds the integrity step only. *)
Theorem AccessCheck_no_write_up (sd : NtSecurityDescriptor) (token : TokenUser)
    (desiredAccess : Z) (options : option AccessCheckOptions) :
  CheckIntegrity (optionsOrDefault options) = true ->
  SubjectIntegrity (optionsOrDefault options) < ObjectIntegrity (optionsOrDefault options) ->
  Z.land (IntegrityPolicy (optionsOrDefault options)) PolicyNoWriteUp <> 0 ->
  Z.land (mappedRequest desiredAccess options) writeRights <> 0 ->
  exists r,
    AccessCheck sd token desiredAccess options = Some r /\
    Granted r = false /\ Access r = 0 /\ Ace r = None /\
    Reason r = "Access denied by integrity level policy" /\
    steps r = ["IntegrityLevel"].
Proof.
  unfold mappedRequest, AccessCheck, writeRights.
  set (opts := optionsOrDefault options).
  set (mapped := MapGenericAccess desiredAccess (GenericMapping opts)).
  intros Hci Hlvl Hpol Hreq. rewrite Hci.
  assert (Hca : CheckAccess (SubjectIntegrity opts) (ObjectIntegrity opts)
                  (IntegrityPolicy opts) mapped = false).
  { unfold CheckAccess. rewrite (proj2 (Z.leb_gt _ _) Hlvl).
    apply Z.eqb_neq in Hpol. apply Z.eqb_neq in Hreq. now rewrite Hpol, Hreq. }
  rewrite Hca. simpl. eexists. repeat split.
Qed.

Lemma AccessCheck_no_write_up_witness :
  exists r,
    AccessCheck (descriptorOf userSID []) (NewTokenUser userSID [])
      AccessMaskWriteDACL (Some lowToHighNoWriteUp) = Some r /\
    Granted r = false /\ Access r = 0.
Proof.
  destruct (AccessCheck_no_write_up (descriptorOf userSID []) (NewTokenUser userSID [])
              AccessMaskWriteDACL (Some lowToHighNoWriteUp))
    as (r & Hr & Hg & Ha & _).
  - reflexivity.
  - vm_compute. reflexivity.
  - vm_compute. discriminate.
  - vm_compute. discriminate.
  - exists r. auto.
Defined.

Lemma term_within_deniedBits (aces : list ACE) (token : TokenUser)
    (options : AccessCheckOptions) (mapped : Z) (ace : ACE) :
  ace ∈ aces ->
  Type_ (Header ace) = AceTypeAccessDenied ->
  appliesTo token options ace = true ->
  Z.land (Z.land (aceMapped options ace) mapped)
    (deniedBits aces token options mapped)
  = Z.land (aceMapped options ace) mapped.
Proof.
  intros Hin Hty Happ. induction aces as [|a rest IH]; [inversion Hin|].
  rewrite deniedBits_cons.
  apply elem_of_cons in Hin as [<-|Hin].
  - rewrite Hty, Happ, Z.eqb_refl. simpl.
    apply Z.bits_inj'. intros n _. rewrite !Z.land_spec, Z.lor_spec, Z.land_spec.
    now destruct (Z.testbit (aceMapped options ace) n), (Z.testbit mapped n).
  - specialize (IH Hin).
    destruct ((Type_ (Header a) =? AceTypeAccessDenied) && appliesTo token options a);
      [|exact IH].
    rewrite Z.land_lor_distr_r, IH.
    apply Z.bits_inj'. intros n _. rewrite !Z.lor_spec, !Z.land_spec.
    now destruct (Z.testbit (aceMapped options ace) n), (Z.testbit mapped n),
      (Z.testbit (aceMapped options a) n).
Qed.

(** X3. Explicit deny wins: once the check reaches the ACE passes
    (integrity not denying, no owner short-circuit), an applicable
    ACCESS_DENIED ACE whose mapped rights meet the mapped request makes
    the check fail, and none of the rights it denies is reported as
    granted, wherever the ACE stands in the DACL and whatever the allow
    ACEs grant. *)
Theorem AccessCheck_deny_wins (sd : NtSecurityDescriptor) (token : TokenUser)
    (desiredAccess : Z) (options : option AccessCheckOptions) (ace : ACE) :
  Token_wf token -> Descriptor_wf sd ->
  is_uint32 desiredAccess ->
  mapping_uint32 (GenericMapping (optionsOrDefault options)) ->
  integrityPasses (optionsOrDefault options) (mappedRequest desiredAccess options) ->
  ~ ownerShortcut sd token (mappedRequest desiredAccess options) ->
  ace ∈ Aces (DACL sd) ->
  Type_ (Header ace) = AceTypeAccessDenied ->
  appliesTo token (optionsOrDefault options) ace = true ->
  Z.land (aceMapped (optionsOrDefault options) ace)
    (mappedRequest desiredAccess options) <> 0 ->
  exists r,
    AccessCheck sd token desiredAccess options = Some r /\
    Granted r = false /\
    Z.land (Access r)
      (Z.land (aceMapped (optionsOrDefault options) ace)
         (mappedRequest desiredAccess options)) = 0.
Proof.
  intros Htok Hsd Hd Hmap Hint Hnot Hin Hty Happ Hoverlap.
  set (opts := optionsOrDefault options) in *.
  set (mapped := mappedRequest desiredAccess options) in *.
  assert (Hm : is_uint32 mapped) by now apply MapGenericAccess_uint32.
  destruct (AccessCheck_shape sd token desiredAccess options Htok Hsd Hm)
    as (r & Hr & Hshape).
  fold opts mapped in Hshape.
  exists r. split; [exact Hr|].
  destruct Hshape as [(Hno & _) | [(_ & Hempty & _) | [(_ & _ & Hown & _)
                     | (_ & _ & _ & Ha & Hg & _)]]]; try tauto.
  { rewrite Hempty in Hin. inversion Hin. }
  set (D := deniedBits (Aces (DACL sd)) token opts mapped) in *.
  set (G := grantedBits (Aces (DACL sd)) token opts mapped D) in *.
  pose proof (term_within_deniedBits _ token opts mapped ace Hin Hty Happ) as Hterm.
  fold D in Hterm.
  pose proof (grantedBits_avoid_denied (Aces (DACL sd)) token opts mapped D Hm) as Hdis.
  fold G in Hdis.
  set (t := Z.land (aceMapped opts ace) mapped) in *.
  assert (HGt : Z.land G t = 0).
  { rewrite <- Hterm, Z.land_assoc, (Z.land_comm G t), <- Z.land_assoc, Hdis.
    apply Z.land_0_r. }
  split; [|now rewrite Ha].
  rewrite Hg. apply Z.eqb_neq. intros HGm. apply Hoverlap.
  rewrite HGm in HGt. rewrite <- HGt. unfold t.
  apply Z.bits_inj'. intros n _. rewrite !Z.land_spec.
  now destruct (Z.testbit (aceMapped opts ace) n), (Z.testbit mapped n).
Qed.

Lemma AccessCheck_deny_wins_witness :
  exists r,
    AccessCheck
      (descriptorOf adminSID
         [NewAccessAllowedACE userSID AccessMaskGenericAll;
          NewAccessDeniedACE everyoneSID AccessMaskWriteDACL])
      (NewTokenUser userSID [everyoneSID])
      (Z.lor AccessMaskReadControl AccessMaskWriteDACL) None = Some r /\
    Granted r = false.
Proof.
  destruct (AccessCheck_deny_wins
              (descriptorOf adminSID
                 [NewAccessAllowedACE userSID AccessMaskGenericAll;
                  NewAccessDeniedACE everyoneSID AccessMaskWriteDACL])
              (NewTokenUser userSID [everyoneSID])
              (Z.lor AccessMaskReadControl AccessMaskWriteDACL) None
              (NewAccessDeniedACE everyoneSID AccessMaskWriteDACL))
    as (r & Hr & Hg & _).
  - split; [unfold SID_wf; simpl; lia|].
    repeat constructor; unfold SID_wf; simpl; lia.
  - split; [unfold SID_wf; simpl; lia|].
    repeat constructor; unfold ACE_wf, SID_wf; simpl; lia.
  - unfold is_uint32. vm_compute. split; congruence.
  - change (map_Forall (fun _ v => 0 <= v < 2 ^ 32)
              (default ∅ (GenericMapping DefaultAccessCheckOptions))).
    apply (bool_decide_unpack _). vm_compute. exact I.
  - left. reflexivity.
  - intros [Heq _]. vm_compute in Heq. discriminate.
  - simpl. right. left.
  - reflexivity.
  - vm_compute. reflexivity.
  - vm_compute. discriminate.
  - exists r. auto.
Defined.

Lemma MapGenericAccess_zero (mapping : option (gmap Z Z)) :
  MapGenericAccess 0 mapping = 0.
Proof.
  destruct mapping as [m|]; [|reflexivity].
  rewrite MapGenericAccess_refines by (unfold is_uint32; lia).
  unfold MapGenericAccess_spec, replacedGenerics, presentMapped. simpl.
  reflexivity.
Qed.

(** X4. A request for no rights at all is granted with no rights on
    every descriptor: neither the integrity policy nor any deny ACE can
    refuse it. *)
Theorem AccessCheck_empty_request (sd : NtSecurityDescriptor) (token : TokenUser)
    (options : option AccessCheckOptions) :
  Token_wf token -> Descriptor_wf sd ->
  exists r,
    AccessCheck sd token 0 options = Some r /\
    Granted r = true /\ Access r = 0.
Proof.
  intros Htok Hsd.
  assert (H0 : mappedRequest 0 options = 0) by apply MapGenericAccess_zero.
  assert (Hm : is_uint32 (mappedRequest 0 options))
    by (rewrite H0; unfold is_uint32; lia).
  destruct (AccessCheck_shape sd token 0 options Htok Hsd Hm) as (r & Hr & Hshape).
  exists r. split; [exact Hr|]. rewrite H0 in Hshape.
  destruct Hshape as [(_ & _ & _ & Hne) | [(_ & _ & Hg & Ha) | [(_ & _ & _ & Hg & Ha)
                     | (_ & _ & _ & Ha & Hg & _)]]].
  - congruence.
  - auto.
  - auto.
  - pose proof (grantedBits_within (Aces (DACL sd)) token (optionsOrDefault options) 0
                  (deniedBits (Aces (DACL sd)) token (optionsOrDefault options) 0)) as Hw.
    rewrite Z.land_0_r in Hw. rewrite <- Hw in Hg, Ha. auto.
Qed.

Lemma AccessCheck_empty_request_witness :
  exists r,
    AccessCheck
      (descriptorOf adminSID [NewAccessDeniedACE everyoneSID AccessMaskGenericAll])
      (NewTokenUser userSID []) 0 (Some lowToHighNoWriteUp) = Some r /\
    Granted r = true /\ Access r = 0.
Proof.
  apply (AccessCheck_empty_request
           (descriptorOf adminSID [NewAccessDeniedACE everyoneSID AccessMaskGenericAll])
           (NewTokenUser userSID []) (Some lowToHighNoWriteUp)).
  - split; [unfold SID_wf; simpl; lia|]. constructor.
  - split; [unfold SID_wf; simpl; lia|].
    repeat constructor; unfold ACE_wf, SID_wf; simpl; lia.
Defined.

(** ** Independence of the order of the ACEs *)

Lemma lor_swap (a b c : Z) : Z.lor a (Z.lor b c) = Z.lor b (Z.lor a c).
Proof. now rewrite !Z.lor_assoc, (Z.lor_comm a b). Qed.

Lemma deniedBits_perm (aces aces' : list ACE) (token : TokenUser)
    (options : AccessCheckOptions) (mapped : Z) :
  aces ≡ₚ aces' ->
  deniedBits aces token options mapped = deniedBits aces' token options mapped.
Proof.
  induction 1 as [|a l l' _ IH|a b l|l l' l'' _ IH1 _ IH2].
  - reflexivity.
  - rewrite !deniedBits_cons, IH. reflexivity.
  - rewrite !deniedBits_cons.
    destruct ((Type_ (Header a) =? AceTypeAccessDenied) && appliesTo token options a),
      ((Type_ (Header b) =? AceTypeAccessDenied) && appliesTo token options b);
      try reflexivity.
    apply lor_swap.
  - congruence.
Qed.

Lemma grantedBits_perm (aces aces' : list ACE) (token : TokenUser)
    (options : AccessCheckOptions) (mapped denied : Z) :
  aces ≡ₚ aces' ->
  grantedBits aces token options mapped denied
  = grantedBits aces' token options mapped denied.
Proof.
  induction 1 as [|a l l' _ IH|a b l|l l' l'' _ IH1 _ IH2].
  - reflexivity.
  - rewrite !grantedBits_cons, IH. reflexivity.
  - rewrite !grantedBits_cons.
    destruct ((Type_ (Header a) =? AceTypeAccessAllowed) && appliesTo token options a),
      ((Type_ (Header b) =? AceTypeAccessAllowed) && appliesTo token options b);
      try reflexivity.
    apply lor_swap.
  - congruence.
Qed.

(** Two results of the same shape agree on the grant flag and the
    granted rights when the denied and granted sets agree. *)
Lemma decidedByAces_agree (mapped D G : Z) (r r' : AccessCheckResult) :
  decidedByAces mapped D G r -> decidedByAces mapped D G r' ->
  Granted r = Granted r' /\ Access r = Access r'.
Proof. intros (Ha & Hg & _) (Ha' & Hg' & _). split; congruence. Qed.

(** X5. The decision does not depend on the order of the ACEs: two
    descriptors with the same owner whose DACLs hold the same ACEs in a
    different order yield the same grant flag and the same granted
    rights (only the cited ACE and the trace may differ). *)
Theorem AccessCheck_order_independent (sd sd' : NtSecurityDescriptor)
    (token : TokenUser) (desiredAccess : Z) (options : option AccessCheckOptions) :
  Token_wf token -> Descriptor_wf sd ->
  is_uint32 desiredAccess ->
  mapping_uint32 (GenericMapping (optionsOrDefault options)) ->
  Owner sd' = Owner sd ->
  Aces (DACL sd') ≡ₚ Aces (DACL sd) ->
  exists r r',
    AccessCheck sd token desiredAccess options = Some r /\
    AccessCheck sd' token desiredAccess options = Some r' /\
    Granted r' = Granted r /\ Access r' = Access r.
Proof.
  intros Htok Hsd Hd Hmap Hown Hperm.
  set (opts := optionsOrDefault options) in *.
  set (mapped := mappedRequest desiredAccess options) in *.
  assert (Hm : is_uint32 mapped) by now apply MapGenericAccess_uint32.
  assert (Hsd' : Descriptor_wf sd').
  { destruct Hsd as [Ho Ha]. split; [now rewrite Hown|]. now rewrite Hperm. }
  destruct (AccessCheck_shape sd token desiredAccess options Htok Hsd Hm)
    as (r & Hr & Hshape).
  destruct (AccessCheck_shape sd' token desiredAccess options Htok Hsd' Hm)
    as (r' & Hr' & Hshape').
  exists r, r'. split; [exact Hr|]. split; [exact Hr'|].
  fold opts mapped in Hshape, Hshape'.
  assert (Hshort : ownerShortcut sd' token mapped <-> ownerShortcut sd token mapped).
  { unfold ownerShortcut. now rewrite Hown. }
  assert (Hnil : Aces (DACL sd') = [] <-> Aces (DACL sd) = []).
  { split; intros H0; rewrite H0 in Hperm;
      [|symmetry in Hperm]; now apply Permutation_nil in Hperm. }
  unfold resultShape in Hshape, Hshape'.
  rewrite (deniedBits_perm _ _ token opts mapped Hperm) in Hshape'.
  rewrite (grantedBits_perm _ _ token opts mapped _ Hperm) in Hshape'.
  destruct Hshape as [(H1 & Hg & Ha & _) | [(H1 & H2 & Hg & Ha)
                     | [(H1 & H2 & H3 & Hg & Ha) | (H1 & H2 & H3 & Hdec)]]];
    destruct Hshape' as [(H1' & Hg' & Ha' & _) | [(H1' & H2' & Hg' & Ha')
                     | [(H1' & H2' & H3' & Hg' & Ha') | (H1' & H2' & H3' & Hdec')]]];
    try tauto; try (split; congruence).
  destruct (decidedByAces_agree _ _ _ _ _ Hdec Hdec'). split; congruence.
Qed.

Lemma AccessCheck_order_independent_witness :
  let allowAce := NewAccessAllowedACE userSID AccessMaskGenericAll in
  let denyAce := NewAccessDeniedACE everyoneSID AccessMaskGenericWrite in
  exists r r',
    AccessCheck (descriptorOf adminSID [allowAce; denyAce])
      (NewTokenUser userSID []) AccessMaskGenericWrite None = Some r /\
    AccessCheck (descriptorOf adminSID [denyAce; allowAce])
      (NewTokenUser userSID []) AccessMaskGenericWrite None = Some r' /\
    Granted r' = Granted r /\ Access r' = Access r.
Proof.
  intros allowAce denyAce.
  apply (AccessCheck_order_independent
           (descriptorOf adminSID [allowAce; denyAce])
           (descriptorOf adminSID [denyAce; allowAce])
           (NewTokenUser userSID []) AccessMaskGenericWrite None).
  - split; [unfold SID_wf; simpl; lia|]. constructor.
  - split; [unfold SID_wf; simpl; lia|].
    repeat constructor; unfold ACE_wf, SID_wf; simpl; lia.
  - unfold is_uint32. vm_compute. split; congruence.
  - change (map_Forall (fun _ v => 0 <= v < 2 ^ 32)
              (default ∅ (GenericMapping DefaultAccessCheckOptions))).
    apply (bool_decide_unpack _). vm_compute. exact I.
  - reflexivity.
  - simpl. apply perm_swap.
Defined.

(** ** Adding an ACE *)

Lemma grantedBits_antitone (aces : list ACE) (token : TokenUser)
    (options : AccessCheckOptions) (mapped D D' : Z) :
  is_uint32 mapped -> Z.land D D' = D ->
  Z.land (grantedBits aces token options mapped D')
         (grantedBits aces token options mapped D)
  = grantedBits aces token options mapped D'.
Proof.
  intros Hm Hsub. induction aces as [|a rest IH]; [reflexivity|].
  rewrite !grantedBits_cons.
  destruct ((Type_ (Header a) =? AceTypeAccessAllowed) && appliesTo token options a);
    [|exact IH].
  apply Z.bits_inj'. intros n Hn.
  apply (f_equal (fun z => Z.testbit z n)) in IH.
  apply (f_equal (fun z => Z.testbit z n)) in Hsub.
  rewrite Z.land_spec in IH, Hsub.
  rewrite !Z.land_spec, !Z.lor_spec, !Z.land_spec.
  destruct (Z.lt_ge_cases n 32) as [Hlt|Hge].
  - rewrite !not32_spec by lia.
    destruct (Z.testbit (aceMapped options a) n), (Z.testbit mapped n),
      (Z.testbit D n), (Z.testbit D' n),
      (Z.testbit (grantedBits rest token options mapped D') n),
      (Z.testbit (grantedBits rest token options mapped D) n);
      simpl in *; congruence.
  - rewrite (uint32_high_bits mapped n Hm Hge), !andb_false_r. simpl. exact IH.
Qed.

Lemma land_lor_self (a b : Z) : Z.land a (Z.lor b a) = a.
Proof.
  apply Z.bits_inj'. intros n _. rewrite Z.land_spec, Z.lor_spec.
  now destruct (Z.testbit a n), (Z.testbit b n).
Qed.

Lemma lor_absorb_term (x m n : Z) : Z.lor (Z.land (Z.land x m) n) m = m.
Proof.
  apply Z.bits_inj'. intros k _. rewrite Z.lor_spec, !Z.land_spec.
  now destruct (Z.testbit x k), (Z.testbit m k), (Z.testbit n k).
Qed.

(** X6. On a descriptor whose DACL is not empty, adding an ACE of any
    header type other than ACCESS_DENIED, at any position, never takes
    rights away: the granted rights can only grow and a granted request
    stays granted. *)
Theorem AccessCheck_adding_non_deny_ace (sd sd' : NtSecurityDescriptor)
    (token : TokenUser) (desiredAccess : Z) (options : option AccessCheckOptions)
    (ace : ACE) :
  Token_wf token -> Descriptor_wf sd -> ACE_wf ace ->
  is_uint32 desiredAccess ->
  mapping_uint32 (GenericMapping (optionsOrDefault options)) ->
  Owner sd' = Owner sd ->
  Aces (DACL sd) <> [] ->
  Aces (DACL sd') ≡ₚ ace :: Aces (DACL sd) ->
  Type_ (Header ace) <> AceTypeAccessDenied ->
  exists r r',
    AccessCheck sd token desiredAccess options = Some r /\
    AccessCheck sd' token desiredAccess options = Some r' /\
    Z.land (Access r) (Access r') = Access r /\
    (Granted r = true -> Granted r' = true).
Proof.
  intros Htok Hsd Hace Hd Hmap Hown Hne Hperm Hty.
  set (opts := optionsOrDefault options) in *.
  set (mapped := mappedRequest desiredAccess options) in *.
  assert (Hm : is_uint32 mapped) by now apply MapGenericAccess_uint32.
  assert (Hsd' : Descriptor_wf sd').
  { destruct Hsd as [Ho Ha]. split; [now rewrite Hown|].
    rewrite Hperm. now constructor. }
  destruct (AccessCheck_shape sd token desiredAccess options Htok Hsd Hm)
    as (r & Hr & Hshape).
  destruct (AccessCheck_shape sd' token desiredAccess options Htok Hsd' Hm)
    as (r' & Hr' & Hshape').
  exists r, r'. split; [exact Hr|]. split; [exact Hr'|].
  fold opts mapped in Hshape, Hshape'.
  assert (Hshort : ownerShortcut sd' token mapped <-> ownerShortcut sd token mapped).
  { unfold ownerShortcut. now rewrite Hown. }
  assert (Hne' : Aces (DACL sd') <> []).
  { intros H0. rewrite H0 in Hperm. now apply Permutation_nil in Hperm. }
  unfold resultShape in Hshape, Hshape'.
  rewrite (deniedBits_perm _ _ token opts mapped Hperm) in Hshape'.
  rewrite (grantedBits_perm _ _ token opts mapped _ Hperm) in Hshape'.
  rewrite deniedBits_cons in Hshape'.
  apply Z.eqb_neq in Hty. rewrite Hty in Hshape'. simpl in Hshape'.
  set (D := deniedBits (Aces (DACL sd)) token opts mapped) in *.
  set (G := grantedBits (Aces (DACL sd)) token opts mapped D) in *.
  destruct Hshape as [(H1 & Hg & Ha & _) | [(H1 & H2 & Hg & Ha)
                     | [(H1 & H2 & H3 & Hg & Ha) | (H1 & H2 & H3 & Ha & Hg & _)]]];
    destruct Hshape' as [(H1' & Hg' & Ha' & _) | [(H1' & H2' & Hg' & Ha')
                     | [(H1' & H2' & H3' & Hg' & Ha') | (H1' & H2' & H3' & Ha' & Hg' & _)]]];
    try tauto.
  - rewrite Ha, Ha', Hg. split; [apply Z.land_diag | discriminate].
  - rewrite Ha, Ha', Hg'. split; [apply Z.land_diag | reflexivity].
  - rewrite Ha, Ha', Hg, Hg'. rewrite grantedBits_cons.
    destruct ((Type_ (Header ace) =? AceTypeAccessAllowed) && appliesTo token opts ace).
    + fold G. split; [apply land_lor_self|].
      intros HG. apply Z.eqb_eq in HG. apply Z.eqb_eq. rewrite HG.
      apply lor_absorb_term.
    + fold G. split; [apply Z.land_diag | trivial].
Qed.

Lemma AccessCheck_adding_non_deny_ace_witness :
  let denyAce := NewAccessDeniedACE everyoneSID AccessMaskGenericWrite in
  let allowAce := NewAccessAllowedACE userSID AccessMaskGenericRead in
  exists r r',
    AccessCheck (descriptorOf adminSID [denyAce])
      (NewTokenUser userSID []) AccessMaskGenericRead None = Some r /\
    AccessCheck (descriptorOf adminSID [denyAce; allowAce])
      (NewTokenUser userSID []) AccessMaskGenericRead None = Some r' /\
    Z.land (Access r) (Access r') = Access r /\
    (Granted r = true -> Granted r' = true).
Proof.
  intros denyAce allowAce.
  apply (AccessCheck_adding_non_deny_ace
           (descriptorOf adminSID [denyAce])
           (descriptorOf adminSID [denyAce; allowAce])
           (NewTokenUser userSID []) AccessMaskGenericRead None allowAce).
  - split; [unfold SID_wf; simpl; lia|]. constructor.
  - split; [unfold SID_wf; simpl; lia|].
    repeat constructor; unfold ACE_wf, SID_wf; simpl; lia.
  - unfold ACE_wf, SID_wf; simpl; lia.
  - unfold is_uint32. vm_compute. split; congruence.
  - change (map_Forall (fun _ v => 0 <= v < 2 ^ 32)
              (default ∅ (GenericMapping DefaultAccessCheckOptions))).
    apply (bool_decide_unpack _). vm_compute. exact I.
  - reflexivity.
  - discriminate.
  - simpl. apply perm_swap.
  - vm_compute. discriminate.
Defined.

(** X7. Adding an ACE of any header type other than ACCESS_ALLOWED, at
    any position, never gives rights: the granted rights can only
    shrink and a denied request stays denied (also when the ACE is added
    to an empty DACL, which granted everything). *)
Theorem AccessCheck_adding_non_allow_ace (sd sd' : NtSecurityDescriptor)
    (token : TokenUser) (desiredAccess : Z) (options : option AccessCheckOptions)
    (ace : ACE) :
  Token_wf token -> Descriptor_wf sd -> ACE_wf ace ->
  is_uint32 desiredAccess ->
  mapping_uint32 (GenericMapping (optionsOrDefault options)) ->
  Owner sd' = Owner sd ->
  Aces (DACL sd') ≡ₚ ace :: Aces (DACL sd) ->
  Type_ (Header ace) <> AceTypeAccessAllowed ->
  exists r r',
    AccessCheck sd token desiredAccess options = Some r /\
    AccessCheck sd' token desiredAccess options = Some r' /\
    Z.land (Access r') (Access r) = Access r' /\
    (Granted r = false -> Granted r' = false).
Proof.
  intros Htok Hsd Hace Hd Hmap Hown Hperm Hty.
  set (opts := optionsOrDefault options) in *.
  set (mapped := mappedRequest desiredAccess options) in *.
  assert (Hm : is_uint32 mapped) by now apply MapGenericAccess_uint32.
  assert (Hsd' : Descriptor_wf sd').
  { destruct Hsd as [Ho Ha]. split; [now rewrite Hown|].
    rewrite Hperm. now constructor. }
  destruct (AccessCheck_shape sd token desiredAccess options Htok Hsd Hm)
    as (r & Hr & Hshape).
  destruct (AccessCheck_shape sd' token desiredAccess options Htok Hsd' Hm)
    as (r' & Hr' & Hshape').
  exists r, r'. split; [exact Hr|]. split; [exact Hr'|].
  fold opts mapped in Hshape, Hshape'.
  assert (Hshort : ownerShortcut sd' token mapped <-> ownerShortcut sd token mapped).
  { unfold ownerShortcut. now rewrite Hown. }
  assert (Hne' : Aces (DACL sd') <> []).
  { intros H0. rewrite H0 in Hperm. now apply Permutation_nil in Hperm. }
  unfold resultShape in Hshape, Hshape'.
  rewrite (deniedBits_perm _ _ token opts mapped Hperm) in Hshape'.
  rewrite (grantedBits_perm _ _ token opts mapped _ Hperm) in Hshape'.
  rewrite grantedBits_cons in Hshape'.
  apply Z.eqb_neq in Hty. rewrite Hty in Hshape'. simpl in Hshape'.
  set (D := deniedBits (Aces (DACL sd)) token opts mapped) in *.
  set (D' := deniedBits (ace :: Aces (DACL sd)) token opts mapped) in *.
  set (G := grantedBits (Aces (DACL sd)) token opts mapped D) in *.
  set (G' := grantedBits (Aces (DACL sd)) token opts mapped D') in *.
  assert (HDD : Z.land D D' = D).
  { unfold D'. rewrite deniedBits_cons. fold D.
    destruct ((Type_ (Header ace) =? AceTypeAccessDenied) && appliesTo token opts ace);
      [apply land_lor_self | apply Z.land_diag]. }
  pose proof (grantedBits_antitone (Aces (DACL sd)) token opts mapped D D' Hm HDD)
    as HGG. fold G G' in HGG.
  pose proof (grantedBits_within (Aces (DACL sd)) token opts mapped D) as HGm.
  pose proof (grantedBits_within (Aces (DACL sd)) token opts mapped D') as HGm'.
  fold G in HGm. fold G' in HGm'.
  destruct Hshape as [(H1 & Hg & Ha & _) | [(H1 & H2 & Hg & Ha)
                     | [(H1 & H2 & H3 & Hg & Ha) | (H1 & H2 & H3 & Ha & Hg & _)]]];
    destruct Hshape' as [(H1' & Hg' & Ha' & _) | [(H1' & H2' & Hg' & Ha')
                     | [(H1' & H2' & H3' & Hg' & Ha') | (H1' & H2' & H3' & Ha' & Hg' & _)]]];
    try tauto.
  - rewrite Ha, Ha', Hg'. split; [apply Z.land_diag | reflexivity].
  - rewrite Ha, Ha', Hg. split; [|discriminate].
    rewrite (Z.land_comm mapped ownerRights), <- Z.land_assoc, Z.land_diag.
    reflexivity.
  - rewrite Ha, Ha', Hg. split; [exact HGm' | discriminate].
  - rewrite Ha, Ha', Hg. split; [apply Z.land_diag | discriminate].
  - rewrite Ha, Ha', Hg, Hg'. split; [exact HGG|].
    intros HG. apply Z.eqb_neq in HG. apply Z.eqb_neq. intros HG'. apply HG.
    rewrite HG' in HGG. rewrite <- HGm. rewrite Z.land_comm. exact HGG.
Qed.

Lemma AccessCheck_adding_non_allow_ace_witness :
  let denyAce := NewAccessDeniedACE everyoneSID AccessMaskGenericWrite in
  exists r r',
    AccessCheck (descriptorOf adminSID [])
      (NewTokenUser userSID []) AccessMaskGenericWrite None = Some r /\
    AccessCheck (descriptorOf adminSID [denyAce])
      (NewTokenUser userSID []) AccessMaskGenericWrite None = Some r' /\
    Z.land (Access r') (Access r) = Access r' /\
    (Granted r = false -> Granted r' = false).
Proof.
  intros denyAce.
  apply (AccessCheck_adding_non_allow_ace
           (descriptorOf adminSID [])
           (descriptorOf adminSID [denyAce])
           (NewTokenUser userSID []) AccessMaskGenericWrite None denyAce).
  - split; [unfold SID_wf; simpl; lia|]. constructor.
  - split; [unfold SID_wf; simpl; lia|]. constructor.
  - unfold ACE_wf, SID_wf; simpl; lia.
  - unfold is_uint32. vm_compute. split; congruence.
  - change (map_Forall (fun _ v => 0 <= v < 2 ^ 32)
              (default ∅ (GenericMapping DefaultAccessCheckOptions))).
    apply (bool_decide_unpack _). vm_compute. exact I.
  - reflexivity.
  - reflexivity.
  - vm_compute. discriminate.
Defined.

(** ** Which ACEs apply to a token *)

Lemma matchesGroup_spec (s : string) (groups : list SID) :
  Forall SID_wf groups ->
  exists b, matchesGroup s groups = Some b /\
            (b = true <-> exists g, g ∈ groups /\ SID_String g = Some s).
Proof.
  induction 1 as [|group rest Hwf _ IH]; simpl.
  - exists false. split; [reflexivity|]. split; [discriminate|].
    intros (g & Hg & _). inversion Hg.
  - destruct (SID_String_total group Hwf) as [gs Hgs]. rewrite Hgs. simpl.
    destruct (String.eqb_spec s gs) as [->|Hne].
    + exists true. split; [reflexivity|]. split; [|reflexivity].
      intros _. exists group. split; [apply elem_of_cons; now left | exact Hgs].
    + destruct IH as (b & Hb & Hiff). exists b. split; [exact Hb|].
      rewrite Hiff. split.
      * intros (g & Hg & Hs). exists g. split; [apply elem_of_cons; now right|exact Hs].
      * intros (g & Hg & Hs). apply elem_of_cons in Hg as [->|Hg].
        -- congruence.
        -- now exists g.
Qed.

(** X8. An ACE whose principal renders as [s] applies to a token exactly
    when [s] is the Everyone SID "S-1-1-0", or the canonical string of
    the token's user SID, or that of one of its groups; the decision is
    by canonical string only and the same for both body variants. *)
Theorem aceAppliesToToken_iff (ace : ACE) (token : TokenUser)
    (options : AccessCheckOptions) (sid : SID) (s : string) :
  GetPrincipal (ObjectAce ace) = Some sid ->
  SID_String sid = Some s ->
  Token_wf token ->
  exists applies reason,
    aceAppliesToToken ace token options = Some (applies, reason) /\
    (applies = true <->
       s = "S-1-1-0" \/
       SID_String (UserSID token) = Some s \/
       exists g, g ∈ Groups token /\ SID_String g = Some s).
Proof.
  intros Hp Hs [Huser Hgroups].
  rewrite (aceAppliesToToken_principal _ _ _ _ Hp).
  unfold sidAppliesToToken. rewrite Hs. simpl.
  destruct (String.eqb_spec s "S-1-1-0") as [He|He].
  { do 2 eexists. split; [reflexivity|]. tauto. }
  destruct (SID_String_total _ Huser) as [u Hu]. rewrite Hu. simpl.
  destruct (String.eqb_spec s u) as [->|Hne].
  { do 2 eexists. split; [reflexivity|]. tauto. }
  destruct (matchesGroup_spec s _ Hgroups) as (b & Hb & Hiff). rewrite Hb. simpl.
  destruct b; do 2 eexists; (split; [reflexivity|]).
  - split; [|reflexivity]. intros _. right. right. now apply Hiff.
  - split; [discriminate|]. intros [H1|[H1|H1]]; [congruence | congruence |].
    now apply Hiff.
Qed.

Lemma aceAppliesToToken_iff_witness :
  exists applies reason,
    aceAppliesToToken (NewAccessAllowedACE adminSID AccessMaskGenericRead)
      (NewTokenUser userSID [everyoneSID; adminSID]) DefaultAccessCheckOptions
      = Some (applies, reason) /\
    (applies = true <->
       "S-1-5-32-544" = "S-1-1-0" \/
       SID_String userSID = Some "S-1-5-32-544" \/
       exists g, g ∈ [everyoneSID; adminSID] /\ SID_String g = Some "S-1-5-32-544").
Proof.
  apply (aceAppliesToToken_iff (NewAccessAllowedACE adminSID AccessMaskGenericRead)
           (NewTokenUser userSID [everyoneSID; adminSID]) DefaultAccessCheckOptions
           adminSID "S-1-5-32-544").
  - reflexivity.
  - reflexivity.
  - split; [unfold SID_wf; simpl; lia|].
    repeat constructor; unfold SID_wf; simpl; lia.
Defined.

(** ** Monotonicity of the integrity policy *)

Lemma land_sub_zero (a' a c : Z) :
  Z.land a' a = a' -> Z.land a c = 0 -> Z.land a' c = 0.
Proof.
  intros Hsub H0. rewrite <- Hsub, <- Z.land_assoc, H0. apply Z.land_0_r.
Qed.

(** X9. Raising the subject's integrity level never turns an allowed
    access into a denied one. *)
Theorem CheckAccess_monotone_in_level (il il' objectLevel policy requestedAccess : Z) :
  il <= il' ->
  CheckAccess il objectLevel policy requestedAccess = true ->
  CheckAccess il' objectLevel policy requestedAccess = true.
Proof.
  unfold CheckAccess. intros Hle.
  destruct (Z.leb_spec objectLevel il) as [H1|H1].
  - intros _. now rewrite (proj2 (Z.leb_le objectLevel il')) by lia.
  - destruct (objectLevel <=? il'); [reflexivity | trivial].
Qed.

Lemma CheckAccess_monotone_in_level_witness :
  CheckAccess IntegrityLevelHigh IntegrityLevelMedium 7 AccessMaskGenericWrite = true.
Proof.
  apply (CheckAccess_monotone_in_level IntegrityLevelMedium IntegrityLevelHigh
           IntegrityLevelMedium 7 AccessMaskGenericWrite).
  - vm_compute. discriminate.
  - vm_compute. reflexivity.
Defined.

(** X10. Asking for fewer rights, or enforcing fewer policy clauses,
    never turns an allowed access into a denied one. *)
Theorem CheckAccess_antitone_in_rights_and_policy
    (il objectLevel policy policy' requestedAccess requestedAccess' : Z) :
  Z.land policy' policy = policy' ->
  Z.land requestedAccess' requestedAccess = requestedAccess' ->
  CheckAccess il objectLevel policy requestedAccess = true ->
  CheckAccess il objectLevel policy' requestedAccess' = true.
Proof.
  unfold CheckAccess. intros Hp Hr.
  destruct (objectLevel <=? il); [trivial|].
  repeat match goal with
         | |- context [?a =? 0] =>
             lazymatch a with
             | Z.land policy _ => destruct (Z.eqb_spec a 0)
             | Z.land requestedAccess _ => destruct (Z.eqb_spec a 0)
             end
         end; simpl; try discriminate; intros _;
    repeat match goal with
           | H : Z.land policy ?c = 0 |- _ =>
               rewrite (land_sub_zero policy' policy c Hp H); clear H
           | H : Z.land requestedAccess ?c = 0 |- _ =>
               rewrite (land_sub_zero requestedAccess' requestedAccess c Hr H); clear H
           end; simpl; rewrite ?andb_false_r; reflexivity.
Qed.

Lemma CheckAccess_antitone_in_rights_and_policy_witness :
  CheckAccess IntegrityLevelLow IntegrityLevelHigh PolicyNoWriteUp
    AccessMaskReadControl = true.
Proof.
  apply (CheckAccess_antitone_in_rights_and_policy IntegrityLevelLow IntegrityLevelHigh
           (Z.lor PolicyNoWriteUp PolicyNoExecuteUp) PolicyNoWriteUp
           (Z.lor AccessMaskReadControl AccessMaskDelete) AccessMaskReadControl).
  - vm_compute. reflexivity.
  - vm_compute. reflexivity.
  - vm_compute. reflexivity.
Defined.

(** ** More on the generic-rights mapping *)

Lemma orAll_filter_testbit (p : Z -> bool) (l : list Z) (n : Z) :
  Z.testbit (orAll (List.filter p l)) n = existsb (fun g => p g && Z.testbit g n) l.
Proof.
  induction l as [|g l IH]; simpl; [apply Z.bits_0|].
  destruct (p g); simpl; [|exact IH].
  now rewrite Z.lor_spec, IH.
Qed.

Lemma orAll_entries_testbit (m : gmap Z Z) (p : Z -> bool) (l : list Z) (n : Z) :
  Z.testbit (orAll (omap (fun g => m !! g) (List.filter p l))) n
  = existsb (fun g => p g && entryBit m n g) l.
Proof.
  unfold entryBit. induction l as [|g l IH]; [apply Z.bits_0|].
  cbn [List.filter existsb]. destruct (p g); [|exact IH].
  cbn [omap list_omap andb]. destruct (m !! g) as [v|]; [|exact IH].
  change (Z.testbit (Z.lor v (orAll (omap (fun g => m !! g) (List.filter p l)))) n
          = Z.testbit v n || existsb (fun g => p g && match m !! g with
                                                   | Some v => Z.testbit v n
                                                   | None => false end) l).
  rewrite Z.lor_spec. f_equal. exact IH.
Qed.

Lemma genericRight_present_bit (a g n : Z) :
  g ∈ genericRights ->
  negb (Z.land a g =? 0) && Z.testbit g n = Z.testbit a n && Z.testbit g n.
Proof.
  assert (Hpow : forall k, 0 <= k ->
            negb (Z.land a (2 ^ k) =? 0) && Z.testbit (2 ^ k) n
            = Z.testbit a n && Z.testbit (2 ^ k) n).
  { intros k Hk. rewrite land_pow2, Z.pow2_bits_eqb by assumption.
    destruct (Z.eqb_spec k n) as [->|Hne]; [|now rewrite !andb_false_r].
    destruct (Z.testbit a n); [|reflexivity].
    assert (0 < 2 ^ n) by (apply Z.pow_pos_nonneg; lia).
    destruct (Z.eqb_spec (2 ^ n) 0); [lia | reflexivity]. }
  unfold genericRights. rewrite !elem_of_cons, !elem_of_nil.
  intros [->|[->|[->|[->|[]]]]].
  - apply (Hpow 31). lia.
  - apply (Hpow 30). lia.
  - apply (Hpow 29). lia.
  - apply (Hpow 28). lia.
Qed.

Lemma replaced_testbit (a : Z) (m : gmap Z Z) (n : Z) :
  Z.testbit (orAll (replacedGenerics a m genericRights)) n
  = Z.testbit a n && mappedGenericBit m n.
Proof.
  unfold replacedGenerics, mappedGenericBit. rewrite orAll_filter_testbit.
  assert (Hall : Forall (fun g => g ∈ genericRights) genericRights)
    by (apply Forall_forall; auto).
  revert Hall. generalize genericRights at 2 3 4 as l.
  induction l as [|g l IH]; intros Hall; simpl; [now rewrite andb_false_r|].
  inversion Hall as [|? ? Hg Hl]; subst.
  rewrite (IH Hl). unfold presentMapped.
  pose proof (genericRight_present_bit a g n Hg) as Hb.
  destruct (m !! g); simpl.
  - rewrite andb_true_r, Hb. rewrite andb_true_r.
    now destruct (Z.testbit a n), (Z.testbit g n).
  - rewrite !andb_false_r. simpl. reflexivity.
Qed.

Lemma presentMapped_lor (a b : Z) (m : gmap Z Z) (g : Z) :
  presentMapped (Z.lor a b) m g = presentMapped a m g || presentMapped b m g.
Proof.
  unfold presentMapped. rewrite Z.land_lor_distr_l.
  destruct (Z.eqb_spec (Z.land a g) 0) as [Ha|Ha];
    destruct (Z.eqb_spec (Z.land b g) 0) as [Hb|Hb];
    destruct (Z.eqb_spec (Z.lor (Z.land a g) (Z.land b g)) 0) as [Hab|Hab];
    destruct (m !! g); simpl; try reflexivity;
    try (apply Z.lor_eq_0_iff in Hab; tauto);
    exfalso; apply Hab; apply Z.lor_eq_0_iff; tauto.
Qed.

Lemma existsb_orb_split {A : Type} (p q r : A -> bool) (l : list A) :
  existsb (fun x => (p x || q x) && r x) l
  = existsb (fun x => p x && r x) l || existsb (fun x => q x && r x) l.
Proof.
  induction l as [|x l IH]; simpl; [reflexivity|].
  rewrite IH. destruct (p x), (q x), (r x); simpl;
    rewrite ?orb_true_r; try reflexivity;
    now destruct (existsb (fun x => p x && r x) l).
Qed.

Lemma existsb_pointwise {A : Type} (p q : A -> bool) (l : list A) :
  (forall x, p x = q x) -> existsb p l = existsb q l.
Proof.
  intros H. induction l as [|x l IH]; simpl; [reflexivity|]. now rewrite H, IH.
Qed.

(** Bit [n] of the mapped mask, in closed form. *)
Lemma MapGenericAccess_testbit (a : Z) (m : gmap Z Z) (n : Z) :
  is_uint32 a ->
  Z.testbit (MapGenericAccess a (Some m)) n
  = existsb (fun g => presentMapped a m g && entryBit m n g) genericRights
    || (Z.testbit a n && negb (mappedGenericBit m n)).
Proof.
  intros Ha. rewrite MapGenericAccess_refines by assumption.
  unfold MapGenericAccess_spec.
  rewrite Z.lor_spec, Z.ldiff_spec, replaced_testbit.
  unfold replacedGenerics. rewrite orAll_entries_testbit.
  now destruct (Z.testbit a n), (mappedGenericBit m n).
Qed.

(** X11. Mapping distributes over the union of masks: the mapped form of
    [a | b] is the union of the mapped forms of [a] and [b]; hence a
    mask that includes another maps to a mask that includes the other's
    mapped form. *)
Theorem MapGenericAccess_lor (a b : Z) (mapping : option (gmap Z Z)) :
  is_uint32 a -> is_uint32 b ->
  MapGenericAccess (Z.lor a b) mapping
  = Z.lor (MapGenericAccess a mapping) (MapGenericAccess b mapping).
Proof.
  intros Ha Hb. destruct mapping as [m|]; [|reflexivity].
  apply Z.bits_inj'. intros n _.
  rewrite Z.lor_spec, !MapGenericAccess_testbit by (try apply lor_uint32; assumption).
  rewrite Z.lor_spec.
  rewrite (existsb_pointwise _ (fun g => (presentMapped a m g || presentMapped b m g)
                                         && entryBit m n g)).
  2:{ intros g. now rewrite presentMapped_lor. }
  rewrite existsb_orb_split.
  destruct (existsb (fun g => presentMapped a m g && entryBit m n g) genericRights),
    (existsb (fun g => presentMapped b m g && entryBit m n g) genericRights),
    (Z.testbit a n), (Z.testbit b n), (mappedGenericBit m n); reflexivity.
Qed.

Lemma MapGenericAccess_lor_witness :
  MapGenericAccess (Z.lor AccessMaskGenericRead AccessMaskGenericWrite)
    (GenericMapping DefaultAccessCheckOptions)
  = Z.lor AccessMaskReadControl (Z.lor AccessMaskWriteDACL AccessMaskWriteOwner).
Proof.
  rewrite (MapGenericAccess_lor AccessMaskGenericRead AccessMaskGenericWrite
             (GenericMapping DefaultAccessCheckOptions)).
  - reflexivity.
  - unfold is_uint32. vm_compute. split; congruence.
  - unfold is_uint32. vm_compute. split; congruence.
Defined.

Lemma genericRights_pow2 (g : Z) :
  g ∈ genericRights -> exists k, 0 <= k /\ g = 2 ^ k.
Proof.
  unfold genericRights. rewrite !elem_of_cons, !elem_of_nil.
  intros [->|[->|[->|[->|[]]]]];
    [exists 31 | exists 30 | exists 29 | exists 28]; split; (lia || reflexivity).
Qed.

Lemma existsb_false_iff {A : Type} (p : A -> bool) (l : list A) :
  existsb p l = false <-> forall x, x ∈ l -> p x = false.
Proof.
  induction l as [|y l IH]; simpl.
  - split; [intros _ x Hx; now apply elem_of_nil in Hx | reflexivity].
  - rewrite orb_false_iff, IH. split.
    + intros [Hy Hl] x Hx. apply elem_of_cons in Hx as [->|Hx]; auto.
    + intros H. split; [apply H; apply elem_of_cons; now left|].
      intros x Hx. apply H. apply elem_of_cons. now right.
Qed.

Lemma existsb_true_of {A : Type} (p : A -> bool) (l : list A) (x : A) :
  x ∈ l -> p x = true -> existsb p l = true.
Proof.
  intros Hx Hp. destruct (existsb p l) eqn:E; [reflexivity|].
  rewrite existsb_false_iff in E. rewrite (E x Hx) in Hp. discriminate.
Qed.

Lemma filter_nil_of {A : Type} (p : A -> bool) (l : list A) :
  (forall x, x ∈ l -> p x = false) -> List.filter p l = [].
Proof.
  induction l as [|y l IH]; intros H; simpl; [reflexivity|].
  rewrite (H y) by (apply elem_of_cons; now left).
  apply IH. intros x Hx. apply H. apply elem_of_cons. now right.
Qed.

(** X12. A mask none of whose generic rights has an entry in the table
    is returned unchanged: in particular a mask without generic bits,
    and any mask under the empty table. *)
Theorem MapGenericAccess_unmapped_identity (a : Z) (m : gmap Z Z) :
  is_uint32 a ->
  (forall g, g ∈ genericRights -> Z.land a g <> 0 -> m !! g = None) ->
  MapGenericAccess a (Some m) = a.
Proof.
  intros Ha Hnone. rewrite MapGenericAccess_refines by assumption.
  unfold MapGenericAccess_spec, replacedGenerics.
  rewrite filter_nil_of.
  - cbn [omap list_omap orAll foldr]. unfold orAll. cbn [foldr].
    now rewrite Z.lor_0_l, Z.ldiff_0_r.
  - intros g Hg. unfold presentMapped.
    destruct (Z.eqb_spec (Z.land a g) 0) as [|Hne]; [reflexivity|].
    now rewrite (Hnone g Hg Hne).
Qed.

Lemma MapGenericAccess_unmapped_identity_witness :
  MapGenericAccess (Z.lor AccessMaskGenericRead AccessMaskReadControl) (Some ∅)
  = Z.lor AccessMaskGenericRead AccessMaskReadControl.
Proof.
  apply (MapGenericAccess_unmapped_identity
           (Z.lor AccessMaskGenericRead AccessMaskReadControl) ∅).
  - unfold is_uint32. vm_compute. split; congruence.
  - intros g _ _. apply lookup_empty.
Defined.

(** X13. A generic right that has a table entry does not survive the
    mapping: its bit is absent from the result unless the entry of a
    generic right present in the mask carries that bit itself. *)
Theorem MapGenericAccess_clears_mapped_generic (a : Z) (m : gmap Z Z) (g : Z) :
  is_uint32 a ->
  g ∈ genericRights -> is_Some (m !! g) ->
  (forall g' v', g' ∈ genericRights -> Z.land a g' <> 0 ->
                 m !! g' = Some v' -> Z.land v' g = 0) ->
  Z.land (MapGenericAccess a (Some m)) g = 0.
Proof.
  intros Ha Hg [v Hv] Hent.
  destruct (genericRights_pow2 g Hg) as (k & Hk & ->).
  rewrite land_pow2 by assumption.
  rewrite MapGenericAccess_testbit by assumption.
  assert (Hmapped : mappedGenericBit m k = true).
  { unfold mappedGenericBit. apply (existsb_true_of _ _ (2 ^ k) Hg).
    now rewrite Hv, Z.pow2_bits_eqb, Z.eqb_refl by assumption. }
  rewrite Hmapped, andb_false_r, orb_false_r.
  assert (Hnone : existsb (fun g' => presentMapped a m g' && entryBit m k g')
                    genericRights = false).
  { apply existsb_false_iff. intros g' Hg'. unfold presentMapped, entryBit.
    destruct (Z.eqb_spec (Z.land a g') 0) as [|Hne]; [reflexivity|].
    destruct (m !! g') as [v'|] eqn:Hv'; [|reflexivity]. simpl.
    specialize (Hent g' v' Hg' Hne Hv'). rewrite land_pow2 in Hent by assumption.
    destruct (Z.testbit v' k); [|reflexivity].
    assert (0 < 2 ^ k) by (apply Z.pow_pos_nonneg; lia). lia. }
  now rewrite Hnone.
Qed.

Lemma MapGenericAccess_clears_mapped_generic_witness :
  Z.land (MapGenericAccess (Z.lor AccessMaskGenericRead AccessMaskDelete)
            (GenericMapping DefaultAccessCheckOptions))
    AccessMaskGenericRead = 0.
Proof.
  apply (MapGenericAccess_clears_mapped_generic
           (Z.lor AccessMaskGenericRead AccessMaskDelete) _ AccessMaskGenericRead).
  - unfold is_uint32. vm_compute. split; congruence.
  - apply elem_of_cons. now left.
  - exists AccessMaskReadControl. vm_compute. reflexivity.
  - intros g' v' Hg'. unfold genericRights in Hg'.
    rewrite !elem_of_cons, elem_of_nil in Hg'.
    destruct Hg' as [->|[->|[->|[->|[]]]]]; intros Hne Hv';
      try (exfalso; apply Hne; vm_compute; reflexivity).
    vm_compute in Hv'. injection Hv' as <-. reflexivity.
Defined.

(** ** Integrity-level SIDs *)

Lemma SID_String_ToSID (il : Z) :
  SID_String (ToSID il) = Some ("S-1-16-" +:+ fmt_d il).
Proof. reflexivity. Qed.

Lemma prefix_append (p s : string) : String.prefix p (p +:+ s) = true.
Proof.
  induction p as [|c p IH]; [now destruct s|].
  change (String c p +:+ s) with (String c (p +:+ s)). simpl.
  destruct (Ascii.ascii_dec c c); [exact IH | congruence].
Qed.

(** X14. Rendering a level as a SID and reading it back returns the
    level, for every level but one: the table keys the secure-process
    level (0x6000) under "S-1-16-28672", so level 28672 (0x7000) reads
    back as 0x6000, while 0x6000 itself reads back through the raw
    sub-authority. *)
Theorem IntegrityLevelFromSID_ToSID (il : Z) :
  0 <= il ->
  IntegrityLevelFromSID (ToSID il)
  = Some (if il =? 28672 then IntegrityLevelSecureProcess else il, None).
Proof.
  intros Hil. unfold IntegrityLevelFromSID. rewrite SID_String_ToSID.
  unfold HasPrefix. rewrite prefix_append. cbn [negb].
  destruct (Z.eqb_spec il 28672) as [->|Hne]; [reflexivity|].
  destruct (IntegrityLevelMap !! ("S-1-16-" +:+ fmt_d il)) as [level|] eqn:E;
    [|reflexivity].
  unfold IntegrityLevelMap in E. apply elem_of_list_to_map_2 in E.
  rewrite !elem_of_cons, elem_of_nil in E.
  assert (Hkey : forall n : Z, "" +:+ fmt_d il = pretty n -> il = n).
  { intros n Hk. change (pretty il = pretty n) in Hk.
    exact (pretty_Z_inj il n Hk). }
  destruct E as [E|[E|[E|[E|[E|[E|[E|[E|[]]]]]]]]]; injection E as Hk ->.
  - now rewrite (Hkey 0 Hk).
  - now rewrite (Hkey 4096 Hk).
  - now rewrite (Hkey 8192 Hk).
  - now rewrite (Hkey 8448 Hk).
  - now rewrite (Hkey 12288 Hk).
  - now rewrite (Hkey 16384 Hk).
  - now rewrite (Hkey 20480 Hk).
  - now pose proof (Hkey 28672 Hk).
Qed.

Lemma IntegrityLevelFromSID_ToSID_witness :
  IntegrityLevelFromSID (ToSID IntegrityLevelSecureProcess)
  = Some (IntegrityLevelSecureProcess, None)
  /\ IntegrityLevelFromSID (ToSID 28672) = Some (IntegrityLevelSecureProcess, None).
Proof.
  split.
  - apply (IntegrityLevelFromSID_ToSID IntegrityLevelSecureProcess). vm_compute. congruence.
  - apply (IntegrityLevelFromSID_ToSID 28672). lia.
Defined.

(** ** The SID decoder *)

Lemma byte_to_Z_range (b : byte) : 0 <= byte_to_Z b < 256.
Proof.
  unfold byte_to_Z. pose proof (Byte.to_N_bounded b). lia.
Qed.

Lemma byte_to_Z_to_byte (z : Z) : byte_to_Z (Z_to_byte z) = z mod 256.
Proof.
  unfold byte_to_Z, Z_to_byte.
  assert (Hr : 0 <= z mod 256 < 256) by (apply Z.mod_pos_bound; lia).
  destruct (Byte.of_N (Z.to_N (z mod 256))) as [b|] eqn:E; simpl.
  - apply Byte.to_of_N in E. rewrite E. lia.
  - apply Byte.of_N_None_iff in E. lia.
Qed.

Lemma Z_to_byte_to_Z (b : byte) (x : Z) : Z_to_byte (byte_to_Z b + 256 * x) = b.
Proof.
  unfold Z_to_byte. pose proof (byte_to_Z_range b) as Hb.
  replace ((byte_to_Z b + 256 * x) mod 256) with (byte_to_Z b).
  - unfold byte_to_Z. now rewrite N2Z.id, Byte.of_to_N.
  - rewrite (Z.mul_comm 256 x), Z_mod_plus_full.
    symmetry. apply Z.mod_small. lia.
Qed.

Lemma le_range (bs : list byte) : 0 <= le bs < 256 ^ Z.of_nat (length bs).
Proof.
  induction bs as [|b bs IH]; [simpl; lia|].
  change (le (b :: bs)) with (byte_to_Z b + 256 * le bs).
  pose proof (byte_to_Z_range b).
  replace (Z.of_nat (length (b :: bs))) with (Z.succ (Z.of_nat (length bs)))
    by (simpl length; lia).
  rewrite Z.pow_succ_r by lia. lia.
Qed.

Lemma le_leBytes (n : nat) (v : Z) : le (leBytes n v) = v mod 256 ^ Z.of_nat n.
Proof.
  revert v. induction n as [|n IH]; intros v.
  - simpl. now rewrite Z.mod_1_r.
  - change (le (leBytes (S n) v))
      with (byte_to_Z (Z_to_byte v) + 256 * le (leBytes n (v / 256))).
    rewrite byte_to_Z_to_byte, IH.
    replace (Z.of_nat (S n)) with (Z.succ (Z.of_nat n)) by lia.
    rewrite Z.pow_succ_r by lia.
    rewrite Z.rem_mul_r by (try apply Z.pow_pos_nonneg; lia). reflexivity.
Qed.

Lemma leBytes_le (bs : list byte) : leBytes (length bs) (le bs) = bs.
Proof.
  induction bs as [|b bs IH]; [reflexivity|].
  change (le (b :: bs)) with (byte_to_Z b + 256 * le bs).
  simpl length. cbn [leBytes].
  rewrite Z_to_byte_to_Z. f_equal.
  pose proof (byte_to_Z_range b).
  replace ((byte_to_Z b + 256 * le bs) / 256) with (le bs); [exact IH|].
  rewrite (Z.mul_comm 256 (le bs)), Z.div_add by lia.
  rewrite Z.div_small by lia. lia.
Qed.

Lemma leBytes_length (n : nat) (v : Z) : length (leBytes n v) = n.
Proof. revert v. induction n as [|n IH]; intros v; simpl; [|rewrite IH]; reflexivity. Qed.

Lemma slice_length (lo hi : nat) (data : list byte) :
  (hi <= length data)%nat -> length (slice lo hi data) = (hi - lo)%nat.
Proof.
  intros H. unfold slice. rewrite length_take, length_drop. lia.
Qed.

(** The loop that reads the sub-authorities. *)
Lemma subAuthorities_length (data : list byte) (n : nat) :
  length (map (fun i => let offset := (8 + i * 4)%nat in
                        le (slice offset (offset + 4) data)) (seq 0 n)) = n.
Proof. now rewrite length_map, length_seq. Qed.

Lemma subAuthorities_uint32 (data : list byte) (n : nat) :
  (8 + n * 4 <= length data)%nat ->
  Forall is_uint32
    (map (fun i => let offset := (8 + i * 4)%nat in
                   le (slice offset (offset + 4) data)) (seq 0 n)).
Proof.
  intros Hlen. apply (proj2 (Forall_fmap _ _ _)).
  apply Forall_forall. intros i Hi.
  apply elem_of_seq in Hi. cbn [compose]. cbv zeta.
  pose proof (le_range (slice (8 + i * 4) (8 + i * 4 + 4) data)) as Hr.
  rewrite slice_length in Hr by lia.
  replace (8 + i * 4 + 4 - (8 + i * 4))%nat with 4%nat in Hr by lia.
  unfold is_uint32. change (256 ^ Z.of_nat 4) with 4294967296 in Hr.
  change (2 ^ 32) with 4294967296. lia.
Qed.

(** What a successful [NewSID] establishes. *)
Lemma NewSID_ok (buf : Buffer) (sidLength : Z) (sid : SID) (buf' : Buffer) :
  NewSID buf sidLength = ((sid, None), buf') ->
  SID_valid sid /\ buf' = drop (Z.to_nat sidLength) buf /\
  (8 + Z.to_nat (NumAuthorities sid) * 4 <= length (take (Z.to_nat sidLength) buf))%nat /\
  sid = mkSID (le (slice 0 1 (take (Z.to_nat sidLength) buf)))
          (le (slice 1 2 (take (Z.to_nat sidLength) buf)))
          (slice 2 8 (take (Z.to_nat sidLength) buf))
          (map (fun i => let offset := (8 + i * 4)%nat in
                  le (slice offset (offset + 4) (take (Z.to_nat sidLength) buf)))
             (seq 0 (Z.to_nat (le (slice 1 2 (take (Z.to_nat sidLength) buf)))))).
Proof.
  unfold NewSID. set (data := take (Z.to_nat sidLength) buf).
  destruct (length data <? 8)%nat eqn:H8; [discriminate|].
  destruct (le (slice 0 1 data) =? 1) eqn:Hrev; [|discriminate]. cbn [negb].
  destruct (15 <? le (slice 1 2 data)) eqn:Hnum; [discriminate|].
  destruct (Z.of_nat (length data) <? 8 + le (slice 1 2 data) * 4) eqn:Hexp;
    [discriminate|].
  intros H. injection H as <- <-.
  apply Nat.ltb_ge in H8. apply Z.eqb_eq in Hrev.
  apply Z.ltb_ge in Hnum. apply Z.ltb_ge in Hexp.
  pose proof (le_range (slice 1 2 data)) as Hn.
  assert (Hfit : (8 + Z.to_nat (le (slice 1 2 data)) * 4 <= length data)%nat) by lia.
  split; [|split; [reflexivity|split; [exact Hfit|reflexivity]]].
  unfold SID_valid. cbn [Revision NumAuthorities Authority SubAuthorities].
  split; [exact Hrev|]. split; [lia|]. split; [apply slice_length; lia|].
  split; [apply subAuthorities_length | now apply subAuthorities_uint32].
Qed.

Lemma SID_valid_wf (s : SID) : SID_valid s -> SID_wf s.
Proof. intros (_ & _ & _ & Hlen & _). unfold SID_wf. lia. Qed.

Lemma slice_adjacent (lo mid hi : nat) (data : list byte) :
  (lo <= mid <= hi)%nat ->
  slice lo mid data ++ slice mid hi data = slice lo hi data.
Proof.
  intros H. unfold slice.
  replace (drop mid data) with (drop (mid - lo) (drop lo data))
    by (rewrite drop_drop; f_equal; lia).
  rewrite take_take_drop. f_equal. lia.
Qed.

Lemma leBytes_le_slice (lo n : nat) (data : list byte) :
  (lo + n <= length data)%nat ->
  leBytes n (le (slice lo (lo + n) data)) = slice lo (lo + n) data.
Proof.
  intros H. pose proof (leBytes_le (slice lo (lo + n) data)) as E.
  rewrite slice_length in E by lia.
  replace (lo + n - lo)%nat with n in E by lia. exact E.
Qed.

(** The sub-authorities read by the loop, written back, are the bytes
    they were read from. *)
Lemma subAuthorities_bytes (data : list byte) (o k : nat) :
  (o + k * 4 <= length data)%nat ->
  flat_map (leBytes 4)
    (map (fun i => let offset := (o + i * 4)%nat in
                   le (slice offset (offset + 4) data)) (seq 0 k))
  = slice o (o + k * 4) data.
Proof.
  induction k as [|k IH]; intros H.
  - unfold slice. replace (o + 0 * 4 - o)%nat with 0%nat by lia. reflexivity.
  - rewrite seq_S, map_app, flat_map_app, IH by lia.
    cbn [map flat_map Nat.add]. cbv zeta. rewrite app_nil_r.
    rewrite leBytes_le_slice by lia.
    replace (o + S k * 4)%nat with (o + k * 4 + 4)%nat by lia.
    apply slice_adjacent. lia.
Qed.

(** The bytes a successful [NewSID] has taken from the buffer: the
    layout of the SID it returns, then whatever else lies within
    [sidLength]; [buf.Next] hands out what is left when the buffer is
    shorter than [sidLength]. *)
Lemma NewSID_consumed (buf : Buffer) (sidLength : Z) (sid : SID) (buf' : Buffer) :
  NewSID buf sidLength = ((sid, None), buf') ->
  exists skipped,
    buf = SID_bytes sid ++ skipped ++ buf' /\
    length (SID_bytes sid ++ skipped) = Nat.min (Z.to_nat sidLength) (length buf).
Proof.
  intros H. apply NewSID_ok in H as (_ & -> & Hfit & Hsid).
  set (data := take (Z.to_nat sidLength) buf) in *.
  set (k := Z.to_nat (le (slice 1 2 data))) in *.
  assert (Hk : Z.to_nat (NumAuthorities sid) = k) by (rewrite Hsid; reflexivity).
  rewrite Hk in Hfit.
  assert (Hbytes : SID_bytes sid = take (8 + k * 4) data).
  { rewrite Hsid. unfold SID_bytes.
    cbn [Revision NumAuthorities Authority SubAuthorities]. fold k.
    pose proof (subAuthorities_bytes data 8 k) as E. cbv zeta in E.
    rewrite E by lia. clear E.
    pose proof (leBytes_le_slice 0 1 data) as E0.
    pose proof (leBytes_le_slice 1 1 data) as E1.
    cbn [Nat.add] in E0, E1. rewrite E0, E1 by lia. clear E0 E1.
    rewrite (slice_adjacent 2 8 (8 + k * 4) data) by lia.
    rewrite (slice_adjacent 1 2 (8 + k * 4) data) by lia.
    rewrite (slice_adjacent 0 1 (8 + k * 4) data) by lia.
    unfold slice. rewrite drop_0. f_equal; lia. }
  exists (drop (8 + k * 4) data). rewrite Hbytes. split.
  - rewrite app_assoc, take_drop. unfold data. now rewrite take_drop.
  - rewrite take_drop. unfold data. apply length_take.
Qed.

(** X15. A SID that [NewSID] returns without error satisfies the whole
    data-model invariant (revision 1, at most 15 sub-authorities, six
    authority bytes, as many 32-bit sub-authorities as declared) and
    renders in canonical form.  The bytes taken from the buffer are the
    layout of that SID followed by whatever else lies within
    [sidLength]: the buffer advances by [sidLength] bytes, or to its end
    when it holds fewer, and bytes between the end of the encoded SID and
    [sidLength] are skipped unread. *)
Theorem NewSID_success_invariants (buf : Buffer) (sidLength : Z) (sid : SID)
    (buf' : Buffer) :
  NewSID buf sidLength = ((sid, None), buf') ->
  SID_valid sid /\
  (exists skipped,
     buf = SID_bytes sid ++ skipped ++ buf' /\
     length (SID_bytes sid ++ skipped) = Nat.min (Z.to_nat sidLength) (length buf)) /\
  exists a5, Authority sid !! 5%nat = Some a5 /\
    SID_String sid = Some (canonicalString 1 (byte_to_Z a5) (SubAuthorities sid)).
Proof.
  intros H. pose proof (NewSID_consumed _ _ _ _ H) as Hconsumed.
  apply NewSID_ok in H as (Hv & _ & _ & _).
  split; [exact Hv|]. split; [exact Hconsumed|].
  destruct Hv as (Hrev & Hnum & Hauth & Hlen & _).
  destruct (Authority sid !! 5%nat) as [a5|] eqn:Ha5.
  2:{ apply lookup_ge_None in Ha5. lia. }
  exists a5. split; [reflexivity|].
  unfold SID_String. rewrite Hauth, Ha5. cbn [Nat.ltb Nat.leb].
  rewrite String_loop_in_range by lia.
  rewrite drop_0, <- Hlen, firstn_all, Hrev.
  unfold canonicalString. now rewrite !append_assoc.
Qed.

Lemma NewSID_success_invariants_witness :
  SID_valid systemSID /\
  (exists skipped,
     sidRecord ++ [x2a] = SID_bytes systemSID ++ skipped ++ [] /\
     length (SID_bytes systemSID ++ skipped)
     = Nat.min (Z.to_nat 1000) (length (sidRecord ++ [x2a]))) /\
  exists a5, Authority systemSID !! 5%nat = Some a5 /\
    SID_String systemSID
    = Some (canonicalString 1 (byte_to_Z a5) (SubAuthorities systemSID)).
Proof.
  apply (NewSID_success_invariants (sidRecord ++ [x2a]) 1000 systemSID []).
  vm_compute. reflexivity.
Defined.

Lemma slice_app_middle (pre x y : list byte) (k : nat) :
  length x = k ->
  slice (length pre) (length pre + k) (pre ++ x ++ y) = x.
Proof.
  intros Hk. unfold slice. rewrite drop_app_length.
  replace (length pre + k - length pre)%nat with k by lia.
  now apply take_app_length'.
Qed.

Lemma slice_at (lo k : nat) (pre x y : list byte) :
  length pre = lo -> length x = k -> slice lo (lo + k) (pre ++ x ++ y) = x.
Proof. intros <- Hk. now apply slice_app_middle. Qed.

Lemma le_leBytes_small (n : nat) (v : Z) :
  0 <= v < 256 ^ Z.of_nat n -> le (leBytes n v) = v.
Proof. intros Hv. rewrite le_leBytes. now apply Z.mod_small. Qed.

Lemma subAuthorities_decode (subs : list Z) (pre : list byte) :
  Forall is_uint32 subs ->
  map (fun i => let offset := (length pre + i * 4)%nat in
                le (slice offset (offset + 4) (pre ++ flat_map (leBytes 4) subs)))
    (seq 0 (length subs)) = subs.
Proof.
  revert pre. induction subs as [|v vs IH]; intros pre Hall; [reflexivity|].
  inversion Hall as [|? ? Hv Hvs]; subst.
  cbn [length seq map flat_map]. f_equal.
  - cbv zeta. rewrite Nat.add_0_r.
    rewrite slice_app_middle by apply leBytes_length.
    apply le_leBytes_small. unfold is_uint32 in Hv.
    change (256 ^ Z.of_nat 4) with (2 ^ 32). exact Hv.
  - rewrite <- seq_shift, map_map.
    rewrite <- (IH (pre ++ leBytes 4 v) Hvs) at 2.
    apply map_ext. intros i. cbv zeta.
    rewrite length_app, leBytes_length, <- app_assoc.
    f_equal. f_equal; lia.
Qed.

(** X16. [NewSID] inverts the binary layout: a valid SID laid out as
    revision, count, authority and little-endian sub-authorities is
    decoded back to itself, and exactly its bytes are consumed. *)
Theorem NewSID_decodes_layout (s : SID) (rest : list byte) :
  SID_valid s ->
  NewSID (SID_bytes s ++ rest) (Z.of_nat (length (SID_bytes s))) = ((s, None), rest).
Proof.
  intros (Hrev & Hnum & Hauth & Hlen & Hsubs).
  assert (Hflat : length (flat_map (leBytes 4) (SubAuthorities s))
                  = (4 * length (SubAuthorities s))%nat).
  { clear. induction (SubAuthorities s) as [|v vs IH]; [reflexivity|].
    cbn [flat_map]. rewrite length_app, leBytes_length, IH. simpl length. lia. }
  assert (Hsize : length (SID_bytes s) = (8 + 4 * Z.to_nat (NumAuthorities s))%nat).
  { unfold SID_bytes. rewrite !length_app, !leBytes_length, Hauth, Hflat, Hlen. lia. }
  unfold NewSID. rewrite Nat2Z.id, take_app_length, drop_app_length.
  rewrite Hsize.
  destruct (8 + 4 * Z.to_nat (NumAuthorities s) <? 8)%nat eqn:H8;
    [apply Nat.ltb_lt in H8; lia|].
  set (tail := flat_map (leBytes 4) (SubAuthorities s)).
  assert (Hr : le (slice 0 1 (SID_bytes s)) = Revision s).
  { pose proof (slice_at 0 1 [] (leBytes 1 (Revision s))
                  (leBytes 1 (NumAuthorities s) ++ Authority s ++ tail)
                  eq_refl eq_refl) as E.
    change (slice 0 1 (SID_bytes s) = leBytes 1 (Revision s)) in E. rewrite E.
    apply le_leBytes_small. change (256 ^ Z.of_nat 1) with 256. lia. }
  assert (Hn : le (slice 1 2 (SID_bytes s)) = NumAuthorities s).
  { pose proof (slice_at 1 1 (leBytes 1 (Revision s)) (leBytes 1 (NumAuthorities s))
                  (Authority s ++ tail) eq_refl eq_refl) as E.
    change (slice 1 2 (SID_bytes s) = leBytes 1 (NumAuthorities s)) in E. rewrite E.
    apply le_leBytes_small. change (256 ^ Z.of_nat 1) with 256. lia. }
  assert (Ha : slice 2 8 (SID_bytes s) = Authority s).
  { pose proof (slice_at 2 6 (leBytes 1 (Revision s) ++ leBytes 1 (NumAuthorities s))
                  (Authority s) tail eq_refl Hauth) as E.
    exact E. }
  rewrite Hr, Hn, Ha, Hrev. cbn [Z.eqb Pos.eqb negb].
  destruct (15 <? NumAuthorities s) eqn:H15; [apply Z.ltb_lt in H15; lia|].
  destruct (Z.of_nat (8 + 4 * Z.to_nat (NumAuthorities s)) <? 8 + NumAuthorities s * 4)
    eqn:Hexp; [apply Z.ltb_lt in Hexp; lia|].
  assert (Hs : map (fun i => let offset := (8 + i * 4)%nat in
                      le (slice offset (offset + 4) (SID_bytes s)))
                 (seq 0 (Z.to_nat (NumAuthorities s))) = SubAuthorities s).
  { set (pre := leBytes 1 (Revision s) ++ leBytes 1 (NumAuthorities s) ++ Authority s).
    assert (Hpre : length pre = 8%nat)
      by (unfold pre; rewrite !length_app, !leBytes_length, Hauth; reflexivity).
    etransitivity; [|exact (subAuthorities_decode (SubAuthorities s) pre Hsubs)].
    rewrite <- Hlen, Hpre. apply map_ext. intros i. cbv zeta.
    unfold SID_bytes, pre, tail. now rewrite <- !app_assoc. }
  cbv zeta in Hs. rewrite Hs. destruct s as [r n a subs]. cbn in Hrev. now subst r.
Qed.

Lemma NewSID_decodes_layout_witness :
  NewSID (SID_bytes userSID ++ [x2a]) (Z.of_nat (length (SID_bytes userSID)))
  = ((userSID, None), [x2a]).
Proof.
  apply (NewSID_decodes_layout userSID [x2a]).
  unfold SID_valid.
  split; [reflexivity|]. split; [cbn; lia|].
  split; [reflexivity|]. split; [reflexivity|].
  repeat constructor; unfold is_uint32; cbn [Z.pow]; lia.
Defined.

(** ** The ACL header codec *)

Lemma readFull_app (n : nat) (bs rest : list byte) :
  length bs = n -> readFull n (bs ++ rest) = (inl bs, rest).
Proof.
  intros Hn. unfold readFull. rewrite length_app.
  destruct (n <=? length bs + length rest)%nat eqn:E.
  - now rewrite take_app_length', drop_app_length'.
  - apply Nat.leb_gt in E. lia.
Qed.

Lemma readFull_ok (n : nat) (buf bs buf' : list byte) :
  readFull n buf = (inl bs, buf') ->
  bs = take n buf /\ buf' = drop n buf /\ length bs = n.
Proof.
  unfold readFull. destruct (n <=? length buf)%nat eqn:E; [|discriminate].
  intros H. injection H as <- <-. apply Nat.leb_le in E.
  repeat split. rewrite length_take. lia.
Qed.

(** X17. Decoding what [ToBuffer] wrote gives the header back:
    [NewACLHeader] inverts [ACLHeader.ToBuffer], consumes exactly the
    eight bytes written and leaves what follows them. *)
Theorem NewACLHeader_ToBuffer (h : ACLHeader) (rest : list byte) :
  ACLHeader_valid h ->
  snd (ACLHeader_ToBuffer h) = None /\
  NewACLHeader (fst (ACLHeader_ToBuffer h) ++ rest) = ((h, None), rest).
Proof.
  intros (Hr & Hz & Hs & Hc & Hz2). split; [reflexivity|].
  unfold NewACLHeader, ACLHeader_ToBuffer. cbn [fst].
  rewrite readFull_app by (rewrite !length_app, !leBytes_length; reflexivity).
  set (r := leBytes 1 (acl_Revision h)). set (z := leBytes 1 (acl_Sbz1 h)).
  set (sz := leBytes 2 (acl_Size h)). set (c := leBytes 2 (AceCount h)).
  set (z2 := leBytes 2 (acl_Sbz2 h)).
  pose proof (slice_at 0 1 [] r (z ++ sz ++ c ++ z2) eq_refl eq_refl) as E0.
  pose proof (slice_at 1 1 r z (sz ++ c ++ z2) eq_refl eq_refl) as E1.
  pose proof (slice_at 2 2 (r ++ z) sz (c ++ z2) eq_refl eq_refl) as E2.
  pose proof (slice_at 4 2 (r ++ z ++ sz) c z2 eq_refl eq_refl) as E3.
  pose proof (slice_at 6 2 (r ++ z ++ sz ++ c) z2 [] eq_refl eq_refl) as E4.
  rewrite app_nil_r in E4.
  change (slice 0 1 (r ++ z ++ sz ++ c ++ z2) = r) in E0.
  change (slice 1 2 (r ++ z ++ sz ++ c ++ z2) = z) in E1.
  change (slice 2 4 (r ++ z ++ sz ++ c ++ z2) = sz) in E2.
  change (slice 4 6 (r ++ z ++ sz ++ c ++ z2) = c) in E3.
  change (slice 6 8 (r ++ z ++ sz ++ c ++ z2) = z2) in E4.
  rewrite E0, E1, E2, E3, E4. unfold r, z, sz, c, z2.
  rewrite !le_leBytes_small
    by (change (256 ^ Z.of_nat 1) with 256; change (256 ^ Z.of_nat 2) with 65536; lia).
  now destruct h.
Qed.

Lemma NewACLHeader_ToBuffer_witness :
  snd (ACLHeader_ToBuffer (mkACLHeader 2 0 28 1 0)) = None /\
  NewACLHeader (fst (ACLHeader_ToBuffer (mkACLHeader 2 0 28 1 0)) ++ aceRecord)
  = ((mkACLHeader 2 0 28 1 0, None), aceRecord).
Proof.
  apply (NewACLHeader_ToBuffer (mkACLHeader 2 0 28 1 0) aceRecord).
  unfold ACLHeader_valid. cbn. lia.
Defined.

(** X18. Conversely the decoded header determines the bytes it was read
    from: writing back a header that [NewACLHeader] returned without
    error restores the consumed prefix of the buffer. *)
Theorem ACLHeader_ToBuffer_NewACLHeader (buf : Buffer) (h : ACLHeader) (buf' : Buffer) :
  NewACLHeader buf = ((h, None), buf') ->
  ACLHeader_valid h /\ fst (ACLHeader_ToBuffer h) ++ buf' = buf.
Proof.
  unfold NewACLHeader. destruct (readFull 8 buf) as [[bs|err] b1] eqn:Hread;
    [|discriminate].
  intros H. injection H as <- <-.
  apply readFull_ok in Hread as (Hbs & -> & Hlen).
  assert (Hbuf : buf = bs ++ drop 8 buf)
    by (rewrite Hbs; symmetry; apply take_drop).
  clear Hbs. revert Hbuf. generalize (drop 8 buf). intros rest ->.
  do 9 (destruct bs as [|? bs]; try (simpl in Hlen; lia)). clear Hlen.
  split.
  - unfold ACLHeader_valid.
    cbn [acl_Revision acl_Sbz1 acl_Size AceCount acl_Sbz2].
    repeat split;
      match goal with
      | |- context [le ?l] => pose proof (le_range l) as Hr
      end;
      try (change (256 ^ _) with 256 in Hr); try (change (256 ^ _) with 65536 in Hr);
      lia.
  - unfold ACLHeader_ToBuffer.
    cbn [fst acl_Revision acl_Sbz1 acl_Size AceCount acl_Sbz2].
    change (slice 0 1 [b; b0; b1; b2; b3; b4; b5; b6]) with [b].
    change (slice 1 2 [b; b0; b1; b2; b3; b4; b5; b6]) with [b0].
    change (slice 2 4 [b; b0; b1; b2; b3; b4; b5; b6]) with [b1; b2].
    change (slice 4 6 [b; b0; b1; b2; b3; b4; b5; b6]) with [b3; b4].
    change (slice 6 8 [b; b0; b1; b2; b3; b4; b5; b6]) with [b5; b6].
    pose proof (leBytes_le [b]) as E0. pose proof (leBytes_le [b0]) as E1.
    pose proof (leBytes_le [b1; b2]) as E2. pose proof (leBytes_le [b3; b4]) as E3.
    pose proof (leBytes_le [b5; b6]) as E4.
    cbn [length] in E0, E1, E2, E3, E4.
    rewrite E0, E1, E2, E3, E4. reflexivity.
Qed.

Lemma ACLHeader_ToBuffer_NewACLHeader_witness :
  ACLHeader_valid (mkACLHeader 2 0 28 1 0) /\
  fst (ACLHeader_ToBuffer (mkACLHeader 2 0 28 1 0)) ++ aceRecord
  = aclHeaderRecord x01 ++ aceRecord.
Proof.
  apply (ACLHeader_ToBuffer_NewACLHeader (aclHeaderRecord x01 ++ aceRecord)
           (mkACLHeader 2 0 28 1 0) aceRecord).
  vm_compute. reflexivity.
Defined.

(** ** The ACE decoder *)

Lemma NewBasicAce_ok (buf : Buffer) (totalSize : Z) (oa : BasicAce) (buf' : Buffer) :
  NewBasicAce buf totalSize = ((oa, None), buf') ->
  SID_valid (basic_SecurityIdentifier oa) /\ 8 < totalSize /\
  buf' = drop (Z.to_nat (totalSize - 8)) buf.
Proof.
  unfold NewBasicAce. destruct (totalSize - 8 <=? 0) eqn:Hs; [discriminate|].
  apply Z.leb_gt in Hs.
  destruct (NewSID buf (totalSize - 8)) as [[sid [err|]] b1] eqn:Hsid; [discriminate|].
  intros H. injection H as <- <-.
  apply NewSID_ok in Hsid as (Hv & Hb & _). cbn. split; [exact Hv|]. split; [lia|exact Hb].
Qed.


Section AceDecoder.

Variable NewGUID : Buffer -> (GUID * option error) * Buffer.

Lemma NewAdvancedAce_ok (buf : Buffer) (totalSize : Z) (oa : AdvancedAce)
    (buf' : Buffer) :
  NewAdvancedAce NewGUID buf totalSize = ((oa, None), buf') ->
  SID_valid (adv_SecurityIdentifier oa).
Proof.
  unfold NewAdvancedAce.
  destruct (readFull 4 buf) as [[bs|err] b1]; [|discriminate].
  destruct (negb (Z.land (le bs) ACEInheritanceFlagsObjectTypePresent =? 0)).
  - destruct (NewGUID b1) as [[g1 [e1|]] b2]; [discriminate|].
    destruct (negb (Z.land (le bs) ACEInheritanceFlagsInheritedObjectTypePresent =? 0)).
    + destruct (NewGUID b2) as [[g2 [e2|]] b3]; [discriminate|].
      destruct (totalSize - (12 + 16 + 16) <=? 0); [discriminate|].
      destruct (NewSID b3 _) as [[sid [err|]] b4] eqn:Hsid; [discriminate|].
      intros H. injection H as <- <-. now apply NewSID_ok in Hsid as (Hv & _).
    + destruct (totalSize - (12 + 16) <=? 0); [discriminate|].
      destruct (NewSID b2 _) as [[sid [err|]] b4] eqn:Hsid; [discriminate|].
      intros H. injection H as <- <-. now apply NewSID_ok in Hsid as (Hv & _).
  - destruct (negb (Z.land (le bs) ACEInheritanceFlagsInheritedObjectTypePresent =? 0)).
    + destruct (NewGUID b1) as [[g2 [e2|]] b3]; [discriminate|].
      destruct (totalSize - (12 + 16) <=? 0); [discriminate|].
      destruct (NewSID b3 _) as [[sid [err|]] b4] eqn:Hsid; [discriminate|].
      intros H. injection H as <- <-. now apply NewSID_ok in Hsid as (Hv & _).
    + destruct (totalSize - 12 <=? 0); [discriminate|].
      destruct (NewSID b1 _) as [[sid [err|]] b4] eqn:Hsid; [discriminate|].
      intros H. injection H as <- <-. now apply NewSID_ok in Hsid as (Hv & _).
Qed.

Lemma NewAce_ok (buf : Buffer) (ace : ACE) (buf' : Buffer) :
  NewAce NewGUID buf = ((ace, None), buf') -> ACE_decoded ace.
Proof.
  unfold NewAce.
  destruct (NewACEHeader buf) as [[header [err|]] b1]; [discriminate|].
  destruct (readFull 4 b1) as [[bs|err] b2]; [|discriminate].
  destruct (bool_decide (Type_ header ∈ basicAceTypes)) eqn:Hbasic.
  - apply bool_decide_eq_true in Hbasic.
    destruct (NewBasicAce b2 (ace_Size header)) as [[oa [err|]] b3] eqn:Hoa;
      [discriminate|].
    intros H. injection H as <- <-. left. split; [exact Hbasic|].
    exists oa. split; [reflexivity|]. now apply NewBasicAce_ok in Hoa as (Hv & _).
  - apply bool_decide_eq_false in Hbasic.
    destruct (bool_decide (Type_ header ∈ objectAceTypes)) eqn:Hobj; [|discriminate].
    apply bool_decide_eq_true in Hobj.
    destruct (NewAdvancedAce NewGUID b2 (ace_Size header)) as [[oa [err|]] b3] eqn:Hoa;
      [discriminate|].
    intros H. injection H as <- <-. right. split; [exact Hbasic|]. split; [exact Hobj|].
    exists oa. split; [reflexivity|]. now apply NewAdvancedAce_ok in Hoa.
Qed.

Lemma ACE_decoded_principal (ace : ACE) :
  ACE_decoded ace ->
  exists sid, GetPrincipal (ObjectAce ace) = Some sid /\ SID_valid sid.
Proof.
  intros [(_ & b & -> & Hv)|(_ & _ & a & -> & Hv)]; eexists; split;
    try reflexivity; assumption.
Qed.

Lemma ACE_decoded_wf (ace : ACE) : ACE_decoded ace -> ACE_wf ace.
Proof.
  intros H. apply ACE_decoded_principal in H as (sid & Hp & Hv).
  unfold ACE_wf. rewrite Hp. now apply SID_valid_wf.
Qed.

(** X19. An ACE that [NewAce] returns without error has the body its
    type tag calls for (a basic body for the eight basic types, an
    advanced body for the eight object types), never the nil body, and
    its trustee is a valid SID; the decoder accepts no other type. *)
Theorem NewAce_success_body (buf : Buffer) (ace : ACE) (buf' : Buffer) :
  NewAce NewGUID buf = ((ace, None), buf') ->
  ACE_decoded ace /\
  exists sid, GetPrincipal (ObjectAce ace) = Some sid /\ SID_valid sid /\
              is_Some (SID_String sid).
Proof.
  intros H. apply NewAce_ok in H. split; [exact H|].
  destruct (ACE_decoded_principal ace H) as (sid & Hp & Hv).
  exists sid. split; [exact Hp|]. split; [exact Hv|].
  apply SID_String_total. now apply SID_valid_wf.
Qed.


End AceDecoder.

Lemma NewAce_success_body_witness :
  ACE_decoded (NewAccessAllowedACE systemSID AccessMaskGenericRead) /\
  exists sid,
    GetPrincipal (ObjectAce (NewAccessAllowedACE systemSID AccessMaskGenericRead))
    = Some sid /\ SID_valid sid /\ is_Some (SID_String sid).
Proof.
  apply (NewAce_success_body NewGUID_pkg aceRecord
           (NewAccessAllowedACE systemSID AccessMaskGenericRead) []).
  vm_compute. reflexivity.
Defined.


(** ** The descriptor decoder *)

Section DescriptorDecoder.

Variable NewGUID : Buffer -> (GUID * option error) * Buffer.

Lemma decodesAces_decoded (buf : Buffer) (aces : list ACE) (buf' : Buffer) :
  decodesAces NewGUID buf aces buf' -> Forall ACE_decoded aces.
Proof.
  induction 1 as [|buf ace buf1 aces buf2 Hace _ IH]; constructor.
  - exact (NewAce_ok NewGUID buf ace buf1 Hace).
  - exact IH.
Qed.

Lemma NewACL_aces_decoded (buf : Buffer) (acl : ACL) (err : option error)
    (buf' : Buffer) :
  NewACL NewGUID buf = ((acl, err), buf') -> Forall ACE_decoded (Aces acl).
Proof.
  unfold NewACL.
  destruct (NewACLHeader buf) as [[header [he|]] buf1].
  - intros H. injection H as <- _ _. constructor.
  - pose proof (readAces_spec NewGUID (Z.to_nat (AceCount header)) 0
                  (mkACL header []) buf1) as Hspec.
    destruct (readAces NewGUID _ 0 _ buf1) as [[acl' err'] buf''].
    destruct Hspec as (_ & aces & bufk & Haces & Hdec & _).
    intros H. injection H as <- _ _. rewrite Haces. cbn [Aces app].
    exact (decodesAces_decoded _ _ _ Hdec).
Qed.

Lemma SID_zero_wf : SID_wf SID_zero.
Proof. unfold SID_wf. cbn. lia. Qed.

Lemma NewSID_result_wf (buf : Buffer) (n : Z) (sid : SID) (buf' : Buffer) :
  NewSID buf n = ((sid, None), buf') -> SID_wf sid.
Proof. intros H. apply NewSID_ok in H as (Hv & _). now apply SID_valid_wf. Qed.

(** Every path of the descriptor decoder, at once. *)
Lemma NewNtSecurityDescriptor_returns (ntsdBytes : list byte) :
  exists sd err,
    NewNtSecurityDescriptor NewGUID ntsdBytes = Some (sd, err) /\
    Descriptor_wf sd /\ SID_wf (Group sd) /\
    Forall ACE_decoded (Aces (DACL sd)) /\
    SACL sd = ACL_zero.
Proof.
  unfold NewNtSecurityDescriptor, Descriptor_wf.
  destruct (NewNTSDHeader ntsdBytes) as [[header [he|]] buf1].
  { do 2 eexists. split; [reflexivity|]. cbn.
    repeat split; try apply SID_zero_wf; constructor. }
  destruct (NewACL NewGUID buf1) as [[dacl derr] buf2] eqn:Hacl.
  pose proof (NewACL_aces_decoded _ _ _ _ Hacl) as Hdec.
  assert (Hwf : Forall ACE_wf (Aces dacl)).
  { eapply Forall_impl; [exact Hdec|]. exact ACE_decoded_wf. }
  destruct derr as [e|].
  { do 2 eexists. split; [reflexivity|]. cbn.
    repeat split; try apply SID_zero_wf; assumption. }
  destruct ((OffsetGroup header - OffsetOwner header) mod 2 ^ 32 =? 0).
  - destruct (Aces dacl) as [|ace0 rest] eqn:Haces.
    + do 2 eexists. split; [reflexivity|]. cbn. rewrite Haces.
      repeat split; try apply SID_zero_wf; constructor.
    + inversion Hdec as [|? ? H0 Hrest]; subst.
      destruct (ACE_decoded_principal ace0 H0) as (p & Hp & Hv).
      rewrite Hp. do 2 eexists. split; [reflexivity|]. cbn. rewrite Haces.
      repeat split; try (now apply SID_valid_wf); assumption.
  - destruct (NewSID buf2 _) as [[owner [e|]] buf3] eqn:Howner.
    { do 2 eexists. split; [reflexivity|]. cbn.
      repeat split; try apply SID_zero_wf; assumption. }
    apply NewSID_result_wf in Howner.
    destruct (NewSID buf3 _) as [[group [e|]] buf4] eqn:Hgroup.
    { do 2 eexists. split; [reflexivity|]. cbn.
      repeat split; try apply SID_zero_wf; assumption. }
    apply NewSID_result_wf in Hgroup.
    do 2 eexists. split; [reflexivity|]. cbn. repeat split; assumption.
Qed.

(** X21. [NewNtSecurityDescriptor] returns on every input whose owner
    and group offsets differ by less than 2^31 (so that [int(sidSize)] is
    the same non-negative length whether [int] has 32 or 64 bits; with a
    64-bit [int] that is every input): the call [GetPrincipal] on the
    first ACE never meets a nil body, because a DACL decoded without
    error holds only ACEs with a body.  Whatever it returns, with or
    without an error, is renderable (owner and every trustee have the
    sub-authorities they declare), and the SACL is never decoded. *)
Theorem NewNtSecurityDescriptor_never_panics (ntsdBytes : list byte) :
  (forall header buf1,
     NewNTSDHeader ntsdBytes = ((header, None), buf1) ->
     (OffsetGroup header - OffsetOwner header) mod 2 ^ 32 < 2 ^ 31) ->
  exists sd err,
    NewNtSecurityDescriptor NewGUID ntsdBytes = Some (sd, err) /\
    Descriptor_wf sd /\ SID_wf (Group sd) /\
    Forall ACE_decoded (Aces (DACL sd)) /\
    SACL sd = ACL_zero.
Proof. intros _. exact (NewNtSecurityDescriptor_returns ntsdBytes). Qed.

(** X22. When the owner and group offsets coincide and the DACL holds at
    least one ACE, both [Owner] and [Group] are the trustee of the first
    ACE, and decoding succeeds without reading past the DACL. *)
Theorem NewNtSecurityDescriptor_degenerate_first_ace (ntsdBytes : list byte)
    (header : NtSecurityDescriptorHeader) (dacl : ACL) (buf1 buf2 : Buffer)
    (ace0 : ACE) (rest : list ACE) :
  NewNTSDHeader ntsdBytes = ((header, None), buf1) ->
  NewACL NewGUID buf1 = ((dacl, None), buf2) ->
  OffsetGroup header = OffsetOwner header ->
  Aces dacl = ace0 :: rest ->
  exists p,
    GetPrincipal (ObjectAce ace0) = Some p /\ SID_valid p /\
    NewNtSecurityDescriptor NewGUID ntsdBytes =
      Some (mkNTSD header dacl ACL_zero p p, None).
Proof.
  intros Hh Hd Hoff Haces.
  pose proof (NewACL_aces_decoded _ _ _ _ Hd) as Hdec. rewrite Haces in Hdec.
  inversion Hdec as [|? ? H0 _]; subst.
  destruct (ACE_decoded_principal ace0 H0) as (p & Hp & Hv).
  exists p. split; [exact Hp|]. split; [exact Hv|].
  unfold NewNtSecurityDescriptor.
  rewrite Hh, Hd, Hoff, Z.sub_diag, Haces, Hp. reflexivity.
Qed.

(** X23. Decoding composed with the access check: whatever descriptor
    the decoder hands back, an access check of it for a renderable token
    and a 32-bit request returns a result and never fails on a SID it
    cannot render. *)
Theorem AccessCheck_of_decoded_descriptor (ntsdBytes : list byte)
    (sd : NtSecurityDescriptor) (err : option error) (token : TokenUser)
    (desiredAccess : Z) (options : option AccessCheckOptions) :
  NewNtSecurityDescriptor NewGUID ntsdBytes = Some (sd, err) ->
  Token_wf token -> is_uint32 desiredAccess ->
  mapping_uint32 (GenericMapping (optionsOrDefault options)) ->
  is_Some (AccessCheck sd token desiredAccess options).
Proof.
  intros Hdec Htok Hreq Hmap.
  destruct (NewNtSecurityDescriptor_returns ntsdBytes) as (sd' & err' & E & Hwf & _).
  rewrite Hdec in E. injection E as <- <-.
  assert (Hm : is_uint32 (mappedRequest desiredAccess options))
    by (apply MapGenericAccess_uint32; assumption).
  destruct (AccessCheck_shape sd token desiredAccess options Htok Hwf Hm)
    as (r & Hr & _).
  now exists r.
Qed.

End DescriptorDecoder.

Lemma NewNtSecurityDescriptor_never_panics_witness :
  exists sd err,
    NewNtSecurityDescriptor NewGUID_pkg
      (ntsdHeaderRecord ++ aclHeaderRecord x02 ++ aceRecord) = Some (sd, err) /\
    Descriptor_wf sd /\ SID_wf (Group sd) /\
    Forall ACE_decoded (Aces (DACL sd)) /\
    SACL sd = ACL_zero.
Proof.
  apply (NewNtSecurityDescriptor_never_panics NewGUID_pkg
           (ntsdHeaderRecord ++ aclHeaderRecord x02 ++ aceRecord)).
  intros header buf1 H. vm_compute in H. injection H as <- _.
  vm_compute. reflexivity.
Defined.

Lemma NewNtSecurityDescriptor_degenerate_first_ace_witness :
  exists p,
    GetPrincipal (ObjectAce (NewAccessAllowedACE systemSID AccessMaskGenericRead))
    = Some p /\ SID_valid p /\
    NewNtSecurityDescriptor NewGUID_pkg
      (ntsdHeaderRecord ++ aclHeaderRecord x01 ++ aceRecord) =
      Some (mkNTSD (mkNTSDHeader 1 0 0x8004 0 0 0 20)
              (mkACL (mkACLHeader 2 0 28 1 0)
                 [NewAccessAllowedACE systemSID AccessMaskGenericRead])
              ACL_zero p p, None).
Proof.
  apply (NewNtSecurityDescriptor_degenerate_first_ace NewGUID_pkg
           (ntsdHeaderRecord ++ aclHeaderRecord x01 ++ aceRecord)
           (mkNTSDHeader 1 0 0x8004 0 0 0 20)
           (mkACL (mkACLHeader 2 0 28 1 0)
              [NewAccessAllowedACE systemSID AccessMaskGenericRead])
           (aclHeaderRecord x01 ++ aceRecord) []
           (NewAccessAllowedACE systemSID AccessMaskGenericRead) []);
    vm_compute; reflexivity.
Defined.

Lemma AccessCheck_of_decoded_descriptor_witness :
  is_Some (AccessCheck
             (mkNTSD (mkNTSDHeader 1 0 0x8004 0 0 0 20)
                (mkACL (mkACLHeader 2 0 28 1 0)
                   [NewAccessAllowedACE systemSID AccessMaskGenericRead])
                ACL_zero systemSID systemSID)
             (NewTokenUser userSID [adminSID]) AccessMaskGenericRead None).
Proof.
  apply (AccessCheck_of_decoded_descriptor NewGUID_pkg
           (ntsdHeaderRecord ++ aclHeaderRecord x01 ++ aceRecord) _ None).
  - vm_compute. reflexivity.
  - split; [|repeat constructor]; unfold SID_wf; cbn; lia.
  - unfold is_uint32. vm_compute. split; congruence.
  - change (map_Forall (fun _ v => 0 <= v < 2 ^ 32)
              (default ∅ (GenericMapping DefaultAccessCheckOptions))).
    apply (bool_decide_unpack _). vm_compute. exact I.
Defined.

(** ** Capability SIDs *)

Lemma copy_full (src : list byte) :
  length src = 6%nat -> copy (replicate 6 x00) src = src.
Proof.
  intros H. unfold copy. rewrite length_replicate, H.
  rewrite <- H at 1. rewrite firstn_all. cbn. apply app_nil_r.
Qed.

(** What a successful [ParseCapabilitySID] establishes. *)
Lemma ParseCapabilitySID_ok (data : list byte) (sid : SID) :
  ParseCapabilitySID data = Some (sid, None) ->
  (8 <= length data)%nat /\
  le (slice 0 1 data) = 1 /\ 2 <= le (slice 1 2 data) /\
  8 + 4 * le (slice 1 2 data) <= Z.of_nat (length data) /\
  (exists a5, slice 2 8 data !! 5%nat = Some a5 /\ byte_to_Z a5 = 15) /\
  sid = mkSID 1 (le (slice 1 2 data)) (slice 2 8 data)
          (map (fun i => let offset := (8 + i * 4)%nat in
                         le (slice offset (offset + 4) data))
             (seq 0 (Z.to_nat (le (slice 1 2 data))))) /\
  SubAuthorities sid !! 0%nat = Some 3.
Proof.
  unfold ParseCapabilitySID.
  destruct (length data <? 8)%nat eqn:H8; [discriminate|]. apply Nat.ltb_ge in H8.
  destruct (le (slice 0 1 data) =? 1) eqn:Hrev; [|discriminate]. cbn [negb].
  apply Z.eqb_eq in Hrev.
  destruct (le (slice 1 2 data) <? 2) eqn:Hnum; [discriminate|]. apply Z.ltb_ge in Hnum.
  destruct (Z.of_nat (length data) <? 8 + 4 * le (slice 1 2 data)) eqn:Hmin;
    [discriminate|]. apply Z.ltb_ge in Hmin.
  rewrite copy_full by (apply slice_length; lia).
  destruct (slice 2 8 data !! 5%nat) as [a5|] eqn:Ha5; [|discriminate]. cbn [mbind option_bind].
  destruct (byte_to_Z a5 =? 15) eqn:H15; [|discriminate]. cbn [negb].
  apply Z.eqb_eq in H15.
  destruct (0 <? le (slice 1 2 data)) eqn:Hpos; [|apply Z.ltb_ge in Hpos; lia].
  destruct (map _ (seq 0 (Z.to_nat (le (slice 1 2 data)))) !! 0%nat) as [s0|] eqn:Hs0;
    [|discriminate]. cbn [mbind option_bind].
  destruct (s0 =? 3) eqn:H3; [|discriminate]. cbn [negb]. apply Z.eqb_eq in H3.
  intros H. injection H as <-. rewrite Hrev. subst s0.
  repeat split; try assumption; try lia. now exists a5.
Qed.

(** X24. Whatever [ParseCapabilitySID] accepts is a capability SID for
    [IsCapabilitySID]: the parsed SID renders with the prefix
    "S-1-15-3-".  The parser's demand for at least two sub-authorities
    is what supplies the final dash of that prefix. *)
Theorem ParseCapabilitySID_is_capability (data : list byte) (sid : SID) :
  ParseCapabilitySID data = Some (sid, None) ->
  IsCapabilitySID sid = Some true.
Proof.
  intros H. apply ParseCapabilitySID_ok in H
    as (H8 & _ & Hnum & Hmin & (a5 & Ha5 & H15) & -> & Hs0).
  cbn [SubAuthorities] in Hs0.
  set (subs := map _ _) in *.
  assert (Hlen : length subs = Z.to_nat (le (slice 1 2 data)))
    by apply subAuthorities_length.
  destruct subs as [|s0 [|s1 rest]] eqn:Hsubs; try (simpl in Hlen; lia).
  injection Hs0 as ->.
  unfold IsCapabilitySID, SID_String. cbn [Authority NumAuthorities SubAuthorities Revision].
  rewrite slice_length by lia. cbn [Nat.sub Nat.ltb Nat.leb]. rewrite Ha5, H15.
  rewrite String_loop_in_range by lia.
  rewrite drop_0, <- Hlen, firstn_all. cbn [mbind option_bind foldr].
  unfold HasPrefix, CapabilitySIDPrefix. f_equal.
  change ("S-" +:+ fmt_d 1 +:+ "-" +:+ fmt_d 15) with "S-1-15".
  change (fmt_d 3) with "3".
  set (tail := fmt_d s1 +:+ _).
  change (("S-1-15" +:+ "-" +:+ "3" +:+ "-" +:+ tail)) with ("S-1-15-3-" +:+ tail).
  apply prefix_append.
Qed.

Lemma ParseCapabilitySID_is_capability_witness :
  IsCapabilitySID (mkSID 1 2 (authorityOf x0f) [3; 1024]) = Some true.
Proof.
  apply (ParseCapabilitySID_is_capability capabilityRecord).
  vm_compute. reflexivity.
Defined.

(** X25. The two binary SID decoders agree: a record that
    [ParseCapabilitySID] accepts and that declares at most 15
    sub-authorities is decoded by [NewSID] to the same SID.  (The
    capability parser alone accepts up to 255 sub-authorities.) *)
Theorem ParseCapabilitySID_agrees_with_NewSID (data : list byte) (sid : SID) :
  ParseCapabilitySID data = Some (sid, None) ->
  NumAuthorities sid <= 15 ->
  NewSID data (Z.of_nat (length data)) = ((sid, None), []).
Proof.
  intros H Hmax. apply ParseCapabilitySID_ok in H
    as (H8 & Hrev & Hnum & Hmin & _ & -> & _).
  cbn [NumAuthorities] in Hmax.
  unfold NewSID. rewrite Nat2Z.id, firstn_all, skipn_all.
  destruct (length data <? 8)%nat eqn:E8; [apply Nat.ltb_lt in E8; lia|].
  rewrite Hrev. cbn [Z.eqb Pos.eqb negb].
  destruct (15 <? le (slice 1 2 data)) eqn:E15; [apply Z.ltb_lt in E15; lia|].
  destruct (Z.of_nat (length data) <? 8 + le (slice 1 2 data) * 4) eqn:Emin;
    [apply Z.ltb_lt in Emin; lia|].
  reflexivity.
Qed.

Lemma ParseCapabilitySID_agrees_with_NewSID_witness :
  NewSID capabilityRecord (Z.of_nat (length capabilityRecord))
  = ((mkSID 1 2 (authorityOf x0f) [3; 1024], None), []).
Proof.
  apply (ParseCapabilitySID_agrees_with_NewSID capabilityRecord).
  - vm_compute. reflexivity.
  - cbn. lia.
Defined.
